(** * Citation / reference consistency engine: a shallow embedding

    The development follows two source files of the repository:

    - [Referencenumvalidation.py]  (numeral citation schemes: discovery,
      validation, safety gate, renumbering), embedded in [Module Numeric];
    - [ReferenceAPAValidation.py]  (name-year schemes: key normalisation,
      matcher cascade, diagnostics), embedded in [Module APA].

    [Module Py] models the part of the Python runtime the two files rely on
    (text as sequences of code points, the [re] matcher, exceptions, floats),
    [Module Docx] the part of the python-docx object model they traverse. *)

From Stdlib Require Import ZArith NArith List Bool Lia Ascii String Floats.
From stdpp Require Import base decidable option numbers list sorting gmap.

Set Default Proof Using "Type".
(* Decimal literals such as 0.85 denote the nearest binary64 value, as they
   do in Python. *)
Set Warnings "-inexact-float".
Local Open Scope Z_scope.

(* ===================================================================== *)
(** * The Python runtime                                                  *)
(* ===================================================================== *)

Module Py.

(** ** Exceptions.  An operation that may raise returns an [outcome]. *)

Inductive exn :=
| IndexError | KeyError | ValueError | ZeroDivisionError | OverflowError.

Inductive outcome (A : Type) : Type :=
| Ok (a : A)
| Raise (e : exn).
Arguments Ok {A} a.
Arguments Raise {A} e.

Definition bind {A B} (m : outcome A) (k : A → outcome B) : outcome B :=
  match m with
  | Ok a => k a
  | Raise e => Raise e
  end.

#[global] Instance outcome_ret : MRet outcome := @Ok.
#[global] Instance outcome_bind : MBind outcome := λ A B k m, bind m k.
#[global] Instance outcome_fmap : FMap outcome :=
  λ A B f m, bind m (λ a, Ok (f a)).

(** ** Text.  A Python [str] is a sequence of Unicode code points. *)

Abbreviation str := (list N) (only parsing).

(** An ASCII literal of the source, as a [str]. *)
Definition lit (s : String.string) : str :=
  map N_of_ascii (list_ascii_of_string s).

Definition chr (a : ascii) : N := N_of_ascii a.

Definition str_eqb (a b : str) : bool := bool_decide (a = b).

(** The truth value of a list or string, and its negation. *)
Definition is_empty {A} (l : list A) : bool :=
  match l with [] => true | _ => false end.
Definition nonempty {A} (l : list A) : bool := negb (is_empty l).

Definition in_range (lo hi c : N) : bool := ((lo <=? c) && (c <=? hi))%N.

Definition is_ascii (c : N) : bool := (c <? 128)%N.

(** [str.isspace] and the class [\s]: the same 29 code points. *)
Definition isspace (c : N) : bool :=
  in_range 9 13 c || in_range 28 32 c || (c =? 133)%N || (c =? 160)%N
  || (c =? 5760)%N || in_range 8192 8202 c || (c =? 8232)%N
  || (c =? 8233)%N || (c =? 8239)%N || (c =? 8287)%N || (c =? 12288)%N.

Definition is_upper_az (c : N) : bool := in_range 65 90 c.   (* [A-Z] *)
Definition is_lower_az (c : N) : bool := in_range 97 122 c.  (* [a-z] *)
Definition is_digit_09 (c : N) : bool := in_range 48 57 c.   (* 0..9 *)

(** The Unicode tables Python consults outside the Basic Latin block are
    not part of the repository; they are taken as an interface.  Inside
    Basic Latin every class below is fixed by the definitions that use
    the interface. *)
Class Unicode := {
  (** decimal value of a non-ASCII code point of category Nd *)
  uni_decimal : N → option N;
  (** alphanumeric non-ASCII code points (the non-ASCII part of [\w]) *)
  uni_alnum : N → bool;
  (** [str.lower] on a string that has a non-ASCII code point *)
  uni_lower : str → str;
}.

Section WithUnicode.
Context `{Unicode}.

(** The decimal value of a digit of class [\d]. *)
Definition decimal (c : N) : option N :=
  if is_ascii c then
    if is_digit_09 c then Some (c - 48)%N else None
  else uni_decimal c.

Definition isdigit (c : N) : bool := bool_decide (is_Some (decimal c)).

(** The class [\w]. *)
Definition isword (c : N) : bool :=
  if is_ascii c then
    is_digit_09 c || is_upper_az c || is_lower_az c || (c =? 95)%N
  else uni_alnum c.

Definition lower_ascii (c : N) : N :=
  if is_upper_az c then (c + 32)%N else c.

(** [str.lower] *)
Definition lower (s : str) : str :=
  if forallb is_ascii s then map lower_ascii s else uni_lower s.

(** [int(s)] for a non-empty run of digits of class [\d]. *)
Definition int_of_digits (s : str) : Z :=
  Z.of_N (fold_left (λ acc c, (10 * acc + default 0 (decimal c))%N) s 0%N).

End WithUnicode.

(** A pattern letter under [re.IGNORECASE], for a letter whose only
    case variants are its two ASCII forms ([a d e h l n t] are). *)
Definition ci (a : ascii) (c : N) : bool :=
  (lower_ascii c =? lower_ascii (chr a))%N.

(** ** Regular expressions: a backtracking matcher with the search order
    of [re] (leftmost alternative first, greedy repetition longest
    first, lazy repetition shortest first). *)

Inductive regex :=
| Eps                                   (* the empty pattern *)
| Cls (p : N → bool)                    (* one character of a class *)
| Seq (r1 r2 : regex)                   (* r1r2 *)
| Alt (r1 r2 : regex)                   (* r1|r2 *)
| Star (greedy : bool) (r : regex)      (* r* and r*? *)
| Grp (i : nat) (r : regex)             (* capturing group number i *)
| Bol                                   (* ^ *)
| Eol                                   (* $ *)
| WordB (w : N → bool).                 (* \b, for the word class w *)

Definition Plus (r : regex) : regex := Seq r (Star true r).   (* r+ *)
Definition Opt (r : regex) : regex := Alt r Eps.              (* r? *)
Definition Chr (a : ascii) : regex := Cls (N.eqb (chr a)).
Definition AnyOf (s : String.string) : N → bool :=
  λ c, existsb (N.eqb c) (lit s).
Definition dot : regex := Cls (λ c, negb (c =? 10)%N).        (* . *)

(** The matcher's position: the character before it (None at the start
    of the text), the text after it, and the groups closed so far, the
    latest first. *)
Record mstate := MState {
  prev : option N;
  rest : str;
  caps : list (nat * str);
}.

Definition consumed (before after : mstate) : str :=
  take (length (rest before) - length (rest after)) (rest before).

(** The loop of a repetition whose body is matched by [step]: at most
    [n] more rounds, each of which must consume text (the matcher's guard
    against empty rounds). *)
Fixpoint star_loop {A} (step : (mstate → option A) → mstate → option A)
    (greedy : bool) (k : mstate → option A) (n : nat) (st : mstate)
  : option A :=
  match n with
  | O => k st
  | S n' =>
      let again st' :=
        if (length (rest st') <? length (rest st))%nat
        then star_loop step greedy k n' st' else None in
      if greedy then
        match step again st with
        | Some x => Some x
        | None => k st
        end
      else
        match k st with
        | Some x => Some x
        | None => step again st
        end
  end.

(** [rx r k st]: match [r] at [st], then continue with [k]; [None] asks
    the caller to backtrack. *)
Fixpoint rx {A} (r : regex) (k : mstate → option A) (st : mstate)
  : option A :=
  match r with
  | Eps => k st
  | Cls p =>
      match rest st with
      | c :: t => if p c then k (MState (Some c) t (caps st)) else None
      | [] => None
      end
  | Seq r1 r2 => rx r1 (rx r2 k) st
  | Alt r1 r2 =>
      match rx r1 k st with
      | Some x => Some x
      | None => rx r2 k st
      end
  | Star greedy r1 => star_loop (rx r1) greedy k (length (rest st)) st
  | Grp i r1 =>
      rx r1 (λ st', k (MState (prev st') (rest st')
                         ((i, consumed st st') :: caps st'))) st
  | Bol => match prev st with None => k st | Some _ => None end
  | Eol =>
      match rest st with
      | [] => k st
      | [c] => if (c =? 10)%N then k st else None
      | _ => None
      end
  | WordB w =>
      let before := match prev st with Some c => w c | None => false end in
      let after := match rest st with c :: _ => w c | [] => false end in
      if xorb before after then k st else None
  end.

(** One attempt at one position. *)
Definition exec (r : regex) (p : option N) (s : str) : option mstate :=
  rx r Some (MState p s []).

(** [m.group(i)]; a group that took no part in the match reads as the
    empty string, as in the tuples of [findall]. *)
Fixpoint group (i : nat) (cs : list (nat * str)) : str :=
  match cs with
  | [] => []
  | (j, s) :: cs' => if (i =? j)%nat then s else group i cs'
  end.

(** [re.match(r, s)] *)
Definition re_match (r : regex) (s : str) : option mstate :=
  exec r None s.

(** [re.search(r, s)]: the text before the match, the match, the state
    after it. *)
Fixpoint search_go (r : regex) (p : option N) (before : str) (s : str)
  : option (str * str * mstate) :=
  match exec r p s with
  | Some st' => Some (rev before, take (length s - length (rest st')) s, st')
  | None =>
      match s with
      | [] => None
      | c :: t => search_go r (Some c) (c :: before) t
      end
  end.
Definition re_search (r : regex) (s : str) : option (str * str * mstate) :=
  search_go r None [] s.

(** The left-to-right scan behind [findall] and [sub]: unmatched
    characters and non-overlapping matches, in text order.  [skip] counts
    the characters of the current match still to step over.  (No pattern
    of the sources matches the empty string; an empty match is recorded
    and the scan moves on by one character.) *)
Inductive piece := Unmatched (c : N) | Matched (text : str) (st : mstate).

Fixpoint scan (r : regex) (skip : nat) (p : option N) (s : str)
  : list piece :=
  match s with
  | [] =>
      match skip, exec r p [] with
      | O, Some st' => [Matched [] st']
      | _, _ => []
      end
  | c :: t =>
      match skip with
      | S skip' => scan r skip' (Some c) t
      | O =>
          match exec r p s with
          | Some st' =>
              match (length s - length (rest st'))%nat with
              | O => Matched [] st' :: Unmatched c :: scan r 0 (Some c) t
              | S n => Matched (take (S n) s) st' :: scan r n (Some c) t
              end
          | None => Unmatched c :: scan r 0 (Some c) t
          end
      end
  end.

(** [re.findall(r, s)], each match with its groups; [findall_from] starts
    after a character [p]. *)
Definition match_of_piece (pc : piece) : option (str * list (nat * str)) :=
  match pc with
  | Matched text st => Some (text, caps st)
  | Unmatched _ => None
  end.

Definition findall_from (r : regex) (p : option N) (s : str)
  : list (str * list (nat * str)) :=
  omap match_of_piece (scan r 0 p s).

Definition findall (r : regex) (s : str) : list (str * list (nat * str)) :=
  findall_from r None s.

(** [re.sub(r, repl, s)] for a replacement without group references. *)
Definition sub (r : regex) (repl : str) (s : str) : str :=
  concat (map (λ pc, match pc with
                     | Matched _ _ => repl
                     | Unmatched c => [c]
                     end) (scan r 0 None s)).

(** ** Strings: the methods the sources call. *)

Fixpoint lstrip (s : str) : str :=
  match s with
  | c :: t => if isspace c then lstrip t else s
  | [] => []
  end.

Fixpoint rstrip (s : str) : str :=
  match s with
  | [] => []
  | c :: t =>
      match rstrip t with
      | [] => if isspace c then [] else [c]
      | r => c :: r
      end
  end.

(** [s.strip()] *)
Definition strip (s : str) : str := rstrip (lstrip s).

(** [s.startswith(p)] *)
Fixpoint startswith (p s : str) : bool :=
  match p, s with
  | [], _ => true
  | a :: p', b :: s' => (a =? b)%N && startswith p' s'
  | _ :: _, [] => false
  end.

(** [p in s] *)
Fixpoint contains (p s : str) : bool :=
  startswith p s ||
  match s with
  | [] => false
  | _ :: t => contains p t
  end.

(** [s.rsplit(c, 1)] for a one-character separator: the text before the
    last [c], if there is one, and the text after it. *)
Fixpoint rpartition (sep : N) (s : str) : option str * str :=
  match s with
  | [] => (None, [])
  | c :: t =>
      match rpartition sep t with
      | (Some first, last) => (Some (c :: first), last)
      | (None, last) =>
          if (c =? sep)%N then (Some [], last) else (None, c :: last)
      end
  end.
Definition rsplit1 (sep : N) (s : str) : list str :=
  match rpartition sep s with
  | (Some first, last) => [first; last]
  | (None, last) => [last]
  end.

(** [s.find(p)]: the first position at which [p] occurs ([None] for
    -1). *)
Fixpoint find_from (i : nat) (p s : str) : option nat :=
  if startswith p s then Some i
  else match s with
       | [] => None
       | _ :: t => find_from (S i) p t
       end.
Definition str_find (p s : str) : option nat := find_from 0 p s.

(** [sep.join(parts)] *)
Fixpoint join (sep : str) (parts : list str) : str :=
  match parts with
  | [] => []
  | [p] => p
  | p :: rest => p ++ sep ++ join sep rest
  end.

(** [s.split(c)] for a one-character separator: always at least one
    field. *)
Fixpoint split_on (sep : N) (s : str) : list str :=
  match s with
  | [] => [[]]
  | c :: t =>
      if (c =? sep)%N then [] :: split_on sep t
      else match split_on sep t with
           | f :: fs => (c :: f) :: fs
           | [] => [[c]]
           end
  end.

(** [s.split()]: the maximal runs of non-whitespace; possibly none. *)
Fixpoint split_ws_go (cur : str) (s : str) : list str :=
  match s with
  | [] => if bool_decide (cur = []) then [] else [rev cur]
  | c :: t =>
      if isspace c then
        if bool_decide (cur = []) then split_ws_go [] t
        else rev cur :: split_ws_go [] t
      else split_ws_go (c :: cur) t
  end.
Definition split_ws (s : str) : list str := split_ws_go [] s.

(** [l[0]] *)
Definition head_exn {A} (l : list A) : outcome A :=
  match l with
  | x :: _ => Ok x
  | [] => Raise IndexError
  end.

(** [l[i]] *)
Definition index_exn {A} (i : nat) (l : list A) : outcome A :=
  match l !! i with
  | Some x => Ok x
  | None => Raise IndexError
  end.

(** [str(n)] for an [int]. *)
Fixpoint digits_go (fuel : nat) (n : N) (acc : str) : str :=
  match fuel with
  | O => acc
  | S fuel' =>
      let acc' := (48 + n mod 10)%N :: acc in
      if (n <? 10)%N then acc' else digits_go fuel' (n / 10)%N acc'
  end.
Definition digits (n : N) : str := digits_go (S (N.to_nat (N.log2 n))) n [].

Definition str_of_int (z : Z) : str :=
  if z <? 0 then chr "-" :: digits (Z.to_N (- z)) else digits (Z.to_N z).

(** ** Floats are IEEE binary64, as [PrimFloat]. *)

Definition float_of_len (n : nat) : float :=
  PrimFloat.of_uint63 (Uint63.of_Z (Z.of_nat n)).

(** [a / b] on lengths (exact for operands below 2^53, which bounds
    every length a document can have). *)
Definition truediv (a b : nat) : outcome float :=
  match b with
  | O => Raise ZeroDivisionError
  | _ => Ok (float_of_len a / float_of_len b)%float
  end.

(** [for x in l: ...] where the body may raise. *)
Fixpoint mapM {A B} (f : A → outcome B) (l : list A) : outcome (list B) :=
  match l with
  | [] => Ok []
  | x :: l' => y ← f x; ys ← mapM f l'; Ok (y :: ys)
  end.

Fixpoint foldM {A B} (f : B → A → outcome B) (l : list A) (b : B)
  : outcome B :=
  match l with
  | [] => Ok b
  | x :: l' => b' ← f b x; foldM f l' b'
  end.

(** The order of [str]: lexicographic on code points. *)
Fixpoint str_leb (a b : str) : bool :=
  match a, b with
  | [], _ => true
  | _ :: _, [] => false
  | x :: a', y :: b' => (x <? y)%N || ((x =? y)%N && str_leb a' b')
  end.

(** [round(x, 1)] is CPython's correctly rounded decimal rounding; it is
    outside the repository and enters as an interface. *)
Class Rounding := { round1 : float → float }.

(** [difflib.SequenceMatcher(None, a, b)]: the three similarity measures
    the sources call. *)
Class Difflib := {
  ratio : str → str → float;
  quick_ratio : str → str → float;
  real_quick_ratio : str → str → float;
}.

(** ** A [dict] with string keys: the entries in insertion order, each
    key once. *)
Abbreviation dict V := (list (list N * V)) (only parsing).

(** [d.get(k)] *)
Fixpoint dict_get {V} (k : str) (d : dict V) : option V :=
  match d with
  | [] => None
  | (k', v) :: d' => if str_eqb k k' then Some v else dict_get k d'
  end.

(** [k in d] *)
Definition dict_mem {V} (k : str) (d : dict V) : bool :=
  bool_decide (is_Some (dict_get k d)).

(** [d[k]] *)
Definition dict_lookup {V} (k : str) (d : dict V) : outcome V :=
  match dict_get k d with
  | Some v => Ok v
  | None => Raise KeyError
  end.

(** [d[k] = v]: a present key keeps its place. *)
Fixpoint dict_set {V} (k : str) (v : V) (d : dict V) : dict V :=
  match d with
  | [] => [(k, v)]
  | (k', v') :: d' =>
      if str_eqb k k' then (k, v) :: d' else (k', v') :: dict_set k v d'
  end.

(** [sorted(l, key=f)]: a stable sort. *)
Fixpoint insert_on {A} (f : A → Z) (x : A) (l : list A) : list A :=
  match l with
  | [] => [x]
  | y :: l' => if f x <=? f y then x :: l else y :: insert_on f x l'
  end.
Definition sorted_on {A} (f : A → Z) (l : list A) : list A :=
  foldr (insert_on f) [] l.

(** ** Notions used to state properties of the matcher *)

(** The character before the position reached after reading [u]. *)
Definition last_or (p : option N) (u : str) : option N :=
  match last u with
  | Some c => Some c
  | None => p
  end.

(** [v] does not start with a character of class [p]. *)
Definition stops (p : N → bool) (v : str) : Prop :=
  match v with
  | c :: _ => p c = false
  | [] => True
  end.

(** A text that is empty or starts with a comma. *)
Definition at_comma (t : str) : Prop := t = [] ∨ ∃ t', t = 44%N :: t'.

(** The number a string of ASCII digits denotes. *)
Definition value (s : str) : N :=
  fold_left (λ acc c, (10 * acc + (c - 48))%N) s 0%N.

End Py.

(* ===================================================================== *)
(** * The python-docx object model                                        *)
(* ===================================================================== *)

Module Docx.
Import Py.

(** A run: its text, its character style's name (None: no style object)
    and [font.superscript] (None, True or False). *)
Record run := Run {
  r_text : str;
  r_style : option str;
  r_superscript : option bool;
}.

Record paragraph := Paragraph {
  p_style : option str;
  p_runs : list run;
}.

(** [para.text].  A paragraph is modelled by its runs; a hyperlink, whose
    text python-docx adds to [para.text] from version 1.0 on, is outside
    the model. *)
Definition p_text (p : paragraph) : str := concat (map r_text (p_runs p)).

(** The children of the document body: paragraphs, tables (rows of cells
    of paragraphs, no cell merged with another) and anything else
    (section properties, ...). *)
Inductive block :=
| BPara (p : paragraph)
| BTable (rows : list (list (list paragraph)))
| BOther.

Record document := Document {
  body : list block;
  styles : list str;       (* names of the styles the document defines *)
}.

(** [doc.paragraphs]: the paragraphs directly under the body, each with
    its position among the body's children. *)
Definition indexed_paragraphs (d : document) : list (nat * paragraph) :=
  omap (λ ib, match ib.2 with
              | BPara p => Some (ib.1, p)
              | _ => None
              end) (imap (λ i b, (i, b)) (body d)).

Definition paragraphs (d : document) : list paragraph :=
  (indexed_paragraphs d).*2.

Definition style_is (st : option str) (name : String.string) : bool :=
  match st with
  | Some n => str_eqb n (lit name)
  | None => false
  end.

Definition truthy (b : option bool) : bool := default false b.

(** [para.add_run(text)] creates a run without style or font settings. *)
Definition new_run (text : str) : run := Run text None None.

End Docx.

(* ===================================================================== *)
(** * Referencenumvalidation.py                                           *)
(* ===================================================================== *)

Module Numeric.
Import Py Docx.

Section Definitions.
Context `{Unicode} `{Difflib} `{Rounding}.

(** [-–—] *)
Definition is_dash (c : N) : bool :=
  (c =? 45)%N || (c =? 8211)%N || (c =? 8212)%N.

(** [(\d+)\s*[-–—]\s*(\d+)|(\d+)] *)
Definition NUMBERS : regex :=
  Alt (Seq (Grp 1 (Plus (Cls isdigit)))
      (Seq (Star true (Cls isspace))
      (Seq (Cls is_dash)
      (Seq (Star true (Cls isspace))
           (Grp 2 (Plus (Cls isdigit)))))))
      (Grp 3 (Plus (Cls isdigit))).

(** The numeral file is embedded twice.  This module computes on Python's
    integers and lists as the language defines them, without bound.
    [Module Bounded] below has the same functions under the two bounds
    CPython sets on them: the length of a sequence and the number of
    digits converted between [int] and [str]. *)

(** [range(s, e + 1)], as the list of its elements. *)
Definition range_incl (s e : Z) : list Z :=
  map (λ i, s + Z.of_nat i) (seq 0 (Z.to_nat (e + 1 - s))).

(** One tuple [(start, end, single)] of [pattern.findall].  (On unbounded
    integers [int] does not fail on a run of [\d] and the ValueError
    handlers are dead; [Bounded.numbers_of_match] has them.) *)
Definition numbers_of_match (g : list (nat * str)) : list Z :=
  let start := group 1 g in
  let end_ := group 2 g in
  let single := group 3 g in
  if nonempty start && nonempty end_ then
    let s := int_of_digits start in
    let e := int_of_digits end_ in
    if s <=? e then range_incl s e else []
  else if nonempty single then [int_of_digits single]
  else [].

Definition get_numbers (text : str) : list Z :=
  flat_map (λ m, numbers_of_match m.2) (findall NUMBERS text).

(** [sorted(set(nums))] *)
Definition sorted_set (nums : list Z) : list Z :=
  merge_sort Z.le (elements (list_to_set nums : gset Z)).

(** The text of one run [start..prev] of consecutive numbers (the
    source has this block twice: in the loop and after it). *)
Definition format_part (start prev : Z) : str :=
  let length := prev - start + 1 in
  if 3 <=? length then str_of_int start ++ lit "-" ++ str_of_int prev
  else if length =? 2 then str_of_int start ++ lit "," ++ str_of_int prev
  else str_of_int start.

Fixpoint format_loop (start prev : Z) (nums : list Z) (parts : list str)
  : list str :=
  match nums with
  | [] => parts ++ [format_part start prev]
  | n :: nums' =>
      if n =? prev + 1 then format_loop start n nums' parts
      else format_loop n n nums' (parts ++ [format_part start prev])
  end.

Definition format_numbers (nums : list Z) : str :=
  match sorted_set nums with
  | [] => []
  | first :: others => join (lit ", ") (format_loop first first others [])
  end.

(** [[\d,\-–—\s]] *)
Definition is_cite_char (c : N) : bool :=
  isdigit c || (c =? 44)%N || is_dash c || isspace c.

(** [^[\d,\-–—\s]+$] *)
Definition NUMBER_LIKE : regex :=
  Seq Bol (Seq (Plus (Cls is_cite_char)) Eol).

Definition is_citation_run (r : run) : bool :=
  if style_is (r_style r) "cite_bib" then true
  else if truthy (r_superscript r) then
    let text := strip (r_text r) in
    if nonempty text then bool_decide (is_Some (re_match NUMBER_LIKE text))
    else false
  else false.

(** ** class ReferenceProcessor *)

(** An entry of [ref_objects]: the id, the paragraph (with its position
    in the body, which identifies it) and the position of the run that
    carries the id, if a styled run does. *)
Record ref_object := RefObject {
  ro_id : Z;
  ro_index : nat;
  ro_para : paragraph;
  ro_run : option nat;
}.

(** The first run styled [bib_number] whose text holds a number. *)
Fixpoint find_bib_run (i : nat) (runs : list run) : option (Z * nat) :=
  match runs with
  | [] => None
  | r :: runs' =>
      if style_is (r_style r) "bib_number" then
        match get_numbers (r_text r) with
        | n :: _ => Some (n, i)
        | [] => find_bib_run (S i) runs'
        end
      else find_bib_run (S i) runs'
  end.

(** [^(\d+)] *)
Definition LEADING_INT : regex := Seq Bol (Grp 1 (Plus (Cls isdigit))).

Definition bib_entry (ip : nat * paragraph) : option ref_object :=
  let '(i, para) := ip in
  if style_is (p_style para) "REF-N" then
    match find_bib_run 0 (p_runs para) with
    | Some (found_id, bib_run) =>
        Some (RefObject found_id i para (Some bib_run))
    | None =>
        match re_match LEADING_INT (strip (p_text para)) with
        | Some m =>
            Some (RefObject (int_of_digits (group 1 (caps m))) i para None)
        | None => None
        end
    end
  else None.

Definition get_references_in_bibliography (doc : document)
  : gset Z * list ref_object :=
  let ref_objects := omap bib_entry (indexed_paragraphs doc) in
  (list_to_set (ro_id <$> ref_objects), ref_objects).

(** [iter_document_paragraphs]: body order, table cells included. *)
Definition iter_document_paragraphs (doc : document) : list paragraph :=
  flat_map (λ child, match child with
                     | BPara p => [p]
                     | BTable rows => concat (concat rows)
                     | BOther => []
                     end) (body doc).

(** The state of the discovery pass. *)
Record cited := Cited {
  all_cited_ids : list Z;
  appearance_order : list Z;
  seen : gset Z;
}.

(** The block the source repeats at each of its three flush points:
    extend [all_cited_ids], then record the ids not seen before. *)
Definition record_numbers (nums : list Z) (st : cited) : cited :=
  fold_left
    (λ st n,
       if bool_decide (n ∈ seen st) then st
       else Cited (all_cited_ids st) (appearance_order st ++ [n])
                  ({[n]} ∪ seen st))
    nums
    (Cited (all_cited_ids st ++ nums) (appearance_order st) (seen st)).

Definition flush_group (current_group : list run) (st : cited) : cited :=
  record_numbers (get_numbers (concat (map r_text current_group))) st.

(** [\^([\d,\-–—\s]+)\^] *)
Definition CARET_CITATION : regex :=
  Seq (Chr "^") (Seq (Grp 1 (Plus (Cls is_cite_char))) (Chr "^")).

Definition scan_run (acc : cited * list run) (r : run)
  : cited * list run :=
  let '(st, current_group) := acc in
  if is_citation_run r then (st, current_group ++ [r])
  else
    let st := match current_group with
              | [] => st
              | _ => flush_group current_group st
              end in
    let matches := findall CARET_CITATION (r_text r) in
    (fold_left (λ st m, record_numbers (get_numbers (group 1 m.2)) st)
               matches st, []).

Definition scan_paragraph (st : cited) (para : paragraph) : cited :=
  let '(st, current_group) := fold_left scan_run (p_runs para) (st, []) in
  match current_group with
  | [] => st
  | _ => flush_group current_group st
  end.

Definition discover (doc : document) : cited :=
  fold_left scan_paragraph (iter_document_paragraphs doc)
            (Cited [] [] ∅).

Definition get_citations_in_text (doc : document) : list Z * list Z :=
  let st := discover doc in (all_cited_ids st, appearance_order st).

(** ** Duplicate detection *)

Record processed_ref := ProcessedRef { pr_id : Z; pr_text : str }.

Record duplicate := Duplicate {
  d_id : Z;
  d_text : str;
  d_duplicate_of : Z;
  d_score : float;
}.

(** [^\[?\d+\]?[\.\s]*] *)
Definition LEADING_NUMBERING : regex :=
  Seq Bol (Seq (Opt (Chr "[")) (Seq (Plus (Cls isdigit))
      (Seq (Opt (Chr "]"))
           (Star true (Cls (λ c, (c =? 46)%N || isspace c)))))).

Definition preprocess (obj : ref_object) : processed_ref :=
  let full_text := strip (p_text (ro_para obj)) in
  let clean_text := sub LEADING_NUMBERING [] full_text in
  ProcessedRef (ro_id obj) clean_text.

(** The body of the inner loop, for one pair [i < j]; [None] stands
    for [continue] and for a ratio at or below the threshold. *)
Definition compare_pair (ref_a ref_b : processed_ref)
  : outcome (option duplicate) :=
  let text_a := pr_text ref_a in
  let len_a := length text_a in
  let text_b := pr_text ref_b in
  let len_b := length text_b in
  if (len_b =? 0)%nat then Ok None
  else
    q ← truediv (len_a `min` len_b) (len_a `max` len_b);
    if (q <? 0.6)%float then Ok None
    else if (real_quick_ratio text_a text_b <? 0.85)%float then Ok None
    else if (quick_ratio text_a text_b <? 0.85)%float then Ok None
    else
      let ratio := ratio text_a text_b in
      if (0.85 <? ratio)%float then
        Ok (Some (Duplicate (pr_id ref_b)
                            (take 100 (pr_text ref_b) ++ lit "...")
                            (pr_id ref_a)
                            (round1 (ratio * 100)%float)))
      else Ok None.

(** The two nested loops around a loop body: [ref_a] is the head, [ref_b]
    ranges over the entries after it; an entry without text is skipped as
    [ref_a]. *)
Fixpoint compare_all_with
    (body : processed_ref → processed_ref → outcome (option duplicate))
    (refs : list processed_ref) : outcome (list duplicate) :=
  match refs with
  | [] => Ok []
  | ref_a :: later =>
      here ← (if (length (pr_text ref_a) =? 0)%nat then Ok []
              else omap id <$> mapM (body ref_a) later);
      rest ← compare_all_with body later;
      Ok (here ++ rest)
  end.

Definition find_duplicates (ref_objects : list ref_object)
  : outcome (list duplicate) :=
  compare_all_with compare_pair (preprocess <$> ref_objects).

(** ** Validation *)

Record sequence_issue := SequenceIssue {
  position : nat;
  current : Z;
  expected : nat;
}.

Record stats := Stats {
  total_references : nat;
  total_citations : nat;
  missing_references : list Z;
  unused_references : list Z;
  duplicate_references : list duplicate;
  sequence_issues : list sequence_issue;
  is_perfect : bool;
}.

(** The state of the sequence walk: the issues, [seen_in_seq] and
    [previous_max] (which the source updates and never uses). *)
Definition sequence_step (acc : list sequence_issue * list Z * Z) (n : Z)
  : list sequence_issue * list Z * Z :=
  let '(issues, seen_in_seq, previous_max) := acc in
  if bool_decide (n ∈ seen_in_seq) then acc
  else
    let issues :=
      if bool_decide (n ≠ Z.of_nat (length seen_in_seq + 1)) then
        issues ++ [SequenceIssue (length seen_in_seq + 1) n
                                 (length seen_in_seq + 1)]
      else issues in
    (issues, seen_in_seq ++ [n], previous_max `max` n).

Definition sequence_walk (all_cited : list Z) : list sequence_issue :=
  (fold_left sequence_step all_cited ([], [], 0)).1.1.

Definition get_validation_stats (doc : document) : outcome stats :=
  let '(bib_refs, ref_objects) := get_references_in_bibliography doc in
  let '(all_cited, _) := get_citations_in_text doc in
  let unique_cited : gset Z := list_to_set all_cited in
  let missing := merge_sort Z.le (elements (unique_cited ∖ bib_refs)) in
  let unused := merge_sort Z.le (elements (bib_refs ∖ unique_cited)) in
  duplicates ← find_duplicates ref_objects;
  let sequence_issues := sequence_walk all_cited in
  Ok (Stats (size bib_refs) (length all_cited) missing unused duplicates
            sequence_issues
            (is_empty missing && is_empty unused
             && is_empty sequence_issues && is_empty duplicates)).

(** ** Renumbering *)

(** [mapping = {}; new_id = 1; for old_id in appearance_order: ...] *)
Definition build_mapping (appearance_order : list Z) : gmap Z Z :=
  (fold_left (λ acc old_id, (<[old_id := acc.2]> acc.1, acc.2 + 1))
             appearance_order (∅, 1)).1.

(** [(\^|\[|\()([\d,\-–—\s]+)(\^|\]|\))] *)
Definition BRACKETED_CITATION : regex :=
  Seq (Grp 1 (Alt (Chr "^") (Alt (Chr "[") (Chr "("))))
      (Seq (Grp 2 (Plus (Cls is_cite_char)))
           (Grp 3 (Alt (Chr "^") (Alt (Chr "]") (Chr ")"))))).

Definition remap (mapping : gmap Z Z) (nums : list Z) : list Z :=
  (λ n, default n (mapping !! n)) <$> nums.

Definition cite_run (text : str) : run :=
  Run text (Some (lit "cite_bib")) (Some true).

(** The [while] loop over [para.runs], one original run at a time: a
    run with a bracketed citation is split into the text before it, a
    new styled run and, if text follows, a run for that text, which the
    loop visits next.  [fuel] bounds the visits to the runs split off
    one original run; the text shrinks with each, so its length plus
    one is enough. *)
Fixpoint rewrite_run (fuel : nat) (mapping : gmap Z Z) (r : run)
  : list run :=
  match fuel with
  | O => [r]
  | S fuel' =>
      match re_search BRACKETED_CITATION (r_text r) with
      | Some (pre_text, _, m) =>
          let post_text := rest m in
          let nums := get_numbers (group 2 (caps m)) in
          let converted_text := format_numbers (remap mapping nums) in
          Run pre_text (r_style r) (r_superscript r)
          :: cite_run converted_text
          :: (if nonempty post_text then
                rewrite_run fuel' mapping (Run post_text (r_style r) None)
              else [])
      | None =>
          if is_citation_run r then
            match get_numbers (r_text r) with
            | [] => [r]
            | nums => [cite_run (format_numbers (remap mapping nums))]
            end
          else [r]
      end
  end.

Definition rewrite_paragraph (mapping : gmap Z Z) (para : paragraph)
  : paragraph :=
  Paragraph (p_style para)
    (flat_map (λ r, rewrite_run (S (length (r_text r))) mapping r)
              (p_runs para)).

Definition rewrite_block (mapping : gmap Z Z) (b : block) : block :=
  match b with
  | BPara p => BPara (rewrite_paragraph mapping p)
  | BTable rows =>
      BTable (map (map (map (rewrite_paragraph mapping))) rows)
  | BOther => BOther
  end.

(** [body.insert(i, x)] *)
Definition insert_at {A} (i : nat) (x : A) (l : list A) : list A :=
  take i l ++ x :: drop i l.

(** [obj['run'].text = str(obj['new_id'])], when the id sits in a
    styled run. *)
Definition with_new_id (obj : ref_object) (new_id : Z) : paragraph :=
  match ro_run obj with
  | Some j =>
      Paragraph (p_style (ro_para obj))
        (alter (λ r, Run (str_of_int new_id) (r_style r) (r_superscript r))
               j (p_runs (ro_para obj)))
  | None => ro_para obj
  end.

Definition reorder_bibliography (mapping : gmap Z Z) (doc : document)
  : document :=
  let '(_, ref_objects) := get_references_in_bibliography doc in
  let cited_refs :=
    omap (λ obj, (λ new_id, (new_id, obj)) <$> mapping !! ro_id obj)
         ref_objects in
  let uncited_refs :=
    filter (λ obj, mapping !! ro_id obj = None) ref_objects in
  match ro_index <$> ref_objects with
  | [] => doc
  | i0 :: indices =>
      let anchor := foldr Nat.min i0 indices in
      let removed :=
        omap (λ ib : nat * block,
                if bool_decide (ib.1 ∈ ro_index <$> ref_objects)
                then None else Some ib.2)
             (imap (λ i b, (i, b)) (body doc)) in
      let cited_sorted := sorted_on fst cited_refs in
      let moved :=
        ((λ c : Z * ref_object, BPara (with_new_id c.2 c.1))
           <$> cited_sorted)
        ++ ((λ obj, BPara (ro_para obj)) <$> uncited_refs) in
      Document
        (fold_left (λ acc x, (insert_at acc.2 x acc.1, S acc.2))
                   moved (removed, anchor)).1
        (styles doc)
  end.

Definition renumber (doc : document) : document * gmap Z Z :=
  let '(_, appearance_order) := get_citations_in_text doc in
  let styles :=
    if bool_decide (lit "cite_bib" ∈ styles doc) then styles doc
    else styles doc ++ [lit "cite_bib"] in
  let mapping := build_mapping appearance_order in
  let doc := Document (rewrite_block mapping <$> body doc) styles in
  (reorder_bibliography mapping doc, mapping).

(** ** process_document (after [Document(file)] has been read) *)

Definition changes_made (mapping : gmap Z Z) : bool :=
  existsb (λ kv : Z * Z, negb (kv.1 =? kv.2)) (map_to_list mapping).

Definition process_document (doc : document)
  : outcome (document * stats * stats * gmap Z Z * str) :=
  before_stats ← get_validation_stats doc;
  if negb (is_empty (unused_references before_stats)) then
    Ok (doc, before_stats, before_stats, ∅,
        lit "Aborted: Document validation failed due to unused references.")
  else if is_perfect before_stats then
    Ok (doc, before_stats, before_stats, ∅, lit "Validation completed.")
  else if negb (is_empty (missing_references before_stats)) then
    Ok (doc, before_stats, before_stats, ∅,
        lit "Aborted: Missing references detected.")
  else
    let '(doc, mapping) := renumber doc in
    after_stats ← get_validation_stats doc;
    let changes_made := changes_made mapping in
    let status_msg :=
      if negb (is_empty (duplicate_references before_stats)) then
        let count := length (duplicate_references before_stats) in
        (if changes_made then lit "Renumbering" else lit "Validation")
        ++ lit " completed with " ++ str_of_int (Z.of_nat count)
        ++ lit " duplicate"
        ++ (if (1 <? count)%nat then lit "s" else []) ++ lit "."
      else if changes_made then lit "Renumbering completed successfully."
      else lit "Validation completed." in
    Ok (doc, before_stats, after_stats, mapping, status_msg).

End Definitions.
End Numeric.

(* ===================================================================== *)
(** * Referencenumvalidation.py under the interpreter's bounds            *)
(* ===================================================================== *)

(** CPython bounds two operations of the numeral file.  A sequence has at
    most [sys.maxsize] elements: [list.extend] asks its argument for its
    length and raises OverflowError when a [range] is longer.  From version
    3.11 (and the security releases of 3.7 to 3.10) a conversion between
    [int] and [str] of more than [sys.get_int_max_str_digits()] digits,
    4300 unless changed, raises ValueError; 0 lifts the limit.  The two
    values enter as an interface.  Running out of memory is not
    modelled.

    The functions below are those of [Module Numeric] with these two
    failures in place; what does not convert or build numbers is shared
    with it. *)
Module Bounded.
Import Py Docx.

Class Interpreter := {
  (** [sys.maxsize] *)
  maxsize : Z;
  (** [sys.get_int_max_str_digits()] *)
  int_max_str_digits : nat;
}.

Section Definitions.
Context `{Unicode} `{Difflib} `{Rounding} `{Interpreter}.

(** Whether a conversion of [n] digits is past the limit. *)
Definition exceeds_limit (n : nat) : bool :=
  (0 <? int_max_str_digits)%nat && (int_max_str_digits <? n)%nat.

(** [int(s)] for a non-empty run of digits of class [\d]. *)
Definition py_int (s : str) : outcome Z :=
  if exceeds_limit (length s) then Raise ValueError
  else Ok (int_of_digits s).

(** [str(n)]; the sign does not count as a digit. *)
Definition py_str (n : Z) : outcome str :=
  if exceeds_limit (length (digits (Z.to_N (Z.abs n)))) then Raise ValueError
  else Ok (str_of_int n).

(** [try: ... except ValueError: pass], for a block that leaves [nums]
    as it was when it raises. *)
Definition pass_ValueError {A} (block : outcome A) (nums : A) : outcome A :=
  match block with
  | Raise ValueError => Ok nums
  | _ => block
  end.

(** [nums.extend(range(s, e + 1))] *)
Definition extend_range (nums : list Z) (s e : Z) : outcome (list Z) :=
  if maxsize <? e + 1 - s then Raise OverflowError
  else Ok (nums ++ Numeric.range_incl s e).

(** The body of the loop of [get_numbers], for one tuple
    [(start, end, single)] of [pattern.findall]. *)
Definition numbers_of_match (nums : list Z) (g : list (nat * str))
  : outcome (list Z) :=
  let start := group 1 g in
  let end_ := group 2 g in
  let single := group 3 g in
  if nonempty start && nonempty end_ then
    pass_ValueError
      (s ← py_int start;
       e ← py_int end_;
       if s <=? e then extend_range nums s e else Ok nums)
      nums
  else if nonempty single then
    pass_ValueError (n ← py_int single; Ok (nums ++ [n])) nums
  else Ok nums.

Definition get_numbers (text : str) : outcome (list Z) :=
  foldM numbers_of_match (findall Numeric.NUMBERS text).*2 [].

Definition format_part (start prev : Z) : outcome str :=
  let length := prev - start + 1 in
  if 3 <=? length then
    a ← py_str start; b ← py_str prev; Ok (a ++ lit "-" ++ b)
  else if length =? 2 then
    a ← py_str start; b ← py_str prev; Ok (a ++ lit "," ++ b)
  else py_str start.

Fixpoint format_loop (start prev : Z) (nums : list Z) (parts : list str)
  : outcome (list str) :=
  match nums with
  | [] => part ← format_part start prev; Ok (parts ++ [part])
  | n :: nums' =>
      if n =? prev + 1 then format_loop start n nums' parts
      else
        part ← format_part start prev;
        format_loop n n nums' (parts ++ [part])
  end.

Definition format_numbers (nums : list Z) : outcome str :=
  match Numeric.sorted_set nums with
  | [] => Ok []
  | first :: others =>
      parts ← format_loop first first others [];
      Ok (join (lit ", ") parts)
  end.

(** ** class ReferenceProcessor *)

Fixpoint find_bib_run (i : nat) (runs : list run)
  : outcome (option (Z * nat)) :=
  match runs with
  | [] => Ok None
  | r :: runs' =>
      if style_is (r_style r) "bib_number" then
        nums ← get_numbers (r_text r);
        match nums with
        | n :: _ => Ok (Some (n, i))
        | [] => find_bib_run (S i) runs'
        end
      else find_bib_run (S i) runs'
  end.

Definition bib_entry (ip : nat * paragraph)
  : outcome (option Numeric.ref_object) :=
  let '(i, para) := ip in
  if style_is (p_style para) "REF-N" then
    found ← find_bib_run 0 (p_runs para);
    match found with
    | Some (found_id, bib_run) =>
        Ok (Some (Numeric.RefObject found_id i para (Some bib_run)))
    | None =>
        match re_match Numeric.LEADING_INT (strip (p_text para)) with
        | Some m =>
            found_id ← py_int (group 1 (caps m));
            Ok (Some (Numeric.RefObject found_id i para None))
        | None => Ok None
        end
    end
  else Ok None.

Definition get_references_in_bibliography (doc : document)
  : outcome (gset Z * list Numeric.ref_object) :=
  entries ← mapM bib_entry (indexed_paragraphs doc);
  let ref_objects := omap id entries in
  Ok (list_to_set (Numeric.ro_id <$> ref_objects), ref_objects).

Definition flush_group (current_group : list run) (st : Numeric.cited)
  : outcome Numeric.cited :=
  nums ← get_numbers (concat (map r_text current_group));
  Ok (Numeric.record_numbers nums st).

Definition scan_run (acc : Numeric.cited * list run) (r : run)
  : outcome (Numeric.cited * list run) :=
  let '(st, current_group) := acc in
  if Numeric.is_citation_run r then Ok (st, current_group ++ [r])
  else
    st ← match current_group with
         | [] => Ok st
         | _ => flush_group current_group st
         end;
    let matches := findall Numeric.CARET_CITATION (r_text r) in
    st ← foldM (λ st m, nums ← get_numbers (group 1 m.2);
                        Ok (Numeric.record_numbers nums st))
               matches st;
    Ok (st, []).

Definition scan_paragraph (st : Numeric.cited) (para : paragraph)
  : outcome Numeric.cited :=
  '(st, current_group) ← foldM scan_run (p_runs para) (st, []);
  match current_group with
  | [] => Ok st
  | _ => flush_group current_group st
  end.

Definition discover (doc : document) : outcome Numeric.cited :=
  foldM scan_paragraph (Numeric.iter_document_paragraphs doc)
        (Numeric.Cited [] [] ∅).

Definition get_citations_in_text (doc : document)
  : outcome (list Z * list Z) :=
  st ← discover doc;
  Ok (Numeric.all_cited_ids st, Numeric.appearance_order st).

Definition get_validation_stats (doc : document) : outcome Numeric.stats :=
  '(bib_refs, ref_objects) ← get_references_in_bibliography doc;
  '(all_cited, _) ← get_citations_in_text doc;
  let unique_cited : gset Z := list_to_set all_cited in
  let missing := merge_sort Z.le (elements (unique_cited ∖ bib_refs)) in
  let unused := merge_sort Z.le (elements (bib_refs ∖ unique_cited)) in
  duplicates ← Numeric.find_duplicates ref_objects;
  let sequence_issues := Numeric.sequence_walk all_cited in
  Ok (Numeric.Stats (size bib_refs) (length all_cited) missing unused
        duplicates sequence_issues
        (is_empty missing && is_empty unused
         && is_empty sequence_issues && is_empty duplicates)).

(** ** Renumbering *)

Fixpoint rewrite_run (fuel : nat) (mapping : gmap Z Z) (r : run)
  : outcome (list run) :=
  match fuel with
  | O => Ok [r]
  | S fuel' =>
      match re_search Numeric.BRACKETED_CITATION (r_text r) with
      | Some (pre_text, _, m) =>
          let post_text := rest m in
          nums ← get_numbers (group 2 (caps m));
          converted_text ← format_numbers (Numeric.remap mapping nums);
          later ← (if nonempty post_text then
                     rewrite_run fuel' mapping
                                 (Run post_text (r_style r) None)
                   else Ok []);
          Ok (Run pre_text (r_style r) (r_superscript r)
              :: Numeric.cite_run converted_text :: later)
      | None =>
          if Numeric.is_citation_run r then
            nums ← get_numbers (r_text r);
            match nums with
            | [] => Ok [r]
            | _ =>
                text ← format_numbers (Numeric.remap mapping nums);
                Ok [Numeric.cite_run text]
            end
          else Ok [r]
      end
  end.

Definition rewrite_paragraph (mapping : gmap Z Z) (para : paragraph)
  : outcome paragraph :=
  runs ← mapM (λ r, rewrite_run (S (length (r_text r))) mapping r)
              (p_runs para);
  Ok (Paragraph (p_style para) (concat runs)).

Definition rewrite_block (mapping : gmap Z Z) (b : block) : outcome block :=
  match b with
  | BPara p => BPara <$> rewrite_paragraph mapping p
  | BTable rows =>
      BTable <$> mapM (mapM (mapM (rewrite_paragraph mapping))) rows
  | BOther => Ok BOther
  end.

Definition with_new_id (obj : Numeric.ref_object) (new_id : Z)
  : outcome paragraph :=
  match Numeric.ro_run obj with
  | Some j =>
      text ← py_str new_id;
      Ok (Paragraph (p_style (Numeric.ro_para obj))
            (alter (λ r, Run text (r_style r) (r_superscript r))
                   j (p_runs (Numeric.ro_para obj))))
  | None => Ok (Numeric.ro_para obj)
  end.

Definition reorder_bibliography (mapping : gmap Z Z) (doc : document)
  : outcome document :=
  '(_, ref_objects) ← get_references_in_bibliography doc;
  let cited_refs :=
    omap (λ obj, (λ new_id, (new_id, obj)) <$> mapping !! Numeric.ro_id obj)
         ref_objects in
  let uncited_refs :=
    filter (λ obj, mapping !! Numeric.ro_id obj = None) ref_objects in
  match Numeric.ro_index <$> ref_objects with
  | [] => Ok doc
  | i0 :: indices =>
      let anchor := foldr Nat.min i0 indices in
      let removed :=
        omap (λ ib : nat * block,
                if bool_decide (ib.1 ∈ Numeric.ro_index <$> ref_objects)
                then None else Some ib.2)
             (imap (λ i b, (i, b)) (body doc)) in
      let cited_sorted := sorted_on fst cited_refs in
      cited_paras ← mapM (λ c : Z * Numeric.ref_object, with_new_id c.2 c.1)
                         cited_sorted;
      let moved :=
        (BPara <$> cited_paras)
        ++ ((λ obj, BPara (Numeric.ro_para obj)) <$> uncited_refs) in
      Ok (Document
            (fold_left (λ acc x, (Numeric.insert_at acc.2 x acc.1, S acc.2))
                       moved (removed, anchor)).1
            (styles doc))
  end.

Definition renumber (doc : document) : outcome (document * gmap Z Z) :=
  '(_, appearance_order) ← get_citations_in_text doc;
  let styles :=
    if bool_decide (lit "cite_bib" ∈ styles doc) then styles doc
    else styles doc ++ [lit "cite_bib"] in
  let mapping := Numeric.build_mapping appearance_order in
  body ← mapM (rewrite_block mapping) (body doc);
  doc ← reorder_bibliography mapping (Document body styles);
  Ok (doc, mapping).

(** ** process_document (after [Document(file)] has been read) *)

Definition process_document (doc : document)
  : outcome (document * Numeric.stats * Numeric.stats * gmap Z Z * str) :=
  before_stats ← get_validation_stats doc;
  if negb (is_empty (Numeric.unused_references before_stats)) then
    Ok (doc, before_stats, before_stats, ∅,
        lit "Aborted: Document validation failed due to unused references.")
  else if Numeric.is_perfect before_stats then
    Ok (doc, before_stats, before_stats, ∅, lit "Validation completed.")
  else if negb (is_empty (Numeric.missing_references before_stats)) then
    Ok (doc, before_stats, before_stats, ∅,
        lit "Aborted: Missing references detected.")
  else
    '(doc, mapping) ← renumber doc;
    after_stats ← get_validation_stats doc;
    let changes_made := Numeric.changes_made mapping in
    if negb (is_empty (Numeric.duplicate_references before_stats)) then
      let count := length (Numeric.duplicate_references before_stats) in
      count_text ← py_str (Z.of_nat count);
      Ok (doc, before_stats, after_stats, mapping,
          (if changes_made then lit "Renumbering" else lit "Validation")
          ++ lit " completed with " ++ count_text ++ lit " duplicate"
          ++ (if (1 <? count)%nat then lit "s" else []) ++ lit ".")
    else if changes_made then
      Ok (doc, before_stats, after_stats, mapping,
          lit "Renumbering completed successfully.")
    else
      Ok (doc, before_stats, after_stats, mapping,
          lit "Validation completed.").

End Definitions.
End Bounded.

(* ===================================================================== *)
(** * ReferenceAPAValidation.py                                           *)
(* ===================================================================== *)

Module APA.
Import Py.

(** What a citation-style parser returns ([citation_parsers.py]); the
    style is pluggable, so the parser is an interface here. *)
Record parsed_citation := ParsedCitation {
  pc_author : str;
  pc_year : str;
  pc_type : str;
  pc_warnings : list str;
  pc_raw : str;
}.

Record parsed_reference := ParsedReference {
  pf_author : str;
  pf_year : str;
  pf_full_author : str;
  pf_abbreviations : list str;
}.

Class Parser := {
  parse_citation : str → list parsed_citation;
  parse_reference : str → option parsed_reference;
}.

(** The values of the [citations] and [references] dictionaries. *)
Record citation := Citation {
  c_display : str;
  c_author : str;
  c_year : str;
  c_type : str;
  c_warnings : list str;
  c_raw : str;
}.

Record reference := Reference {
  rf_display : str;
  rf_author : str;
  rf_year : str;
  rf_full_author : str;
  rf_abbreviations : list str;
}.

Record detail := Detail { rd_line : nat; rd_text : str }.

Record duplicate := Duplicate {
  d_id : str;
  d_text : str;
  d_duplicate_of : str;
  d_score : float;
}.

(** The result of [check_et_al_misuse] ([has_error] is always True). *)
Record et_al_check := EtAlCheck {
  ea_message : str;
  ea_author_count : nat;
  ea_correct_form : str;
  ea_severity : option str;
}.

Section Definitions.
Context `{Unicode} `{Difflib} `{Rounding} `{Parser}.

(** [[^\w\s&]] *)
Definition PUNCTUATION : regex :=
  Cls (λ c, negb (isword c || isspace c || (c =? 38)%N)).

(** [\s+] *)
Definition SPACES : regex := Plus (Cls isspace).

Definition normalize_citation_key (author_part year : str) : str :=
  let author_clean := strip (sub PUNCTUATION [] author_part) in
  let author_clean := sub SPACES (lit " ") author_clean in
  author_clean ++ lit "|" ++ year.

(** ** find_duplicates *)

Definition entry_text (reference_details : dict detail)
    (kd : str * reference) : str * str :=
  (kd.1, match dict_get kd.1 reference_details with
         | Some d => rd_text d
         | None => rf_display kd.2
         end).

Definition compare_pair (ref_a ref_b : str * str)
  : outcome (option duplicate) :=
  let len_a := length ref_a.2 in
  let len_b := length ref_b.2 in
  if (len_a =? 0)%nat || (len_b =? 0)%nat then Ok None
  else
    q ← truediv (len_a `min` len_b) (len_a `max` len_b);
    if (q <? 0.6)%float then Ok None
    else
      let ratio := ratio ref_a.2 ref_b.2 in
      if (0.85 <? ratio)%float then
        Ok (Some (Duplicate ref_b.1 (take 100 ref_b.2) ref_a.1
                            (round1 (ratio * 100)%float)))
      else Ok None.

Fixpoint compare_all (refs : list (str * str))
  : outcome (list duplicate) :=
  match refs with
  | [] => Ok []
  | ref_a :: later =>
      here ← omap id <$> mapM (compare_pair ref_a) later;
      rest ← compare_all later;
      Ok (here ++ rest)
  end.

Definition find_duplicates (references : dict reference)
    (reference_details : dict detail) : outcome (list duplicate) :=
  compare_all (entry_text reference_details <$> references).

(** ** Extraction of the two dictionaries *)

Definition display_of (c : parsed_citation) : str :=
  if str_eqb (pc_type c) (lit "parenthetical") then
    lit "(" ++ pc_author c ++ lit ", " ++ pc_year c ++ lit ")"
  else pc_author c ++ lit " (" ++ pc_year c ++ lit ")".

(** The body of the inner loop.  Each parsed citation is taken to come
    with a list of warnings of its own; the source keeps the parser's list
    object and extends it in place, so citations that share one list
    share what is merged into it. *)
Definition add_citation (i : nat)
    (acc : dict citation * dict (list nat)) (cite : parsed_citation)
  : dict citation * dict (list nat) :=
  let '(citations, citation_locations) := acc in
  let citation_key := normalize_citation_key (pc_author cite) (pc_year cite) in
  let citations :=
    match dict_get citation_key citations with
    | None =>
        dict_set citation_key
          (Citation (display_of cite) (pc_author cite) (pc_year cite)
                    (pc_type cite) (pc_warnings cite) (pc_raw cite))
          citations
    | Some c =>
        dict_set citation_key
          (Citation (c_display c) (c_author c) (c_year c) (c_type c)
             (c_warnings c
              ++ filter (λ w, w ∉ c_warnings c) (pc_warnings cite))
             (c_raw c))
          citations
    end in
  let locations := default [] (dict_get citation_key citation_locations) in
  (citations, dict_set citation_key (locations ++ [S i]) citation_locations).

(** The loop stops at the first paragraph holding the opening marker. *)
Fixpoint find_citations_from (i : nat) (paragraphs : list str)
    (acc : dict citation * dict (list nat))
  : dict citation * dict (list nat) :=
  match paragraphs with
  | [] => acc
  | para :: paragraphs' =>
      if contains (lit "<ref-open>") para then acc
      else find_citations_from (S i) paragraphs'
             (fold_left (add_citation i) (parse_citation para) acc)
  end.

Definition find_citations_in_text (paragraphs : list str)
  : dict citation * dict (list nat) :=
  find_citations_from 0 paragraphs ([], []).

Record bibliography := Bibliography {
  references : dict reference;
  reference_details : dict detail;
  abbreviation_map : dict str;
}.

Definition add_reference (i : nat) (para_stripped : str)
    (ref_data : parsed_reference) (b : bibliography) : bibliography :=
  let author_display := pf_author ref_data in
  let year := pf_year ref_data in
  let ref_key := normalize_citation_key author_display year in
  if dict_mem ref_key (references b) then b
  else
    Bibliography
      (dict_set ref_key
         (Reference (author_display ++ lit " (" ++ year ++ lit ")")
                    author_display year (pf_full_author ref_data)
                    (pf_abbreviations ref_data))
         (references b))
      (dict_set ref_key
         (Detail (S i)
            (take 150 para_stripped
             ++ (if (150 <? length para_stripped)%nat then lit "..."
                 else [])))
         (reference_details b))
      (fold_left (λ m abbr, dict_set (abbr ++ lit "|" ++ year) ref_key m)
                 (pf_abbreviations ref_data) (abbreviation_map b)).

Fixpoint find_references_from (i : nat) (paragraphs : list str)
    (in_references_section : bool) (b : bibliography) : bibliography :=
  match paragraphs with
  | [] => b
  | para :: paragraphs' =>
      let para_stripped := strip para in
      if contains (lit "<ref-open>") para_stripped then
        find_references_from (S i) paragraphs' true b
      else if contains (lit "<ref-close>") para_stripped then
        find_references_from (S i) paragraphs' false b
      else if in_references_section && nonempty para_stripped then
        match parse_reference para_stripped with
        | Some ref_data =>
            find_references_from (S i) paragraphs' in_references_section
              (add_reference i para_stripped ref_data b)
        | None =>
            find_references_from (S i) paragraphs' in_references_section b
        end
      else find_references_from (S i) paragraphs' in_references_section b
  end.

Definition find_references_in_bibliography (paragraphs : list str)
  : bibliography :=
  find_references_from 0 paragraphs false (Bibliography [] [] []).

(** ** Matching *)

(** [\s*et\s+al\.?\s*], ignoring case *)
Definition ET_AL : regex :=
  Seq (Star true (Cls isspace))
 (Seq (Cls (ci "e")) (Seq (Cls (ci "t"))
 (Seq (Plus (Cls isspace))
 (Seq (Cls (ci "a")) (Seq (Cls (ci "l"))
 (Seq (Opt (Chr ".")) (Star true (Cls isspace)))))))).

Definition extract_first_surname (author_str : str) : str :=
  let author_str := strip author_str in
  let author_str := sub ET_AL [] author_str in
  if contains (lit ",") author_str then
    strip (hd [] (split_on 44 author_str))
  else hd [] (split_ws author_str).

(** [\band\b], ignoring case *)
Definition AND : regex :=
  Seq (WordB isword)
 (Seq (Cls (ci "a")) (Seq (Cls (ci "n")) (Seq (Cls (ci "d"))
      (WordB isword)))).

(** [^the\s+] *)
Definition LEADING_THE : regex :=
  Seq Bol (Seq (Chr "t") (Seq (Chr "h") (Seq (Chr "e")
      (Plus (Cls isspace))))).

Definition normalize_text_for_comparison (text : str) : str :=
  let text := sub AND (lit "&") text in
  let text := sub (Cls (AnyOf ".,")) [] text in
  let text := lower (strip text) in
  sub LEADING_THE [] text.

(** [^(.*?)\s*\[.*?\]] *)
Definition ABBREVIATION_INTRO : regex :=
  Seq Bol (Seq (Grp 1 (Star false dot))
 (Seq (Star true (Cls isspace))
 (Seq (Chr "[") (Seq (Star false dot) (Chr "]"))))).

(** [\b[a-z]{2,}\b] *)
Definition WORD : regex :=
  Seq (WordB isword)
 (Seq (Cls is_lower_az) (Seq (Cls is_lower_az)
 (Seq (Star true (Cls is_lower_az)) (WordB isword)))).

Definition words (text : str) : gset (list N) :=
  list_to_set ((findall WORD text).*1).

Definition stopwords : gset (list N) :=
  {[ lit "and"; lit "the"; lit "et"; lit "al" ]}.

(** What [check_smart_match] computes from the citation before its
    loop. *)
Record smart_citation := SmartCitation {
  sc_year : str;
  sc_norm : str;
  sc_prefix_norm : option str;
  sc_is_etal : bool;
  sc_first_surname : str;
}.

Definition smart_citation_of (cite_data : citation)
  : outcome smart_citation :=
  let cite_author := c_author cite_data in
  let cite_norm := normalize_text_for_comparison cite_author in
  let citation_prefix_norm :=
    match re_match ABBREVIATION_INTRO cite_author with
    | Some m => Some (normalize_text_for_comparison (group 1 (caps m)))
    | None => None
    end in
  let is_etal := contains (lit "et al") cite_norm in
  cite_first_surname ←
    (if nonempty cite_norm then head_exn (split_ws cite_norm) else Ok []);
  Ok (SmartCitation (c_year cite_data) cite_norm citation_prefix_norm
                    is_etal cite_first_surname).

(** The four rules, on a candidate that passed the year test. *)
Definition rule_a (sc : smart_citation) (ref_norm : str) : bool :=
  str_eqb (sc_norm sc) ref_norm.

Definition rule_b (sc : smart_citation) (ref_norm : str) : bool :=
  match sc_prefix_norm sc with
  | Some prefix => nonempty prefix && str_eqb prefix ref_norm
  | None => false
  end.

Definition rule_c (sc : smart_citation) (ref_norm : str) : outcome bool :=
  if sc_is_etal sc then
    ref_first_surname ← head_exn (split_ws ref_norm);
    Ok (str_eqb (sc_first_surname sc) ref_first_surname)
  else Ok false.

Definition cite_words (sc : smart_citation) : gset (list N) :=
  words (sc_norm sc) ∖ stopwords.

Definition rule_d (sc : smart_citation) (ref_norm : str) : bool :=
  if (1 <? size (cite_words sc))%nat then
    bool_decide (cite_words sc ⊆ words ref_norm)
  else false.

Definition year_ok (sc : smart_citation) (ref_data : reference) : bool :=
  negb (nonempty (sc_year sc) && negb (str_eqb (rf_year ref_data) (sc_year sc))).

(** The body of the loop for one candidate: does it match? *)
Definition candidate_matches (sc : smart_citation) (ref_data : reference)
  : outcome bool :=
  if negb (year_ok sc ref_data) then Ok false
  else
    let ref_norm := normalize_text_for_comparison (rf_full_author ref_data) in
    if rule_a sc ref_norm then Ok true
    else if rule_b sc ref_norm then Ok true
    else
      c ← rule_c sc ref_norm;
      if (c : bool) then Ok true else Ok (rule_d sc ref_norm).

Fixpoint first_match (sc : smart_citation) (references : dict reference)
  : outcome (option str) :=
  match references with
  | [] => Ok None
  | (ref_key, ref_data) :: references' =>
      m ← candidate_matches sc ref_data;
      if (m : bool) then Ok (Some ref_key) else first_match sc references'
  end.

Definition check_smart_match (cite_data : citation)
    (references : dict reference) : outcome (option str) :=
  sc ← smart_citation_of cite_data;
  first_match sc references.

Definition check_spelling_mismatch (cite_author : str)
    (references : dict reference) : option str :=
  let cite_author_norm := normalize_text_for_comparison cite_author in
  (fold_left
     (λ (acc : option str * float) (kd : str * reference),
        let ref_norm := normalize_text_for_comparison (rf_author kd.2) in
        let ratio := ratio cite_author_norm ref_norm in
        if (0.8 <? ratio)%float then
          if (acc.2 <? ratio)%float then (Some kd.1, ratio) else acc
        else acc)
     references (None, 0%float)).1.

(** [^[A-Z]\.?$] *)
Definition INITIAL : regex :=
  Seq Bol (Seq (Cls is_upper_az) (Seq (Opt (Chr ".")) Eol)).

Definition author_count (ref_full_author : str) : nat :=
  if contains (lit "&") ref_full_author then
    let parts := split_on 38 ref_full_author in
    let first_part_authors :=
      length (filter (λ p, nonempty (strip p) = true
                           ∧ re_match INITIAL (strip p) = None)
                     (split_on 44 (hd [] parts))) in
    (first_part_authors + 1)%nat
  else 1%nat.

Definition check_et_al_misuse (cite_data : citation)
    (ref_data : reference) : option et_al_check :=
  let cite_author := strip (c_author cite_data) in
  let ref_full_author := rf_full_author ref_data in
  let has_et_al := contains (lit "et al") (lower cite_author) in
  let author_count := author_count ref_full_author in
  if has_et_al && (author_count <=? 2)%nat then
    let correct_form := rf_author ref_data in
    Some (EtAlCheck
            (lit "Change author per reference - use '" ++ correct_form
             ++ lit "', not 'et al.' (reference has only "
             ++ str_of_int (Z.of_nat author_count) ++ lit " author"
             ++ (if (1 <? author_count)%nat then lit "s" else [])
             ++ lit ")")
            author_count correct_form None)
  else if negb has_et_al && (3 <=? author_count)%nat then
    let first_author := extract_first_surname ref_full_author in
    let correct_form := first_author ++ lit " et al." in
    Some (EtAlCheck
            (lit "Consider using 'et al.' - reference has "
             ++ str_of_int (Z.of_nat author_count)
             ++ lit " authors, APA allows '" ++ correct_form ++ lit "'")
            author_count correct_form (Some (lit "warning")))
  else None.

Record matches := Matches {
  matched_citations : gset (list N);
  matched_references : gset (list N);
  matched_pairs : dict str;
}.

(** The cascade for one citation: exact key, abbreviation, smart
    match.  The last test is the truth value of the key found. *)
Definition match_citation (references : dict reference)
    (abbreviation_map : dict str) (cite_key : str) (cite_data : citation)
  : outcome (option str) :=
  let cite_author := strip (c_author cite_data) in
  let abbr_key := cite_author ++ lit "|" ++ c_year cite_data in
  matched_ref_key ←
    (if dict_mem cite_key references then Ok (Some cite_key)
     else match dict_get abbr_key abbreviation_map with
          | Some ref_key => Ok (Some ref_key)
          | None =>
              smart_match_key ← check_smart_match cite_data references;
              Ok (match smart_match_key with
                  | Some k => if nonempty k then Some k else None
                  | None => None
                  end)
          end);
  Ok (match matched_ref_key with
      | Some k => if nonempty k then Some k else None
      | None => None
      end).

Definition get_citation_matches (citations : dict citation)
    (references : dict reference) (abbreviation_map : dict str)
  : outcome matches :=
  foldM (λ (m : matches) (kc : str * citation),
           r ← match_citation references abbreviation_map kc.1 kc.2;
           Ok (match r with
               | Some matched_ref_key =>
                   Matches ({[kc.1]} ∪ matched_citations m)
                           ({[matched_ref_key]} ∪ matched_references m)
                           (dict_set kc.1 matched_ref_key (matched_pairs m))
               | None => m
               end))
        citations (Matches ∅ ∅ []).

(** ** validate_document *)

Record et_al_error := EtAlError {
  ee_citation : str;
  ee_message : str;
  ee_correct_form : str;
  ee_author_count : nat;
  ee_locations : list nat;
  ee_severity : str;
}.

Record year_mismatch := YearMismatchEntry {
  ym_citation : str;
  ym_cited_year : str;
  ym_ref_year : str;
  ym_ref_key : str;
  ym_locations : list nat;
}.

Record spelling_mismatch := SpellingMismatchEntry {
  sm_citation : str;
  sm_cited_author : str;
  sm_ref_author : str;
  sm_ref_key : str;
  sm_locations : list nat;
}.

Record missing_reference := MissingReferenceEntry {
  mr_reference : str;
  mr_cited_at_paragraphs : list nat;
}.

Record format_error := FormatError {
  fe_citation : str;
  fe_warnings : list str;
  fe_locations : list nat;
}.

Record unused_reference := UnusedReference {
  ur_reference : str;
  ur_line : option nat;          (* None: 'Unknown' *)
  ur_text : str;
}.

(** The containers the main loop fills. *)
Record diagnostics := Diagnostics {
  valid_citations : list str;
  et_al_errors : list et_al_error;
  year_mismatches : list year_mismatch;
  spelling_mismatches : list spelling_mismatch;
  missing_refs : list missing_reference;
  format_errors : list format_error;
}.

(** [normalize_citation_key(author, '0000').split('|')[0]] *)
Definition author_key (author : str) : str :=
  hd [] (split_on 124 (normalize_citation_key author (lit "0000"))).

(** The outcome of the cascade for a citation the matcher left
    unresolved. *)
Inductive diagnosis :=
| YearMismatch (ref_key : str) (ref_data : reference)
| SpellingMismatch (ref_key : str)
| MissingReference.

(** The [for ... break] loop that looks for a year mismatch. *)
Definition find_year_match (cite_author : str)
    (references : dict reference) : option (str * reference) :=
  List.find (λ kd, str_eqb (author_key (rf_author kd.2))
                           (author_key cite_author))
            references.

Definition diagnose (cite_author : str) (references : dict reference)
  : diagnosis :=
  match find_year_match cite_author references with
  | Some (ref_key, ref_data) => YearMismatch ref_key ref_data
  | None =>
      match check_spelling_mismatch cite_author references with
      | Some potential_match_key =>
          if nonempty potential_match_key
          then SpellingMismatch potential_match_key
          else MissingReference
      | None => MissingReference
      end
  end.

(** The body of the main loop for one citation. *)
Definition diagnose_citation (m : matches) (references : dict reference)
    (citation_locations : dict (list nat)) (dg : diagnostics)
    (kc : str * citation) : outcome diagnostics :=
  let '(cite_key, cite_data) := kc in
  let cite_author := strip (c_author cite_data) in
  let cite_year := c_year cite_data in
  let locations := default [] (dict_get cite_key citation_locations) in
  let format_errors' :=
    if is_empty (c_warnings cite_data) then format_errors dg
    else format_errors dg
         ++ [FormatError (c_display cite_data) (c_warnings cite_data)
                         locations] in
  if bool_decide (cite_key ∈ matched_citations m) then
    ref_key ← dict_lookup cite_key (matched_pairs m);
    ref_data ← dict_lookup ref_key references;
    Ok (Diagnostics
          (valid_citations dg ++ [c_display cite_data])
          (match check_et_al_misuse cite_data ref_data with
           | Some chk =>
               et_al_errors dg
               ++ [EtAlError (c_display cite_data) (ea_message chk)
                             (ea_correct_form chk) (ea_author_count chk)
                             locations
                             (default (lit "error") (ea_severity chk))]
           | None => et_al_errors dg
           end)
          (year_mismatches dg) (spelling_mismatches dg) (missing_refs dg)
          format_errors')
  else
    match diagnose cite_author references with
    | YearMismatch ref_key ref_data =>
        Ok (Diagnostics (valid_citations dg) (et_al_errors dg)
              (year_mismatches dg
               ++ [YearMismatchEntry (c_display cite_data) cite_year
                                     (rf_year ref_data) ref_key locations])
              (spelling_mismatches dg) (missing_refs dg) format_errors')
    | SpellingMismatch potential_match_key =>
        ref_data ← dict_lookup potential_match_key references;
        Ok (Diagnostics (valid_citations dg) (et_al_errors dg)
              (year_mismatches dg)
              (spelling_mismatches dg
               ++ [SpellingMismatchEntry (c_display cite_data) cite_author
                     (rf_author ref_data) potential_match_key locations])
              (missing_refs dg) format_errors')
    | MissingReference =>
        Ok (Diagnostics (valid_citations dg) (et_al_errors dg)
              (year_mismatches dg) (spelling_mismatches dg)
              (missing_refs dg
               ++ [MissingReferenceEntry (c_display cite_data) locations])
              format_errors')
    end.

Definition unused_of (m : matches) (dg : diagnostics)
    (reference_details : dict detail) (kd : str * reference)
  : option unused_reference :=
  let '(ref_key, ref_data) := kd in
  if bool_decide (ref_key ∈ matched_references m) then None
  else
    let involved_in_mismatch :=
      existsb (λ ym, str_eqb (ym_ref_key ym) ref_key) (year_mismatches dg)
      || existsb (λ sm, str_eqb (sm_ref_key sm) ref_key)
                 (spelling_mismatches dg) in
    if involved_in_mismatch then None
    else
      let detail := dict_get ref_key reference_details in
      Some (UnusedReference (rf_display ref_data) (rd_line <$> detail)
                            (default (lit "N/A") (rd_text <$> detail))).

(** The result of [validate_document]; the abbreviation-usage pass,
    which fills a field of its own from the same inputs, is left out. *)
Record validation := Validation {
  v_citations : dict citation;
  v_citation_locations : dict (list nat);
  v_bibliography : bibliography;
  v_matches : matches;
  v_diagnostics : diagnostics;
  v_unused_references : list unused_reference;
  v_duplicates : list duplicate;
}.

Definition validate_document (paragraphs : list str)
  : outcome validation :=
  let '(citations, citation_locations) :=
    find_citations_in_text paragraphs in
  let b := find_references_in_bibliography paragraphs in
  m ← get_citation_matches citations (references b) (abbreviation_map b);
  dg ← foldM (diagnose_citation m (references b) citation_locations)
             citations (Diagnostics [] [] [] [] [] []);
  let unused_refs :=
    omap (unused_of m dg (reference_details b)) (references b) in
  duplicates_list ← find_duplicates (references b) (reference_details b);
  Ok (Validation citations citation_locations b m
        (Diagnostics
           (merge_sort (λ a b, Is_true (str_leb a b)) (valid_citations dg))
           (et_al_errors dg) (year_mismatches dg)
           (spelling_mismatches dg) (missing_refs dg) (format_errors dg))
        unused_refs duplicates_list).

(** ** Functions around the validation *)

Definition ALLOWED_EXTENSIONS : list str := [lit "docx"].

Definition allowed_file (filename : str) : outcome bool :=
  if contains (lit ".") filename then
    extension ← index_exn 1 (rsplit1 46 filename);
    Ok (bool_decide (lower extension ∈ ALLOWED_EXTENSIONS))
  else Ok false.

(** The test of the loop of [match_citation_to_reference] for one
    reference. *)
Definition legacy_candidate (cite_author cite_year : str)
    (ref_data : reference) : bool :=
  let cite_author_lower := lower cite_author in
  let ref_full_author := rf_full_author ref_data in
  let ref_full_lower := lower ref_full_author in
  if negb (str_eqb cite_year (rf_year ref_data)) then false
  else
    let cite_first := extract_first_surname cite_author in
    let ref_first := extract_first_surname ref_full_author in
    if nonempty cite_first && nonempty ref_first
       && str_eqb cite_first ref_first then true
    else if contains cite_author_lower ref_full_lower
            || startswith cite_author_lower ref_full_lower then true
    else
      let cite_words := words cite_author_lower ∖ stopwords in
      let ref_words := words ref_full_lower in
      negb (bool_decide (cite_words = ∅))
      && bool_decide (cite_words ⊆ ref_words).

Definition match_citation_to_reference (citation : citation)
    (references : dict reference) : option str :=
  let cite_author := strip (c_author citation) in
  let cite_year := c_year citation in
  fst <$> List.find (λ kd, legacy_candidate cite_author cite_year kd.2)
                    references.

(** [run_map]: each run with the positions of its text in the text of
    the paragraph. *)
Fixpoint run_map (current_idx : nat) (runs : list Docx.run)
  : list (nat * nat * Docx.run) :=
  match runs with
  | [] => []
  | r :: runs' =>
      let text_len := length (Docx.r_text r) in
      (current_idx, (current_idx + text_len)%nat, r)
      :: run_map (current_idx + text_len) runs'
  end.

(** ([fuzzy_threshold] is not used by the source.) *)
Definition find_citation_in_runs (para : Docx.paragraph)
    (citation_text : str) : list Docx.run :=
  if is_empty citation_text then []
  else
    let full_text := Docx.p_text para in
    let start_pos :=
      match str_find citation_text full_text with
      | Some i => Some i
      | None => str_find (lower citation_text) (lower full_text)
      end in
    match start_pos with
    | None => []
    | Some start_pos =>
        let end_pos := (start_pos + length citation_text)%nat in
        (filter (λ e : nat * nat * Docx.run,
                   (e.1.1 < end_pos)%nat ∧ (start_pos < e.1.2)%nat)
                (run_map 0 (Docx.p_runs para))).*2
    end.

End Definitions.
End APA.

(* ===================================================================== *)
(** * The specification's vocabulary                                      *)
(* ===================================================================== *)

(** Definitions that follow the words of the specification, to compare with
    what the source computes. *)
Module Spec.
Import Py Docx Numeric.
(* [APA] is not imported: its names for duplicates repeat [Numeric]'s. *)

(** "Appearance order": the distinct ids, in the order in which each is
    first encountered. *)
Fixpoint first_appearances (ids : list Z) : list Z :=
  match ids with
  | [] => []
  | n :: ids' => n :: filter (λ m, m ≠ n) (first_appearances ids')
  end.

(** "each newly-seen distinct id that is not equal to (count of distinct
    ids seen so far)+1 records a gap {position, current, expected}". *)
Definition sequence_gaps (order : list Z) : list sequence_issue :=
  omap (λ kn : nat * Z,
          if bool_decide (kn.2 ≠ Z.of_nat (kn.1 + 1))
          then Some (SequenceIssue (kn.1 + 1) kn.2 (kn.1 + 1))
          else None)
       (imap pair order).

(** Put the run [start..prev] in front of [runs]; it merges with the first
    of them when that one starts at [prev + 1]. *)
Definition join_run (start prev : Z) (runs : list (Z * Z)) : list (Z * Z) :=
  match runs with
  | (a, b) :: runs' =>
      if a =? prev + 1 then (start, b) :: runs' else (start, prev) :: runs
  | [] => [(start, prev)]
  end.

(** The maximal runs of consecutive integers of a list, each as its first
    and last element. *)
Fixpoint consecutive_runs (ids : list Z) : list (Z * Z) :=
  match ids with
  | [] => []
  | n :: ids' => join_run n n (consecutive_runs ids')
  end.

(** All pairs of entries, the earlier one first, in the order the nested
    loops visit them. *)
Fixpoint pairs {A} (l : list A) : list (A * A) :=
  match l with
  | [] => []
  | a :: l' => map (pair a) l' ++ pairs l'
  end.

Section Duplicates.
Context `{Difflib} `{Rounding}.

(** The body of the inner loop of [ReferenceProcessor.find_duplicates]
    with its two cheap guards removed. *)
Definition compare_pair_unguarded (ref_a ref_b : processed_ref)
  : outcome (option Numeric.duplicate) :=
  let text_a := pr_text ref_a in
  let len_a := length text_a in
  let text_b := pr_text ref_b in
  let len_b := length text_b in
  if (len_b =? 0)%nat then Ok None
  else
    q ← truediv (len_a `min` len_b) (len_a `max` len_b);
    if (q <? 0.6)%float then Ok None
    else
      let ratio := ratio text_a text_b in
      if (0.85 <? ratio)%float then
        Ok (Some (Numeric.Duplicate (pr_id ref_b)
                    (take 100 (pr_text ref_b) ++ lit "...")
                    (pr_id ref_a)
                    (round1 (ratio * 100)%float)))
      else Ok None.

Definition find_duplicates_unguarded `{Unicode} (ref_objects : list ref_object)
  : outcome (list Numeric.duplicate) :=
  compare_all_with compare_pair_unguarded (preprocess <$> ref_objects).

(** "skip empty texts; skip if min(len)/max(len) < 0.6; otherwise compute
    an edit-similarity ratio over the entry text; ratio > 0.85 ⇒ report":
    the test on a pair of texts, and the score reported. *)
Definition similar (text_a text_b : str) : bool :=
  nonempty text_a && nonempty text_b
  && negb (float_of_len (length text_a `min` length text_b)
           / float_of_len (length text_a `max` length text_b) <? 0.6)%float
  && (0.85 <? ratio text_a text_b)%float.

Definition score (text_a text_b : str) : float :=
  round1 (ratio text_a text_b * 100)%float.

(** What each file reports for a pair that passes the test. *)
Definition apa_report (ref_a ref_b : str * str) : option APA.duplicate :=
  if similar ref_a.2 ref_b.2 then
    Some (APA.Duplicate ref_b.1 (take 100 ref_b.2) ref_a.1
                        (score ref_a.2 ref_b.2))
  else None.

Definition numeric_report (ref_a ref_b : Numeric.processed_ref)
  : option Numeric.duplicate :=
  if similar (Numeric.pr_text ref_a) (Numeric.pr_text ref_b) then
    Some (Numeric.Duplicate (Numeric.pr_id ref_b)
            (take 100 (Numeric.pr_text ref_b) ++ lit "...")
            (Numeric.pr_id ref_a)
            (score (Numeric.pr_text ref_a) (Numeric.pr_text ref_b)))
  else None.

End Duplicates.

Section Diagnosis.
Context `{Unicode} `{Difflib}.

(** The citations the matcher left unresolved, in the order of the main
    loop. *)
Definition unresolved (m : APA.matches) (citations : dict APA.citation)
  : dict APA.citation :=
  filter (λ kc, kc.1 ∉ APA.matched_citations m) citations.

(** "a reference ... whose normalized author (year-independent) equals the
    citation's" *)
Definition same_author (cite_author : str) (ref_data : APA.reference)
  : Prop :=
  APA.author_key (APA.rf_author ref_data) = APA.author_key cite_author.

(** "an edit-similarity ratio between the citation author and [a]
    reference author": the program takes it on the two authors normalized
    for comparison. *)
Definition similarity (cite_author : str) (ref_data : APA.reference)
  : float :=
  ratio (APA.normalize_text_for_comparison cite_author)
        (APA.normalize_text_for_comparison (APA.rf_author ref_data)).

(** What a diagnosis says about a citation and the bibliography. *)
Definition diagnosed (cite_author cite_year : str)
    (refs : dict APA.reference) (d : APA.diagnosis) : Prop :=
  match d with
  | APA.YearMismatch ref_key ref_data =>
      ∃ earlier later,
        refs = earlier ++ (ref_key, ref_data) :: later
        ∧ Forall (λ kd, ¬ same_author cite_author kd.2) earlier
        ∧ same_author cite_author ref_data
        ∧ APA.rf_year ref_data ≠ cite_year
  | APA.SpellingMismatch ref_key =>
      Forall (λ kd, ¬ same_author cite_author kd.2) refs
      ∧ ∃ ref_data,
          dict_get ref_key refs = Some ref_data
          ∧ (0.8 <? similarity cite_author ref_data)%float = true
          ∧ Forall (λ kd, (similarity cite_author ref_data
                           <? similarity cite_author kd.2)%float = false) refs
  | APA.MissingReference =>
      Forall (λ kd, ¬ same_author cite_author kd.2) refs
      ∧ Forall (λ kd, (0.8 <? similarity cite_author kd.2)%float = false) refs
  end.

(** The entry each diagnosis adds to its list. *)
Definition year_entry (locations : dict (list nat))
    (refs : dict APA.reference) (kc : str * APA.citation)
  : option APA.year_mismatch :=
  match APA.diagnose (strip (APA.c_author kc.2)) refs with
  | APA.YearMismatch ref_key ref_data =>
      Some (APA.YearMismatchEntry (APA.c_display kc.2) (APA.c_year kc.2)
              (APA.rf_year ref_data) ref_key
              (default [] (dict_get kc.1 locations)))
  | _ => None
  end.

Definition spelling_entry (locations : dict (list nat))
    (refs : dict APA.reference) (kc : str * APA.citation)
  : option APA.spelling_mismatch :=
  match APA.diagnose (strip (APA.c_author kc.2)) refs with
  | APA.SpellingMismatch ref_key =>
      ref_data ← dict_get ref_key refs;
      Some (APA.SpellingMismatchEntry (APA.c_display kc.2)
              (strip (APA.c_author kc.2)) (APA.rf_author ref_data) ref_key
              (default [] (dict_get kc.1 locations)))
  | _ => None
  end.

Definition missing_entry (locations : dict (list nat))
    (refs : dict APA.reference) (kc : str * APA.citation)
  : option APA.missing_reference :=
  match APA.diagnose (strip (APA.c_author kc.2)) refs with
  | APA.MissingReference =>
      Some (APA.MissingReferenceEntry (APA.c_display kc.2)
              (default [] (dict_get kc.1 locations)))
  | _ => None
  end.

(** An author that has no word once normalized for comparison. *)
Definition blank_author (a : str) : Prop :=
  split_ws (APA.normalize_text_for_comparison a) = [].

(** A dictionary of citations or references is keyed when each key is
    the normalized key of its entry. *)
Definition keyed {V} (author year : V → str) (d : dict V) : Prop :=
  Forall (λ kv, kv.1 = APA.normalize_citation_key (author kv.2) (year kv.2)) d.

End Diagnosis.

Section Limits.
Context `{Bounded.Interpreter}.

(** A number the interpreter converts to text and back: it has no more
    digits than the limit. *)
Definition printable (n : Z) : Prop :=
  Bounded.exceeds_limit (length (digits (Z.to_N (Z.abs n)))) = false.

(** A run [start..end] of consecutive numbers that the interpreter writes
    and reads back: its ends are printable, and if it is written as a
    range, the range is no longer than [sys.maxsize]. *)
Definition readable (r : Z * Z) : Prop :=
  0 ≤ r.1 ≤ r.2 ∧ printable r.1 ∧ printable r.2
  ∧ (3 ≤ r.2 + 1 - r.1 → r.2 + 1 - r.1 ≤ Bounded.maxsize).

End Limits.

(** A run the rewriting loop of [renumber] passes over: its text has
    none of "^", "[" and "(", and it is not a citation run. *)
Definition plain_run `{Unicode} (r : run) : Prop :=
  Forall (λ c, (c =? 94)%N || (c =? 91)%N || (c =? 40)%N = false) (r_text r)
  ∧ is_citation_run r = false.

Definition plain_paragraph `{Unicode} (para : paragraph) : Prop :=
  Forall plain_run (p_runs para).

(** What the rewriting loop makes of a child of the body, as far as the
    bibliography is concerned: a paragraph stays a paragraph of the same
    style, and is the same paragraph if it is plain. *)
Definition same_entry `{Unicode} (b b1 : block) : Prop :=
  match b, b1 with
  | BPara p, BPara p1 =>
      p_style p1 = p_style p ∧ (plain_paragraph p → p1 = p)
  | BTable _, BTable _ => True
  | BOther, BOther => True
  | _, _ => False
  end.

(** The text kept for a reference of the name-year file: its paragraph,
    stripped, cut at 150 characters, with "..." where something was cut
    off. *)
Definition stored_text (para_stripped : str) : str :=
  take 150 para_stripped
  ++ (if (150 <? length para_stripped)%nat then lit "..." else []).

(** The discovery state is well formed when [appearance_order] lists
    the first appearances of [all_cited_ids] and [seen] is its set. *)
Definition wf (st : cited) : Prop :=
  appearance_order st = first_appearances (all_cited_ids st)
  ∧ seen st = list_to_set (appearance_order st).

(** The entry a citation with warnings adds to the format errors. *)
Definition format_entry (locations : dict (list nat))
    (kc : str * APA.citation) : option APA.format_error :=
  if is_empty (APA.c_warnings kc.2) then None
  else Some (APA.FormatError (APA.c_display kc.2) (APA.c_warnings kc.2)
               (default [] (dict_get kc.1 locations))).

(** A run of a paragraph, given with the positions of its text, overlaps
    the text between two positions. *)
Definition overlaps (start_pos end_pos : nat) (e : nat * nat * Docx.run)
  : Prop :=
  (e.1.1 < end_pos)%nat ∧ (start_pos < e.1.2)%nat.

(** The joint text of some runs. *)
Definition texts (runs : list Docx.run) : str :=
  concat (map Docx.r_text runs).

(** A discovery state that is well formed and holds no negative id. *)
Definition nonneg_state (st : cited) : Prop :=
  wf st ∧ Forall (λ n, 0 ≤ n) (all_cited_ids st).

(** The state of the citation scan before paragraph [i] (from 0): the two
    dictionaries have the same keys, each once, and every list of
    locations is non-empty and holds numbers of paragraphs already
    read. *)
Definition located (i : nat) (acc : dict APA.citation * dict (list nat))
  : Prop :=
  acc.1.*1 = acc.2.*1
  ∧ NoDup acc.1.*1
  ∧ Forall (λ kl : str * list nat,
              kl.2 ≠ [] ∧ Forall (λ n, (1 ≤ n ≤ i)%nat) kl.2) acc.2.

End Spec.

(* ===================================================================== *)
(** * Instances and documents for the examples                            *)
(* ===================================================================== *)

Module Examples.
Import Py Docx Numeric APA.

(** The Basic Latin block alone: no further digit or letter, no case
    outside ASCII. *)
Definition basic_latin : Unicode :=
  {| uni_decimal := λ _, None; uni_alnum := λ _, false; uni_lower := λ s, s |}.

(** The crudest similarity measure: 1 for equal texts, 0 otherwise, for
    all three of difflib's ratios. *)
Definition same_text (a b : str) : float :=
  if str_eqb a b then 1%float else 0%float.

Definition exact_difflib : Difflib :=
  {| ratio := same_text; quick_ratio := same_text;
     real_quick_ratio := same_text |}.

Definition no_rounding : Rounding := {| round1 := λ x, x |}.

(** A parser that finds nothing. *)
Definition silent_parser : Parser :=
  {| parse_citation := λ _, []; parse_reference := λ _, None |}.

Definition plain (text : String.string) : run := Run (lit text) None None.

Definition bib_paragraph (number rest : String.string) : block :=
  BPara (Paragraph (Some (lit "REF-N"))
           [Run (lit number) (Some (lit "bib_number")) None; plain rest]).

(** A text with the citations 5, 2, 2, 9 and the bibliography 2, 5, 9. *)
Definition out_of_order : document :=
  Document
    [ BPara (Paragraph None [plain "As shown ^5, 2^ and later ^2, 9^."]);
      bib_paragraph "2" " Jones, M. Second.";
      bib_paragraph "5" " Smith, J. First.";
      bib_paragraph "9" " Brown, K. Third." ]
    [].

(** The same with a fourth entry, 7, that nothing cites. *)
Definition with_unused : document :=
  Document (body out_of_order ++ [bib_paragraph "7" " Grey, L. Fourth."]) [].

(** CPython on a 64-bit platform, with the limit on digits it starts
    with. *)
Definition cpython : Bounded.Interpreter :=
  {| Bounded.maxsize := 2 ^ 63 - 1; Bounded.int_max_str_digits := 4300 |}.

(** A citation of the numbers from 1 to 10^20 - 1, and no bibliography. *)
Definition wide_range : document :=
  Document [BPara (Paragraph None [plain "See ^1-99999999999999999999^."])]
           [].


(** A bibliography whose second entry repeats the first. *)
Definition three_entries : list Numeric.ref_object :=
  (Numeric.get_references_in_bibliography (H:=basic_latin)
     (Document [ bib_paragraph "1" " Smith, J. First.";
                 bib_paragraph "2" " Smith, J. First.";
                 bib_paragraph "3" " Brown, K. Third." ] [])).2.

(** A citation and a bibliography entry of the year 2020. *)
Definition cited (author : String.string) : citation :=
  Citation (lit "(" ++ lit author ++ lit ", 2020)") (lit author) (lit "2020")
           (lit "parenthetical") [] [].

Definition listed (author full_author : String.string) : reference :=
  Reference (lit author ++ lit " (2020)") (lit author) (lit "2020")
            (lit full_author) [].

(** A parser for paragraphs of the form author;year: such a paragraph is
    one narrative citation before the reference list, and one reference
    inside it. *)
Definition field_parser : Parser :=
  {| parse_citation := λ para,
       match split_on 59 para with
       | [author; year] =>
           [ParsedCitation author year (lit "narrative") [] para]
       | _ => []
       end;
     parse_reference := λ para,
       match split_on 59 para with
       | [author; year] => Some (ParsedReference author year author [])
       | _ => None
       end |}.

(** A parser for references of the form "authors (year). rest", with no
    other parenthesis. *)
Definition year_parser : Parser :=
  {| parse_citation := λ _, [];
     parse_reference := λ para,
       match split_on 40 para with
       | [authors; rest] =>
           match split_on 41 rest with
           | year :: _ =>
               Some (ParsedReference (strip authors) year (strip authors) [])
           | [] => None
           end
       | _ => None
       end |}.

(** Two works that share their first fourteen authors, 154 characters,
    and nothing after them. *)
Definition fourteen_authors : str :=
  lit "Abbott, A., Baker, B., Clark, C., Davis, D., Evans, E., Frank, F., Green, G., Hayes, H., Irwin, I., Jones, J., Klein, K., Lewis, L., Mason, M., Nolan, N., ".

Definition sea_currents : str :=
  fourteen_authors
  ++ lit "Owens, O., & Price, P. (2020). Deep-sea currents and how ships measure them: a survey of instruments, methods and records from the first voyages to the present day. Journal of the Sea, 12, 1-20.".

Definition printing_press : str :=
  fourteen_authors
  ++ lit "Quinn, Q., & Reade, R. (2021). The printing press in Venice and its first makers, with an account of the paper trade, the type founders and the guilds of the city. Book History, 7, 33-58.".

Definition same_start : list str :=
  [lit "<ref-open>"; sea_currents; printing_press; lit "<ref-close>"].

(** Three citations, none of which has its reference: one differs from a
    reference in the year, one in the spelling of "and", one in
    everything. *)
Definition three_diagnoses : list str :=
  [ lit "Smith;2020"; lit "Smith and Jones;2020"; lit "Brown;2001";
    lit "<ref-open>"; lit "Smith;2021"; lit "Smith & Jones;2019";
    lit "<ref-close>" ].

End Examples.

(* ===================================================================== *)
(** * Properties of the runtime model                                     *)
(* ===================================================================== *)

Module PyFacts.
Import Py Spec.

Lemma last_or_cons p c u : last_or p (c :: u) = last_or (Some c) u.
Proof.
  revert p c. induction u as [|d u IH]; intros p c; [done|].
  rewrite (IH (Some c) d), <- (IH p d). done.
Qed.

Lemma last_or_app p u w : last_or p (u ++ w) = last_or (last_or p u) w.
Proof.
  revert p. induction u as [|c u IH]; intros p; [done|].
  by rewrite <- app_comm_cons, !last_or_cons, IH.
Qed.

Lemma consumed_app p p' w v cs cs' :
  consumed (MState p (w ++ v) cs) (MState p' v cs') = w.
Proof.
  unfold consumed. simpl. rewrite length_app.
  replace (length w + length v - length v)%nat with (length w) by lia.
  by rewrite take_app_length.
Qed.

Lemma cls_stops {A} p (k : mstate → option A) pv v cs :
  stops p v → rx (Cls p) k (MState pv v cs) = None.
Proof. destruct v; simpl; [done|]. by intros ->. Qed.

Lemma cls_reads {A} p (k : mstate → option A) pv c v cs :
  p c = true →
  rx (Cls p) k (MState pv (c :: v) cs) = k (MState (Some c) v cs).
Proof. simpl. by intros ->. Qed.

Lemma rx_seq {A} r1 r2 (k : mstate → option A) st :
  rx (Seq r1 r2) k st = rx r1 (rx r2 k) st.
Proof. done. Qed.

Lemma rx_star {A} g r (k : mstate → option A) st :
  rx (Star g r) k st = star_loop (rx r) g k (length (rest st)) st.
Proof. done. Qed.

Lemma rx_grp {A} i r (k : mstate → option A) st :
  rx (Grp i r) k st =
  rx r (λ st', k (MState (prev st') (rest st')
                    ((i, consumed st st') :: caps st'))) st.
Proof. done. Qed.

Lemma rx_alt {A} r1 r2 (k : mstate → option A) st :
  rx (Alt r1 r2) k st =
  match rx r1 k st with Some x => Some x | None => rx r2 k st end.
Proof. done. Qed.

Lemma rx_wordb {A} w (k : mstate → option A) st :
  rx (WordB w) k st =
  if xorb (match prev st with Some c => w c | None => false end)
          (match rest st with c :: _ => w c | [] => false end)
  then k st else None.
Proof. done. Qed.

Section Repetition.
Context {A : Type} (p : N → bool) (k : mstate → option A).

(** A greedy repetition of a class reads the whole run of the class
    when the continuation accepts there. *)
Lemma star_cls_accepts u v x : ∀ pv cs n,
  Forall (λ c, p c = true) u → stops p v →
  (length (u ++ v) ≤ n)%nat →
  k (MState (last_or pv u) v cs) = Some x →
  star_loop (rx (Cls p)) true k n (MState pv (u ++ v) cs) = Some x.
Proof.
  induction u as [|c u IH]; intros pv cs n Hu Hv Hn Hk.
  - destruct n; cbn [star_loop app]; [done|].
    rewrite (cls_stops p) by done. done.
  - apply Forall_cons in Hu as [Hc Hu].
    destruct n as [|n]; [simpl in Hn; lia|].
    cbn [star_loop app]. rewrite (cls_reads p) by done. cbn [rest length].
    destruct (Nat.ltb_spec (length (u ++ v)) (S (length (u ++ v))));
      [|lia].
    simpl in Hn.
    rewrite (IH (Some c) cs n); [done|done|done|lia|].
    by rewrite <- (last_or_cons pv).
Qed.

(** It fails when the continuation rejects every split of the run. *)
Lemma star_cls_rejects u v : ∀ pv cs n,
  Forall (λ c, p c = true) u → stops p v →
  (length (u ++ v) ≤ n)%nat →
  (∀ u1 u2, u = u1 ++ u2 → k (MState (last_or pv u1) (u2 ++ v) cs) = None) →
  star_loop (rx (Cls p)) true k n (MState pv (u ++ v) cs) = None.
Proof.
  induction u as [|c u IH]; intros pv cs n Hu Hv Hn Hk.
  - pose proof (Hk [] [] eq_refl) as Hk0.
    destruct n; cbn [star_loop app]; [done|].
    rewrite (cls_stops p) by done. done.
  - apply Forall_cons in Hu as [Hc Hu].
    destruct n as [|n]; [simpl in Hn; lia|].
    cbn [star_loop app]. rewrite (cls_reads p) by done. cbn [rest length].
    destruct (Nat.ltb_spec (length (u ++ v)) (S (length (u ++ v))));
      [|lia].
    simpl in Hn.
    rewrite (IH (Some c) cs n); [|done|done|lia|].
    + apply (Hk [] (c :: u) eq_refl).
    + intros u1 u2 ->. rewrite <- (last_or_cons pv).
      by apply (Hk (c :: u1) u2).
Qed.

Lemma star_cls_none pv v cs n :
  stops p v →
  star_loop (rx (Cls p)) true k n (MState pv v cs) = k (MState pv v cs).
Proof.
  intros Hv. destruct n; cbn [star_loop]; [done|]. by rewrite (cls_stops p).
Qed.

Lemma plus_cls_accepts w v x pv cs :
  w ≠ [] → Forall (λ c, p c = true) w → stops p v →
  k (MState (last_or pv w) v cs) = Some x →
  rx (Plus (Cls p)) k (MState pv (w ++ v) cs) = Some x.
Proof.
  destruct w as [|c u]; [done|]. intros _ [Hc Hu]%Forall_cons Hv Hk.
  unfold Plus. rewrite rx_seq. cbn [app]. rewrite (cls_reads p), rx_star by done.
  apply star_cls_accepts; [done..|].
  by rewrite <- (last_or_cons pv).
Qed.

Lemma plus_cls_rejects w v pv cs :
  Forall (λ c, p c = true) w → stops p v →
  (∀ u1 u2, w = u1 ++ u2 → u1 ≠ [] →
            k (MState (last_or pv u1) (u2 ++ v) cs) = None) →
  rx (Plus (Cls p)) k (MState pv (w ++ v) cs) = None.
Proof.
  destruct w as [|c u].
  { intros _ Hv _. unfold Plus. rewrite rx_seq. by apply cls_stops. }
  intros [Hc Hu]%Forall_cons Hv Hk.
  unfold Plus. rewrite rx_seq. cbn [app]. rewrite (cls_reads p), rx_star by done.
  apply star_cls_rejects; [done..|].
  intros u1 u2 ->. rewrite <- (last_or_cons pv). by apply (Hk (c :: u1) u2).
Qed.

End Repetition.

Lemma join_cons sep (part : list N) parts :
  parts ≠ [] → join sep (part :: parts) = part ++ sep ++ join sep parts.
Proof. by destruct parts. Qed.

(** ** The scan behind [findall] and [sub] *)

Lemma scan_skip r u v p :
  scan r (length u) p (u ++ v) = scan r 0 (last_or p u) v.
Proof.
  revert p. induction u as [|c u IH]; intros p; [done|].
  simpl. by rewrite IH, last_or_cons.
Qed.

Lemma scan_matched r p m t st' :
  m ≠ [] → exec r p (m ++ t) = Some st' → rest st' = t →
  scan r 0 p (m ++ t) = Matched m st' :: scan r 0 (last_or p m) t.
Proof.
  destruct m as [|c m]; [done|]. intros _ Hexec Hrest.
  simpl in *. rewrite Hexec, Hrest, length_app.
  replace (S (length m + length t) - length t)%nat with (S (length m))
    by lia.
  by rewrite take_app_length, scan_skip, last_or_cons.
Qed.

Lemma scan_unmatched r p c t :
  exec r p (c :: t) = None →
  scan r 0 p (c :: t) = Unmatched c :: scan r 0 (Some c) t.
Proof. intros Hexec. simpl. by rewrite Hexec. Qed.

(** ** The order of floats *)

Lemma SFcompare_chain x y z :
  SFltb y z = true → SFleb x y = true → SFltb z x = false.
Proof.
  unfold SFltb, SFleb.
  destruct x as [sx|sx| |sx mx ex], y as [sy|sy| |sy my ey],
           z as [sz|sz| |sz mz ez]; simpl; try discriminate; try reflexivity;
    repeat match goal with s : bool |- _ => destruct s end;
    simpl; try discriminate; try reflexivity;
    rewrite ?Pos.compare_cont_spec; unfold Pos.switch_Eq;
    destruct (Z.compare_spec ey ez), (Z.compare_spec ex ey),
             (Z.compare_spec ez ex);
    simpl; try discriminate; try reflexivity; try lia;
    subst;
    destruct (Pos.compare_spec my mz), (Pos.compare_spec mx my),
             (Pos.compare_spec mz mx);
    simpl; try discriminate; try reflexivity; try lia.
Qed.

(** Below an upper bound that is below a threshold, nothing exceeds the
    threshold. *)
Lemma below_upper_bound (r q c : float) :
  (q <? c)%float = true → (r <=? q)%float = true → (c <? r)%float = false.
Proof. rewrite !ltb_spec, leb_spec. apply SFcompare_chain. Qed.

Lemma SFltb_trans x y z :
  SFltb x y = true → SFltb y z = true → SFltb x z = true.
Proof.
  unfold SFltb.
  destruct x as [sx|sx| |sx mx ex], y as [sy|sy| |sy my ey],
           z as [sz|sz| |sz mz ez]; simpl; try discriminate; try reflexivity;
    repeat match goal with s : bool |- _ => destruct s end;
    simpl; try discriminate; try reflexivity;
    rewrite ?Pos.compare_cont_spec; unfold Pos.switch_Eq;
    destruct (Z.compare_spec ex ey), (Z.compare_spec ey ez),
             (Z.compare_spec ex ez);
    simpl; try discriminate; try reflexivity; try lia;
    subst;
    destruct (Pos.compare_spec mx my), (Pos.compare_spec my mz),
             (Pos.compare_spec mx mz);
    simpl; try discriminate; try reflexivity; try lia.
Qed.

Lemma ltb_trans (x y z : float) :
  (x <? y)%float = true → (y <? z)%float = true → (x <? z)%float = true.
Proof. rewrite !ltb_spec. apply SFltb_trans. Qed.

Lemma ltb_irrefl (x : float) : (x <? x)%float = false.
Proof.
  rewrite ltb_spec. unfold SFltb.
  destruct (Prim2SF x) as [s|s| |s m e]; simpl;
    [by destruct s|by destruct s|done|].
  destruct s; by rewrite Z.compare_refl, ?Pos.compare_cont_refl, ?Pos.compare_refl.
Qed.

(** ** Loops whose body does not raise *)

Lemma mapM_pure {A B} (f : A → outcome B) (g : A → B) l :
  (∀ x, f x = Ok (g x)) → mapM f l = Ok (map g l).
Proof.
  intros Hf. induction l as [|x l IH]; simpl; [done|].
  by rewrite Hf, IH.
Qed.

Lemma mapM_ext {A B} (f g : A → outcome B) l :
  (∀ x, f x = g x) → mapM f l = mapM g l.
Proof.
  intros Hfg. induction l as [|x l IH]; simpl; [done|]. by rewrite Hfg, IH.
Qed.

Lemma truediv_max a b :
  b ≠ 0%nat →
  truediv (a `min` b) (a `max` b)
  = Ok (float_of_len (a `min` b) / float_of_len (a `max` b))%float.
Proof.
  intros Hb. unfold truediv.
  destruct (a `max` b)%nat eqn:Hmax; [lia|done].
Qed.

Lemma omap_map {A B C} (g : B → option C) (f : A → B) l :
  omap g (map f l) = omap (λ x, g (f x)) l.
Proof.
  induction l as [|x l IH]; [done|].
  simpl. fold (omap g (map f l)). fold (omap (λ x, g (f x)) l).
  by rewrite IH.
Qed.

Lemma omap_none {A B} (f : A → option B) l :
  (∀ x, f x = None) → omap f l = [].
Proof.
  intros Hf. induction l as [|x l IH]; [done|].
  simpl. fold (omap f l). by rewrite Hf.
Qed.

(** ** Pairs *)

Lemma elem_of_pairs {A} (l : list A) a b :
  (a, b) ∈ pairs l ↔
  ∃ i j, (i < j)%nat ∧ l !! i = Some a ∧ l !! j = Some b.
Proof.
  induction l as [|x l IH]; simpl.
  { split; [by intros ?%elem_of_nil|]. by intros (i & j & _ & ? & _). }
  rewrite elem_of_app, list_elem_of_fmap, IH. split.
  - intros [(y & [= -> ->] & Hy)|(i & j & Hij & Hi & Hj)].
    + apply list_elem_of_lookup in Hy as [j Hj].
      exists 0%nat, (S j). split_and!; [lia|done..].
    + exists (S i), (S j). split_and!; [lia|done..].
  - intros (i & j & Hij & Hi & Hj).
    destruct j as [|j]; [lia|]. destruct i as [|i]; simpl in *.
    + left. exists b. split; [congruence|].
      apply list_elem_of_lookup. eauto.
    + right. exists i, j. split_and!; [lia|done..].
Qed.

(** ** Stripping and filtering *)

Lemma lstrip_elem_of s c : c ∈ lstrip s → c ∈ s.
Proof.
  induction s as [|d s IH]; simpl; [done|].
  destruct (isspace d); set_solver.
Qed.

Lemma rstrip_elem_of s c : c ∈ rstrip s → c ∈ s.
Proof.
  revert c. induction s as [|d s IH]; intros c; simpl; [done|].
  destruct (rstrip s) as [|e r].
  - destruct (isspace d); set_solver.
  - set_solver.
Qed.

Lemma strip_elem_of s c : c ∈ strip s → c ∈ s.
Proof. by intros ?%rstrip_elem_of%lstrip_elem_of. Qed.

Lemma lstrip_rstrip s : lstrip (rstrip s) = rstrip (lstrip s).
Proof.
  induction s as [|c s IH]; [done|].
  cbn [lstrip rstrip]. destruct (isspace c) eqn:Hc.
  - rewrite <- IH. destruct (rstrip s) as [|e r]; [done|].
    cbn [lstrip]. by rewrite Hc.
  - cbn [rstrip]. destruct (rstrip s) as [|e r]; cbn [lstrip]; by rewrite Hc.
Qed.

Section Filter.
Context (drop : N → bool).
Hypothesis keep_space : ∀ c, isspace c = true → drop c = false.

Lemma lstrip_filter s :
  lstrip (filter (λ c, drop c = false) (lstrip s))
  = lstrip (filter (λ c, drop c = false) s).
Proof using keep_space.
  induction s as [|c s IH]; [done|].
  cbn [lstrip]. destruct (isspace c) eqn:Hc; [|done].
  rewrite IH, (filter_cons_True _ c) by (by apply keep_space).
  cbn [lstrip]. by rewrite Hc.
Qed.

Lemma rstrip_filter s :
  rstrip (filter (λ c, drop c = false) (rstrip s))
  = rstrip (filter (λ c, drop c = false) s).
Proof using keep_space.
  induction s as [|c s IH]; [done|].
  cbn [rstrip]. rewrite (filter_cons _ c s).
  destruct (rstrip s) as [|e r] eqn:Hr.
  - rewrite filter_nil in IH. cbn [rstrip] in IH.
    destruct (isspace c) eqn:Hc.
    + rewrite decide_True by (by apply keep_space).
      cbn [rstrip]. by rewrite <- IH, Hc.
    + rewrite (filter_cons _ c []), filter_nil. case_decide.
      * cbn [rstrip]. by rewrite <- IH, Hc.
      * done.
  - rewrite (filter_cons _ c (e :: r)). case_decide; [|done].
    cbn [rstrip]. by rewrite IH.
Qed.

Lemma strip_filter s :
  strip (filter (λ c, drop c = false) (strip s))
  = strip (filter (λ c, drop c = false) s).
Proof using keep_space.
  unfold strip.
  rewrite <- (lstrip_rstrip (filter _ (rstrip (lstrip s)))), rstrip_filter.
  by rewrite lstrip_rstrip, lstrip_filter.
Qed.

End Filter.

(** Removing the characters of a class is filtering. *)
Lemma sub_class p s :
  sub (Cls p) [] s = filter (λ c, p c = false) s.
Proof.
  unfold sub. generalize (@None N).
  induction s as [|c s IH]; intros pv; [done|].
  cbn [scan]. unfold exec at 1. cbn [rx rest caps].
  rewrite (filter_cons _ c s). destruct (p c) eqn:Hc.
  - cbn [rest length]. rewrite Nat.sub_succ_l, Nat.sub_diag by lia.
    rewrite decide_False by done. cbn. apply IH.
  - rewrite decide_True by done. cbn. f_equal. apply IH.
Qed.

(** Every character of [sub r repl s] comes from [s] or from [repl]. *)
Lemma scan_unmatched_elem_of r s : ∀ skip pv c,
  Unmatched c ∈ scan r skip pv s → c ∈ s.
Proof.
  induction s as [|d s IH]; intros skip pv c; cbn [scan].
  - destruct skip; [|by intros ?%elem_of_nil].
    destruct (exec r pv []); [|by intros ?%elem_of_nil].
    by intros [=]%list_elem_of_singleton.
  - destruct skip as [|skip]; [|intros ?%IH; set_solver].
    destruct (exec r pv (d :: s)) as [st'|].
    + destruct (_ - _)%nat.
      * rewrite !elem_of_cons. intros [[=]|[[= ->]|?%IH]]; set_solver.
      * rewrite elem_of_cons. intros [[=]|?%IH]. set_solver.
    + rewrite elem_of_cons. intros [[= ->]|?%IH]; set_solver.
Qed.

Lemma sub_elem_of r repl s c : c ∈ sub r repl s → c ∈ s ∨ c ∈ repl.
Proof.
  unfold sub. rewrite list_elem_of_In, in_concat.
  intros (l & (pc & <- & Hpc)%in_map_iff & Hc).
  apply list_elem_of_In in Hc, Hpc.
  destruct pc as [d|text st]; [|by right].
  apply list_elem_of_singleton in Hc as ->. left.
  by eapply scan_unmatched_elem_of.
Qed.

Lemma split_on_app c x y : c ∉ x → hd [] (split_on c (x ++ c :: y)) = x.
Proof.
  induction x as [|d x IH]; intros Hc; simpl.
  - by rewrite N.eqb_refl.
  - destruct (N.eqb_spec d c) as [->|Hne]; [set_solver|].
    rewrite <- IH at 2 by set_solver.
    by destruct (split_on c (x ++ c :: y)).
Qed.

Lemma omap_cons {A B} (f : A → option B) x l :
  omap f (x :: l) = option_list (f x) ++ omap f l.
Proof. cbn. by destruct (f x). Qed.

(** ** Dictionaries *)

Lemma dict_get_Some {V} k (d : dict V) v : dict_get k d = Some v → (k, v) ∈ d.
Proof.
  induction d as [|[k' v'] d IH]; simpl; [done|].
  unfold str_eqb. case_bool_decide as Hk.
  - intros [= ->]. subst. left.
  - intros ?%IH. by right.
Qed.

Lemma dict_get_None {V} k (d : dict V) v : dict_get k d = None → (k, v) ∉ d.
Proof.
  induction d as [|[k' v'] d IH]; simpl; [by intros _ ?%elem_of_nil|].
  unfold str_eqb. case_bool_decide as Hk; [done|].
  intros Hd [[= -> ->]|?]%elem_of_cons; [done|]. by apply IH.
Qed.

Lemma dict_get_NoDup {V} k (d : dict V) v :
  NoDup d.*1 → (k, v) ∈ d → dict_get k d = Some v.
Proof.
  induction d as [|[k' v'] d IH]; simpl; [by intros _ ?%elem_of_nil|].
  intros [Hk' Hd]%NoDup_cons [[= -> ->]|Hin]%elem_of_cons.
  - unfold str_eqb. by rewrite bool_decide_eq_true_2.
  - unfold str_eqb. case_bool_decide as Hk; [|by apply IH].
    subst. destruct Hk'. apply list_elem_of_fmap. by exists (k', v).
Qed.

Lemma dict_set_elem_of {V} k v (d : dict V) kv :
  kv ∈ dict_set k v d → kv = (k, v) ∨ kv ∈ d.
Proof.
  induction d as [|[k' v'] d IH]; simpl.
  - intros ?%list_elem_of_singleton. by left.
  - unfold str_eqb. case_bool_decide; set_solver.
Qed.

Lemma dict_set_fresh {V} k v (d : dict V) :
  dict_get k d = None → dict_set k v d = d ++ [(k, v)].
Proof.
  induction d as [|[k' v'] d IH]; simpl; [done|].
  unfold str_eqb. case_bool_decide; [done|]. by intros ->%IH.
Qed.

(** ** Decimal numerals *)

Lemma is_digit_09_bounds c : is_digit_09 c = true ↔ (48 ≤ c ≤ 57)%N.
Proof.
  unfold is_digit_09, in_range.
  rewrite andb_true_iff, !N.leb_le. done.
Qed.

Lemma value_snoc s c : value (s ++ [c]) = (10 * value s + (c - 48))%N.
Proof. unfold value. by rewrite fold_left_app. Qed.

Lemma digits_go_spec fuel : ∀ n acc,
  fuel ≠ 0%nat →
  (n < 10 ^ N.of_nat fuel)%N →
  ∃ ds, digits_go fuel n acc = ds ++ acc
        ∧ ds ≠ []
        ∧ Forall (λ c, is_digit_09 c = true) ds
        ∧ value ds = n.
Proof.
  induction fuel as [|fuel IH]; intros n acc Hfuel Hn; [done|].
  simpl. destruct (N.ltb_spec n 10) as [Hlt|Hge].
  - exists [(48 + n mod 10)%N]. split_and!; [done|done|..].
    + constructor; [|done]. apply is_digit_09_bounds.
      rewrite N.mod_small by done. lia.
    + unfold value. simpl. rewrite N.mod_small by done. lia.
  - rewrite Nat2N.inj_succ, N.pow_succ_r' in Hn.
    destruct (IH (n / 10)%N ((48 + n mod 10)%N :: acc))
      as (ds & -> & Hne & Hds & Hval).
    { intros ->. simpl in Hn. lia. }
    { apply N.Div0.div_lt_upper_bound. lia. }
    exists (ds ++ [(48 + n mod 10)%N]). split_and!.
    + by rewrite <- app_assoc.
    + by destruct ds.
    + apply Forall_app. split; [done|]. constructor; [|done].
      apply is_digit_09_bounds.
      assert (n mod 10 < 10)%N by (by apply N.mod_upper_bound).
      generalize dependent (n mod 10)%N. intros. lia.
    + rewrite value_snoc, Hval.
      pose proof (N.div_mod' n 10) as Hdm.
      assert (n mod 10 < 10)%N by (by apply N.mod_upper_bound).
      generalize dependent (n mod 10)%N.
      generalize dependent (n / 10)%N. intros. lia.
Qed.

Lemma digits_spec n :
  digits n ≠ []
  ∧ Forall (λ c, is_digit_09 c = true) (digits n)
  ∧ value (digits n) = n.
Proof.
  unfold digits.
  destruct (digits_go_spec (S (N.to_nat (N.log2 n))) n []) as (ds & -> & ?).
  - done.
  - rewrite Nat2N.inj_succ, N2Nat.id.
    destruct (decide (n = 0%N)) as [->|Hpos]; [done|].
    eapply N.lt_le_trans; [apply N.log2_spec; lia|].
    apply N.pow_le_mono_l. lia.
  - by rewrite app_nil_r.
Qed.

Section Digits.
Context `{Unicode}.

Lemma digit_09_isdigit c : is_digit_09 c = true → isdigit c = true.
Proof.
  intros Hc. unfold isdigit, decimal. rewrite Hc.
  apply is_digit_09_bounds in Hc.
  unfold is_ascii. destruct (N.ltb_spec c 128); [|lia].
  by apply bool_decide_eq_true_2.
Qed.

Lemma digit_09_decimal c :
  is_digit_09 c = true → decimal c = Some (c - 48)%N.
Proof.
  intros Hc. unfold decimal. rewrite Hc.
  apply is_digit_09_bounds in Hc.
  unfold is_ascii. by destruct (N.ltb_spec c 128); [|lia].
Qed.

Lemma digit_09_not_space c : is_digit_09 c = true → isspace c = false.
Proof.
  intros Hc%is_digit_09_bounds. unfold isspace, in_range.
  repeat (apply orb_false_intro);
    rewrite ?andb_false_iff, ?N.leb_gt, ?N.eqb_neq; lia.
Qed.

(** [int(str(n)) == n] for a natural number. *)
Lemma int_of_digits_09 s :
  Forall (λ c, is_digit_09 c = true) s →
  int_of_digits s = Z.of_N (value s).
Proof.
  intros Hs. unfold int_of_digits, value. f_equal.
  assert (∀ acc,
    fold_left (λ acc c, (10 * acc + default 0 (decimal c))%N) s acc
    = fold_left (λ acc c, (10 * acc + (c - 48))%N) s acc) as Hfold; [|done].
  induction Hs as [|c s Hc _ IH]; intros acc; [done|].
  simpl. by rewrite IH, digit_09_decimal.
Qed.

Lemma int_of_digits_digits n : int_of_digits (digits n) = Z.of_N n.
Proof.
  destruct (digits_spec n) as (_ & Hds & Hval).
  by rewrite int_of_digits_09, Hval.
Qed.

End Digits.

End PyFacts.

(* ===================================================================== *)
(** * Properties of Referencenumvalidation.py                             *)
(* ===================================================================== *)

Module NumericFacts.
Import Py Docx Numeric Spec PyFacts.

Section Facts.
Context `{Unicode} `{Difflib} `{Rounding}.

(** ** Nothing in the validation pass raises *)








Lemma elem_of_sorted_elements (X : gset Z) n :
  n ∈ merge_sort Z.le (elements X) ↔ n ∈ X.
Proof. by rewrite merge_sort_Permutation, elem_of_elements. Qed.

Lemma sorted_elements_nil (X : gset Z) :
  merge_sort Z.le (elements X) = [] ↔ X = ∅.
Proof.
  split.
  - intros Hnil. apply set_eq. intros n.
    rewrite <- elem_of_sorted_elements, Hnil. set_solver.
  - intros ->. by rewrite elements_empty.
Qed.



(** C1.  If the validation pass of [process_document] finds unused
    references (bibliography ids cited nowhere, by
    [unused_references_spec]), [process_document] stops before
    renumbering: it returns the document it was given, unchanged (no
    run rewritten, no paragraph moved or removed), the statistics of
    that pass twice, the empty mapping and the abort status. *)
Theorem C1_unused_references_abort (doc : document) (st : stats) :
  get_validation_stats doc = Ok st →
  unused_references st ≠ [] →
  process_document doc =
    Ok (doc, st, st, ∅,
        lit "Aborted: Document validation failed due to unused references.").
Proof.
  intros Hst Hunused.
  unfold process_document. rewrite Hst. simpl.
  by destruct (unused_references st).
Qed.

(** ** Documents without a bibliography *)

Lemma no_bibliography doc :
  Forall (λ p, style_is (p_style p) "REF-N" = false) (paragraphs doc) →
  get_references_in_bibliography doc = (∅, []).
Proof.
  intros Hno. unfold get_references_in_bibliography.
  assert (omap bib_entry (indexed_paragraphs doc) = []) as ->; [|done].
  unfold paragraphs in Hno. rewrite Forall_fmap in Hno.
  induction Hno as [|[i p] l Hp _ IH]; [done|].
  simpl in *. by rewrite Hp.
Qed.

(** ** Discovery: appearance order *)

Lemma elem_of_first_appearances ids n :
  n ∈ first_appearances ids ↔ n ∈ ids.
Proof.
  induction ids as [|a ids IH]; simpl; [done|].
  rewrite !elem_of_cons, list_elem_of_filter, IH.
  destruct (decide (n = a)); naive_solver.
Qed.

Lemma NoDup_first_appearances ids : NoDup (first_appearances ids).
Proof.
  induction ids as [|a ids IH]; simpl; constructor.
  - rewrite list_elem_of_filter. naive_solver.
  - by apply NoDup_filter.
Qed.

Lemma first_appearances_snoc ids n :
  first_appearances (ids ++ [n]) =
  if bool_decide (n ∈ ids) then first_appearances ids
  else first_appearances ids ++ [n].
Proof.
  induction ids as [|a ids IH]; simpl; [done|].
  rewrite IH. repeat case_bool_decide; try set_solver.
  - rewrite filter_app, filter_cons. case_decide; [set_solver|].
    by rewrite filter_nil, app_nil_r.
  - rewrite filter_app, filter_cons. case_decide; [|set_solver].
    by rewrite filter_nil.
Qed.

Lemma record_loop_spec nums total done order sn :
  order = first_appearances done →
  sn = list_to_set order →
  let st := fold_left
    (λ st n,
       if bool_decide (n ∈ seen st) then st
       else Cited (all_cited_ids st) (appearance_order st ++ [n])
                  ({[n]} ∪ seen st))
    nums (Cited total order sn) in
  all_cited_ids st = total
  ∧ appearance_order st = first_appearances (done ++ nums)
  ∧ seen st = list_to_set (appearance_order st).
Proof.
  revert done order sn.
  induction nums as [|n nums IH]; intros done order sn Hord Hsn; simpl.
  { by rewrite app_nil_r. }
  replace (done ++ n :: nums) with ((done ++ [n]) ++ nums)
    by (by rewrite <- app_assoc).
  case_bool_decide as Hin.
  - apply IH; [|done]. rewrite first_appearances_snoc.
    rewrite bool_decide_eq_true_2; [done|].
    apply elem_of_first_appearances. set_solver.
  - apply IH.
    + rewrite first_appearances_snoc.
      rewrite bool_decide_eq_false_2; [by subst|].
      rewrite <- elem_of_first_appearances. set_solver.
    + rewrite list_to_set_app_L. set_solver.
Qed.

Lemma record_numbers_wf nums st :
  wf st →
  wf (record_numbers nums st)
  ∧ all_cited_ids (record_numbers nums st) = all_cited_ids st ++ nums.
Proof.
  intros [Hord Hsn]. unfold record_numbers, wf.
  destruct (record_loop_spec nums (all_cited_ids st ++ nums)
              (all_cited_ids st) (appearance_order st) (seen st))
    as (Hall & Hord' & Hsn'); [done..|].
  simpl in *. by rewrite Hall.
Qed.

Lemma fold_left_preserves {A B} (P : B → Prop) (f : B → A → B) l b :
  (∀ b x, P b → P (f b x)) → P b → P (fold_left f l b).
Proof. intros Hf. revert b. induction l; simpl; auto. Qed.

Lemma scan_run_wf acc r : wf acc.1 → wf (scan_run acc r).1.
Proof.
  destruct acc as [st current_group]. unfold scan_run. simpl. intros Hwf.
  destruct (is_citation_run r); [done|]. simpl.
  apply fold_left_preserves.
  - intros. by apply record_numbers_wf.
  - destruct current_group; [done|]. by apply record_numbers_wf.
Qed.

Lemma scan_paragraph_wf st para : wf st → wf (scan_paragraph st para).
Proof.
  intros Hwf. unfold scan_paragraph.
  pose proof (fold_left_preserves (λ acc, wf acc.1) scan_run (p_runs para)
                (st, []) scan_run_wf Hwf) as Hfold.
  destruct (fold_left scan_run (p_runs para) (st, [])) as [st' group].
  destruct group; [done|]. by apply record_numbers_wf.
Qed.

Lemma discover_wf doc : wf (discover doc).
Proof.
  unfold discover. apply fold_left_preserves.
  - apply scan_paragraph_wf.
  - done.
Qed.

(** [appearance_order] is the list of first appearances of
    [all_cited_ids]. *)
Lemma appearance_order_spec doc :
  (get_citations_in_text doc).2 =
  first_appearances (get_citations_in_text doc).1.
Proof. apply discover_wf. Qed.

(** ** Validation: the sequence walk *)

Lemma sequence_gaps_snoc order n :
  sequence_gaps (order ++ [n]) =
  sequence_gaps order
  ++ (if bool_decide (n ≠ Z.of_nat (length order + 1))
      then [SequenceIssue (length order + 1) n (length order + 1)]
      else []).
Proof.
  unfold sequence_gaps. rewrite imap_app, omap_app. simpl.
  rewrite Nat.add_0_r. by case_bool_decide.
Qed.

Lemma sequence_walk_invariant ids done pm :
  ∃ pm',
    fold_left sequence_step ids
      (sequence_gaps (first_appearances done), first_appearances done, pm)
    = (sequence_gaps (first_appearances (done ++ ids)),
       first_appearances (done ++ ids), pm').
Proof.
  revert done pm. induction ids as [|n ids IH]; intros done pm; simpl.
  { rewrite app_nil_r. eauto. }
  replace (done ++ n :: ids) with ((done ++ [n]) ++ ids)
    by (by rewrite <- app_assoc).
  destruct (IH (done ++ [n]) pm) as [pm1 IH1].
  destruct (IH (done ++ [n]) (pm `max` n)) as [pm2 IH2].
  rewrite first_appearances_snoc in IH1, IH2.
  rewrite (bool_decide_ext (n ∈ first_appearances done) (n ∈ done))
    by apply elem_of_first_appearances.
  destruct (bool_decide (n ∈ done)); [eauto|].
  rewrite sequence_gaps_snoc in IH2.
  destruct (bool_decide (n ≠ Z.of_nat (length (first_appearances done) + 1)));
    [eauto|]. rewrite app_nil_r in IH2. eauto.
Qed.

Lemma sequence_walk_spec all_cited :
  sequence_walk all_cited = sequence_gaps (first_appearances all_cited).
Proof.
  unfold sequence_walk.
  destruct (sequence_walk_invariant all_cited [] 0) as [pm Hpm].
  cbn in Hpm. by rewrite Hpm.
Qed.

Lemma is_empty_true {A} (l : list A) : is_empty l = true ↔ l = [].
Proof. by destruct l. Qed.



(** ** Renumbering: the mapping *)

Lemma build_mapping_loop (order : list Z) (m0 : gmap Z Z) (k0 : Z) :
  NoDup order →
  ∀ old new,
    (fold_left (λ acc old_id, (<[old_id := acc.2]> acc.1, acc.2 + 1))
               order (m0, k0)).1 !! old = Some new ↔
    (∃ i, order !! i = Some old ∧ new = k0 + Z.of_nat i)
    ∨ (old ∉ order ∧ m0 !! old = Some new).
Proof.
  revert m0 k0. induction order as [|a order IH]; intros m0 k0 Hnd old new.
  { simpl. split; [right; split; [set_solver|done]|].
    intros [(i & Hi & _)|[_ ?]]; [by destruct i|done]. }
  apply NoDup_cons in Hnd as [Ha Hnd]. simpl. rewrite IH by done. split.
  - intros [(i & Hi & ->)|[Hnotin Hlook]].
    + left. exists (S i). split; [done|lia].
    + destruct (decide (a = old)) as [->|Hne].
      * rewrite lookup_insert_eq in Hlook. injection Hlook as <-.
        left. exists 0%nat. split; [done|lia].
      * rewrite lookup_insert_ne in Hlook by done.
        right. split; [set_solver|done].
  - intros [(i & Hi & ->)|[Hnotin Hlook]].
    + destruct i as [|i]; simpl in Hi.
      * injection Hi as ->. right. split; [done|].
        rewrite lookup_insert_eq. f_equal. lia.
      * left. exists i. split; [done|lia].
    + right. split; [set_solver|].
      rewrite lookup_insert_ne by set_solver. done.
Qed.

(** The mapping sends the i-th distinct id (from 0) to i + 1. *)
Lemma build_mapping_lookup (order : list Z) (old new : Z) :
  NoDup order →
  build_mapping order !! old = Some new ↔
  ∃ i, order !! i = Some old ∧ new = Z.of_nat i + 1.
Proof.
  intros Hnd. unfold build_mapping. rewrite build_mapping_loop by done.
  split.
  - intros [(i & ? & ->)|[_ ?]]; [|done]. exists i. split; [done|lia].
  - intros (i & ? & ->). left. exists i. split; [done|lia].
Qed.

Lemma renumber_mapping doc :
  (renumber doc).2 = build_mapping (get_citations_in_text doc).2.
Proof.
  unfold renumber. by destruct (get_citations_in_text doc).
Qed.


(** ** Compact formatting and its inverse *)

Lemma consecutive_runs_head n ids :
  ∃ b runs, consecutive_runs (n :: ids) = (n, b) :: runs.
Proof.
  simpl. destruct (consecutive_runs ids) as [|[a b] runs]; simpl; [eauto|].
  destruct (a =? n + 1); eauto.
Qed.

Lemma join_run_next start prev n runs :
  n = prev + 1 →
  join_run start prev (join_run n n runs) = join_run start n runs.
Proof.
  intros ->. destruct runs as [|[a b] runs]; simpl.
  - by rewrite Z.eqb_refl.
  - destruct (a =? prev + 1 + 1); simpl; by rewrite Z.eqb_refl.
Qed.

(** The loop of [format_numbers] emits the maximal runs. *)
Lemma format_loop_runs nums : ∀ start prev parts,
  format_loop start prev nums parts =
  parts ++ map (λ r, format_part r.1 r.2)
               (join_run start prev (consecutive_runs nums)).
Proof.
  induction nums as [|n nums IH]; intros start prev parts; [done|].
  cbn [format_loop]. destruct (Z.eqb_spec n (prev + 1)) as [Hn|Hn].
  - rewrite IH. cbn [consecutive_runs]. by rewrite join_run_next.
  - rewrite IH, <- app_assoc. f_equal.
    destruct (consecutive_runs_head n nums) as (b & runs & Hruns).
    cbn [consecutive_runs] in Hruns. cbn [consecutive_runs].
    rewrite Hruns. simpl. by destruct (Z.eqb_spec n (prev + 1)).
Qed.

Lemma format_numbers_runs nums :
  format_numbers nums =
  join (lit ", ")
       (map (λ r, format_part r.1 r.2) (consecutive_runs (sorted_set nums))).
Proof.
  unfold format_numbers. destruct (sorted_set nums) as [|first others]; [done|].
  by rewrite format_loop_runs.
Qed.

Lemma elem_of_range_incl n s e : n ∈ range_incl s e ↔ s ≤ n ≤ e.
Proof.
  unfold range_incl. rewrite list_elem_of_In, in_map_iff. split.
  - intros (i & <- & Hi%in_seq). lia.
  - intros Hn. exists (Z.to_nat (n - s)). split; [lia|].
    apply in_seq. lia.
Qed.

Lemma range_incl_one n : range_incl n n = [n].
Proof.
  unfold range_incl. replace (n + 1 - n) with 1 by lia. simpl.
  f_equal. lia.
Qed.

Lemma range_incl_cons n b : n ≤ b → range_incl n b = n :: range_incl (n + 1) b.
Proof.
  intros Hnb. unfold range_incl.
  replace (Z.to_nat (b + 1 - n)) with (S (Z.to_nat (b + 1 - (n + 1)))) by lia.
  cbn [seq map]. f_equal; [lia|].
  rewrite <- seq_shift, map_map. apply map_ext. intros i. lia.
Qed.

(** The runs are well formed and, read as ranges, give back the list. *)
Lemma consecutive_runs_bounds ids :
  Forall (λ n, 0 ≤ n) ids →
  Forall (λ r : Z * Z, 0 ≤ r.1 ≤ r.2) (consecutive_runs ids).
Proof.
  induction 1 as [|n ids Hn _ IH]; simpl; [done|].
  destruct IH as [|[a b] runs [Ha Hb] Hruns]; simpl.
  - constructor; [simpl; lia|done].
  - simpl in *. destruct (Z.eqb_spec a (n + 1)); constructor; simpl;
      try lia; try done. by constructor.
Qed.

Lemma consecutive_runs_expand ids :
  Forall (λ r : Z * Z, r.1 ≤ r.2) (consecutive_runs ids)
  ∧ flat_map (λ r, range_incl r.1 r.2) (consecutive_runs ids) = ids.
Proof.
  induction ids as [|n ids [IHb IH]]; simpl; [done|].
  destruct (consecutive_runs ids) as [|[a b] runs]; simpl in *.
  - subst. split; [by repeat constructor|]. by rewrite range_incl_one.
  - apply Forall_cons in IHb as [Hab Hruns]. simpl in Hab.
    destruct (Z.eqb_spec a (n + 1)) as [->|Hne]; simpl.
    + split; [constructor; [simpl; lia|done]|].
      rewrite range_incl_cons by lia. by rewrite <- IH.
    + split; [by repeat constructor|].
      by rewrite range_incl_one, <- IH.
Qed.

(** In a strictly increasing list, neighbouring runs are not contiguous:
    the numbers between them are missing from the list. *)
Lemma consecutive_runs_separated ids :
  StronglySorted Z.lt ids →
  ∀ i a b a' b',
    consecutive_runs ids !! i = Some (a, b) →
    consecutive_runs ids !! S i = Some (a', b') →
    b + 1 < a'.
Proof.
  induction 1 as [|n ids Hsorted IH Hn]; [done|].
  destruct ids as [|m ids]; [by intros [|i]|].
  destruct (consecutive_runs_head m ids) as (b0 & runs & Hruns).
  apply Forall_cons in Hn as [Hnm _].
  cbn [consecutive_runs] in *. rewrite Hruns in *. cbn [join_run].
  destruct (Z.eqb_spec m (n + 1)) as [->|Hne]; intros [|i] a b a' b' Hi Hi'.
  - simplify_eq/=. by eapply (IH 0%nat).
  - by eapply (IH (S i)).
  - simplify_eq/=. lia.
  - by eapply (IH i).
Qed.

Lemma sorted_set_increasing ids :
  StronglySorted Z.lt ids → sorted_set ids = ids.
Proof.
  intros Hsorted. unfold sorted_set.
  apply (Sorted_unique Z.le).
  - apply Sorted_merge_sort. apply _.
  - induction Hsorted as [|n ids _ IH Hn]; constructor; [done|].
    destruct Hn; constructor. lia.
  - rewrite merge_sort_Permutation. apply elements_list_to_set.
    induction Hsorted as [|n ids _ IH Hn]; constructor; [|done].
    intros Hin. rewrite Forall_forall in Hn. specialize (Hn n Hin). lia.
Qed.

(** What [NUMBERS] does on the texts [format_numbers] writes. *)

Lemma digit_09_not_dash c : is_digit_09 c = true → is_dash c = false.
Proof.
  intros Hc%is_digit_09_bounds. unfold is_dash.
  repeat (apply orb_false_intro); rewrite N.eqb_neq; lia.
Qed.

Lemma digits_are_digits s :
  Forall (λ c, is_digit_09 c = true) s → Forall (λ c, isdigit c = true) s.
Proof.
  intros Hs. eapply Forall_impl; [done|]. intros c. apply digit_09_isdigit.
Qed.

Lemma at_comma_stops t (p : N → bool) : p 44%N = false → at_comma t → stops p t.
Proof. by intros Hp [->|[t' ->]]. Qed.

(** After the first number, the range alternative needs a dash. *)
Lemma range_tail_rejects {A} (k : mstate → option A) st :
  stops isspace (rest st) → stops is_dash (rest st) →
  rx (Seq (Star true (Cls isspace))
     (Seq (Cls is_dash)
     (Seq (Star true (Cls isspace)) (Grp 2 (Plus (Cls isdigit)))))) k st
  = None.
Proof.
  destruct st as [pv v cs]. cbn [rest]. intros Hsp Hdash.
  rewrite rx_seq, rx_star, (star_cls_none isspace) by done.
  rewrite rx_seq. by apply cls_stops.
Qed.

Lemma exec_range pv da db t :
  da ≠ [] → db ≠ [] →
  Forall (λ c, is_digit_09 c = true) da →
  Forall (λ c, is_digit_09 c = true) db →
  stops isdigit t →
  exec NUMBERS pv (da ++ 45%N :: db ++ t)
  = Some (MState (last_or (Some 45%N) db) t [(2%nat, db); (1%nat, da)]).
Proof.
  intros Hda Hdb Hdas Hdbs Ht. unfold exec, NUMBERS.
  rewrite rx_alt, rx_seq, rx_grp.
  erewrite (plus_cls_accepts isdigit); [done|done|by apply digits_are_digits|done|].
  cbn [prev rest caps]. rewrite consumed_app.
  rewrite rx_seq, rx_star, (star_cls_none isspace) by done.
  rewrite rx_seq, (cls_reads is_dash) by done.
  rewrite rx_seq, rx_star, (star_cls_none isspace).
  2:{ destruct db as [|d db]; [done|]. apply Forall_cons in Hdbs as [Hd _].
      by apply digit_09_not_space. }
  rewrite rx_grp.
  erewrite (plus_cls_accepts isdigit); [done|done|by apply digits_are_digits|done|].
  cbn [prev rest caps]. by rewrite consumed_app.
Qed.

Lemma exec_single pv da t :
  da ≠ [] → Forall (λ c, is_digit_09 c = true) da → at_comma t →
  exec NUMBERS pv (da ++ t)
  = Some (MState (last_or pv da) t [(3%nat, da)]).
Proof.
  intros Hda Hdas Ht. unfold exec, NUMBERS.
  assert (stops isdigit t) as Hstop by (by apply at_comma_stops).
  rewrite rx_alt, rx_seq, rx_grp.
  rewrite (plus_cls_rejects isdigit); [|by apply digits_are_digits|done|].
  - rewrite rx_grp.
    erewrite (plus_cls_accepts isdigit);
      [done|done|by apply digits_are_digits|done|].
    cbn [prev rest caps]. by rewrite consumed_app.
  - intros u1 u2 -> _. apply range_tail_rejects; cbn [rest].
    + destruct u2 as [|d u2]; [by apply at_comma_stops|].
      apply Forall_app in Hdas as [_ [Hd _]%Forall_cons].
      by apply digit_09_not_space.
    + destruct u2 as [|d u2]; [by apply at_comma_stops|].
      apply Forall_app in Hdas as [_ [Hd _]%Forall_cons].
      by apply digit_09_not_dash.
Qed.

Lemma exec_other pv t : stops isdigit t → exec NUMBERS pv t = None.
Proof.
  intros Ht. unfold exec, NUMBERS, Plus.
  rewrite rx_alt, rx_seq, rx_grp, rx_seq, (cls_stops isdigit) by done.
  by rewrite rx_grp, rx_seq, (cls_stops isdigit).
Qed.

Lemma findall_range pv da db t :
  da ≠ [] → db ≠ [] →
  Forall (λ c, is_digit_09 c = true) da →
  Forall (λ c, is_digit_09 c = true) db →
  stops isdigit t →
  ∃ pv', findall_from NUMBERS pv (da ++ 45%N :: db ++ t)
         = (da ++ 45%N :: db, [(2%nat, db); (1%nat, da)])
           :: findall_from NUMBERS pv' t.
Proof.
  intros Hda Hdb Hdas Hdbs Ht. eexists. unfold findall_from.
  pose proof (exec_range pv da db t Hda Hdb Hdas Hdbs Ht) as Hexec.
  replace (da ++ 45%N :: db ++ t) with ((da ++ 45%N :: db) ++ t) in *
    by (by rewrite <- app_assoc).
  assert (da ++ 45%N :: db ≠ []) as Hne by (by destruct da).
  by rewrite (scan_matched _ _ _ _ _ Hne Hexec eq_refl).
Qed.

Lemma findall_single pv da t :
  da ≠ [] → Forall (λ c, is_digit_09 c = true) da → at_comma t →
  ∃ pv', findall_from NUMBERS pv (da ++ t)
         = (da, [(3%nat, da)]) :: findall_from NUMBERS pv' t.
Proof.
  intros Hda Hdas Ht. eexists. unfold findall_from.
  by rewrite (scan_matched _ _ _ _ _ Hda (exec_single pv da t Hda Hdas Ht)
                eq_refl).
Qed.

Lemma findall_other pv c t :
  isdigit c = false →
  findall_from NUMBERS pv (c :: t) = findall_from NUMBERS (Some c) t.
Proof.
  intros Hc. unfold findall_from.
  by rewrite scan_unmatched by (by apply exec_other).
Qed.

Lemma findall_end pv : findall_from NUMBERS pv [] = [].
Proof. unfold findall_from. cbn [scan]. by rewrite exec_other. Qed.

Lemma str_of_int_digits n :
  0 ≤ n →
  str_of_int n ≠ []
  ∧ Forall (λ c, is_digit_09 c = true) (str_of_int n)
  ∧ int_of_digits (str_of_int n) = n.
Proof.
  intros Hn. unfold str_of_int. destruct (Z.ltb_spec n 0); [lia|].
  destruct (digits_spec (Z.to_N n)) as (? & ? & ?).
  split_and!; [done..|]. rewrite int_of_digits_digits. lia.
Qed.

(** One part of the output, followed by the end of the text or by the
    separator, reads back as the numbers of its run. *)
Lemma get_numbers_part a b t pv :
  0 ≤ a ≤ b → at_comma t →
  ∃ pv',
    flat_map (λ m, numbers_of_match m.2)
             (findall_from NUMBERS pv (format_part a b ++ t))
    = range_incl a b
      ++ flat_map (λ m, numbers_of_match m.2) (findall_from NUMBERS pv' t).
Proof.
  intros Hab Ht.
  destruct (str_of_int_digits a) as (Ha1 & Ha2 & Ha3); [lia|].
  destruct (str_of_int_digits b) as (Hb1 & Hb2 & Hb3); [lia|].
  assert (stops isdigit t) as Hstop by (by apply at_comma_stops).
  assert (∀ s : str, s ≠ [] → nonempty s = true) as Hne by (by intros []).
  unfold format_part. cbn zeta.
  destruct (Z.leb_spec 3 (b - a + 1)); [|destruct (Z.eqb_spec (b - a + 1) 2)].
  - change (lit "-") with [45%N]. rewrite <- !app_assoc. cbn [app].
    destruct (findall_range pv (str_of_int a) (str_of_int b) t)
      as [pv' ->]; [done..|].
    exists pv'. cbn [flat_map snd]. f_equal.
    unfold numbers_of_match. cbn [group Nat.eqb].
    rewrite !Hne, Ha3, Hb3 by done. cbn [andb].
    by destruct (Z.leb_spec a b); [|lia].
  - change (lit ",") with [44%N]. rewrite <- !app_assoc. cbn [app].
    destruct (findall_single pv (str_of_int a) (44%N :: str_of_int b ++ t))
      as [pv1 ->]; [done|done|right; eauto|].
    rewrite findall_other by done.
    destruct (findall_single (Some 44%N) (str_of_int b) t)
      as [pv2 ->]; [done..|].
    exists pv2. cbn [flat_map snd].
    unfold numbers_of_match. cbn [group Nat.eqb nonempty is_empty negb andb].
    rewrite !Hne, Ha3, Hb3 by done. cbn [app].
    rewrite range_incl_cons by lia. replace b with (a + 1) by lia.
    by rewrite range_incl_one.
  - destruct (findall_single pv (str_of_int a) t) as [pv1 ->]; [done..|].
    exists pv1. cbn [flat_map snd].
    unfold numbers_of_match. cbn [group Nat.eqb nonempty is_empty negb andb].
    rewrite !Hne, Ha3 by done. cbn [app].
    assert (b = a) as -> by lia. by rewrite range_incl_one.
Qed.

Lemma get_numbers_parts runs : ∀ pv,
  Forall (λ r : Z * Z, 0 ≤ r.1 ≤ r.2) runs →
  flat_map (λ m, numbers_of_match m.2)
    (findall_from NUMBERS pv
       (join (lit ", ") (map (λ r, format_part r.1 r.2) runs)))
  = flat_map (λ r, range_incl r.1 r.2) runs.
Proof.
  induction runs as [|[a b] runs IH]; intros pv Hruns.
  { cbn [map join]. by rewrite findall_end. }
  apply Forall_cons in Hruns as [Hab Hruns]. simpl in Hab.
  destruct runs as [|r runs].
  - cbn [map join flat_map fst snd]. rewrite app_nil_r.
    destruct (get_numbers_part a b [] pv) as [pv' Hpart]; [done|by left|].
    rewrite app_nil_r in Hpart. rewrite Hpart, findall_end. by rewrite app_nil_r.
  - change (map (λ r, format_part r.1 r.2) ((a, b) :: r :: runs))
      with (format_part a b :: map (λ r, format_part r.1 r.2) (r :: runs)).
    rewrite join_cons by done.
    change (lit ", ") with [44%N; 32%N]. cbn [app flat_map fst snd].
    destruct (get_numbers_part a b
                (44%N :: 32%N :: join [44%N; 32%N]
                   (map (λ r, format_part r.1 r.2) (r :: runs))) pv)
      as [pv' Hpart]; [done|right; eauto|].
    rewrite Hpart. f_equal.
    rewrite !findall_other by done. by apply IH.
Qed.

End Facts.
End NumericFacts.

(* ===================================================================== *)
(** * Properties of Referencenumvalidation.py under the interpreter's
      bounds                                                              *)
(* ===================================================================== *)

Module BoundedFacts.
Import Py Docx Numeric Spec PyFacts NumericFacts.
(* [Bounded] is not imported: its names repeat [Numeric]'s. *)

(** ** Loops that may raise *)

Lemma foldM_preserves {A B} (P : B → Prop) (f : B → A → outcome B) l :
  (∀ b x b', P b → f b x = Ok b' → P b') →
  ∀ b r, P b → foldM f l b = Ok r → P r.
Proof.
  intros Hf. induction l as [|x l IH]; intros b r Hb; cbn [foldM].
  - by intros [= <-].
  - destruct (f b x) as [b'|e] eqn:Hfb; [|done].
    cbn [mbind outcome_bind bind]. eapply IH, Hf; eauto.
Qed.


Lemma mapM_raises {A B} (P : exn → Prop) (f : A → outcome B) l :
  (∀ x e, f x = Raise e → P e) →
  ∀ e, mapM f l = Raise e → P e.
Proof.
  intros Hf. induction l as [|x l IH]; intros e; cbn [mapM]; [done|].
  destruct (f x) as [y|e'] eqn:Hfx; cbn [mbind outcome_bind bind].
  - destruct (mapM f l) as [ys|e'']; cbn [mbind outcome_bind bind]; [done|].
    intros [= <-]. by apply IH.
  - intros [= <-]. eauto.
Qed.

Section Facts.
Context `{Unicode} `{Difflib} `{Rounding} `{Bounded.Interpreter}.

(** ** Conversions between [int] and [str] *)

Lemma py_str_ok n : printable n → Bounded.py_str n = Ok (str_of_int n).
Proof. unfold printable, Bounded.py_str. by intros ->. Qed.

Lemma py_str_inv n t :
  Bounded.py_str n = Ok t → t = str_of_int n ∧ printable n.
Proof.
  unfold printable, Bounded.py_str.
  destruct (Bounded.exceeds_limit _); [done|]. by intros [= <-].
Qed.

Lemma py_str_raises n e : Bounded.py_str n = Raise e → e = ValueError.
Proof.
  unfold Bounded.py_str. destruct (Bounded.exceeds_limit _); [|done].
  by intros [= <-].
Qed.


Lemma str_of_int_nonneg n : 0 ≤ n → str_of_int n = digits (Z.to_N (Z.abs n)).
Proof.
  intros Hn. unfold str_of_int. destruct (Z.ltb_spec n 0); [lia|].
  by rewrite Z.abs_eq.
Qed.

Lemma py_int_str n :
  0 ≤ n → printable n → Bounded.py_int (str_of_int n) = Ok n.
Proof.
  intros Hn Hp. unfold Bounded.py_int, printable in *.
  rewrite str_of_int_nonneg, Hp by done.
  rewrite <- str_of_int_nonneg by done.
  by destruct (str_of_int_digits n Hn) as (_ & _ & ->).
Qed.

(** ** format_numbers: the text of [Numeric.format_numbers], or
    ValueError *)

Lemma format_part_ok a b :
  printable a → printable b →
  Bounded.format_part a b = Ok (format_part a b).
Proof.
  intros Ha Hb. unfold Bounded.format_part, format_part. cbn zeta.
  rewrite !py_str_ok by done. cbn [mbind outcome_bind bind].
  destruct (3 <=? b - a + 1); [done|]. by destruct (b - a + 1 =? 2).
Qed.

Lemma format_part_inv a b t :
  Bounded.format_part a b = Ok t → t = format_part a b.
Proof.
  unfold Bounded.format_part, format_part. cbn zeta.
  destruct (3 <=? b - a + 1); [|destruct (b - a + 1 =? 2)].
  - destruct (Bounded.py_str a) as [ta|] eqn:Ea; [|done].
    destruct (Bounded.py_str b) as [tb|] eqn:Eb; [|done].
    apply py_str_inv in Ea as [-> _]. apply py_str_inv in Eb as [-> _].
    by intros [= <-].
  - destruct (Bounded.py_str a) as [ta|] eqn:Ea; [|done].
    destruct (Bounded.py_str b) as [tb|] eqn:Eb; [|done].
    apply py_str_inv in Ea as [-> _]. apply py_str_inv in Eb as [-> _].
    by intros [= <-].
  - by intros [-> _]%py_str_inv.
Qed.

Lemma format_part_raises a b e :
  Bounded.format_part a b = Raise e → e = ValueError.
Proof.
  unfold Bounded.format_part. cbn zeta.
  destruct (3 <=? b - a + 1); [|destruct (b - a + 1 =? 2)];
    try apply py_str_raises;
    (destruct (Bounded.py_str a) as [ta|ea] eqn:Ea;
       [|intros [= <-]; by eapply py_str_raises];
     destruct (Bounded.py_str b) as [tb|eb] eqn:Eb;
       [done|intros [= <-]; by eapply py_str_raises]).
Qed.

Lemma format_loop_ok nums : ∀ start prev parts,
  printable start → printable prev → Forall printable nums →
  Bounded.format_loop start prev nums parts
  = Ok (format_loop start prev nums parts).
Proof.
  induction nums as [|n nums IH]; intros start prev parts Hs Hp Hnums;
    cbn [Bounded.format_loop format_loop].
  - by rewrite format_part_ok.
  - apply Forall_cons in Hnums as [Hn Hnums].
    destruct (n =? prev + 1); [by apply IH|].
    rewrite format_part_ok by done. cbn [mbind outcome_bind bind].
    by apply IH.
Qed.

Lemma format_loop_inv nums : ∀ start prev parts r,
  Bounded.format_loop start prev nums parts = Ok r →
  r = format_loop start prev nums parts.
Proof.
  induction nums as [|n nums IH]; intros start prev parts r;
    cbn [Bounded.format_loop format_loop].
  - destruct (Bounded.format_part start prev) as [t|] eqn:Et; [|done].
    apply format_part_inv in Et as ->. by intros [= <-].
  - destruct (n =? prev + 1); [apply IH|].
    destruct (Bounded.format_part start prev) as [t|] eqn:Et; [|done].
    apply format_part_inv in Et as ->. apply IH.
Qed.

Lemma format_loop_raises nums : ∀ start prev parts e,
  Bounded.format_loop start prev nums parts = Raise e → e = ValueError.
Proof.
  induction nums as [|n nums IH]; intros start prev parts e;
    cbn [Bounded.format_loop].
  - destruct (Bounded.format_part start prev) as [t|e'] eqn:Et; [done|].
    intros [= <-]. by eapply format_part_raises.
  - destruct (n =? prev + 1); [apply IH|].
    destruct (Bounded.format_part start prev) as [t|e'] eqn:Et; [apply IH|].
    intros [= <-]. by eapply format_part_raises.
Qed.

Lemma elem_of_sorted_set nums n : n ∈ sorted_set nums ↔ n ∈ nums.
Proof.
  unfold sorted_set.
  by rewrite merge_sort_Permutation, elem_of_elements, elem_of_list_to_set.
Qed.

Lemma format_numbers_ok nums :
  Forall printable nums →
  Bounded.format_numbers nums = Ok (format_numbers nums).
Proof.
  intros Hnums. unfold Bounded.format_numbers, format_numbers.
  assert (Forall printable (sorted_set nums)) as Hsorted.
  { rewrite Forall_forall in Hnums |- *. intros n Hn.
    by apply Hnums, elem_of_sorted_set. }
  destruct (sorted_set nums) as [|first others]; [done|].
  apply Forall_cons in Hsorted as [Hfirst Hothers].
  by rewrite format_loop_ok.
Qed.

Lemma format_numbers_inv nums t :
  Bounded.format_numbers nums = Ok t → t = format_numbers nums.
Proof.
  unfold Bounded.format_numbers, format_numbers.
  destruct (sorted_set nums) as [|first others]; [by intros [= <-]|].
  destruct (Bounded.format_loop _ _ _ _) as [parts|] eqn:Eparts; [|done].
  apply format_loop_inv in Eparts as ->. by intros [= <-].
Qed.

Lemma format_numbers_raises nums e :
  Bounded.format_numbers nums = Raise e → e = ValueError.
Proof.
  unfold Bounded.format_numbers.
  destruct (sorted_set nums) as [|first others]; [done|].
  destruct (Bounded.format_loop _ _ _ _) as [parts|e'] eqn:Eparts; [done|].
  intros [= <-]. by eapply format_loop_raises.
Qed.

(** ** get_numbers *)



Lemma nonempty_str_of_int n : 0 ≤ n → nonempty (str_of_int n) = true.
Proof.
  intros Hn. rewrite str_of_int_nonneg by done.
  destruct (digits_spec (Z.to_N (Z.abs n))) as (Hne & _).
  by destruct (digits _).
Qed.

Lemma range_match nums a b :
  0 ≤ a → 0 ≤ b → printable a → printable b →
  Bounded.numbers_of_match nums
    [(2%nat, str_of_int b); (1%nat, str_of_int a)]
  = if a <=? b then Bounded.extend_range nums a b else Ok nums.
Proof.
  intros Ha Hb Hpa Hpb. unfold Bounded.numbers_of_match.
  cbn [group Nat.eqb]. rewrite !nonempty_str_of_int by done. cbn [andb].
  rewrite !py_int_str by done. cbn [mbind outcome_bind bind].
  destruct (a <=? b); [|done].
  unfold Bounded.extend_range. by destruct (_ <? _).
Qed.

Lemma single_match nums a :
  0 ≤ a → printable a →
  Bounded.numbers_of_match nums [(3%nat, str_of_int a)] = Ok (nums ++ [a]).
Proof.
  intros Ha Hpa. unfold Bounded.numbers_of_match.
  cbn [group Nat.eqb nonempty is_empty negb andb].
  rewrite nonempty_str_of_int, py_int_str by done. done.
Qed.

(** One part of the output of [format_numbers], followed by the end of
    the text or by the separator, reads back as the numbers of its
    run. *)
Lemma bounded_part a b t pv nums :
  0 ≤ a ≤ b → printable a → printable b →
  (3 ≤ b + 1 - a → b + 1 - a ≤ Bounded.maxsize) →
  at_comma t →
  ∃ pv',
    foldM Bounded.numbers_of_match
          (findall_from NUMBERS pv (format_part a b ++ t)).*2 nums
    = foldM Bounded.numbers_of_match
            (findall_from NUMBERS pv' t).*2 (nums ++ range_incl a b).
Proof.
  intros Hab Hpa Hpb Hsize Ht.
  destruct (str_of_int_digits a) as (Ha1 & Ha2 & Ha3); [lia|].
  destruct (str_of_int_digits b) as (Hb1 & Hb2 & Hb3); [lia|].
  assert (stops isdigit t) as Hstop by (by apply at_comma_stops).
  unfold format_part. cbn zeta.
  destruct (Z.leb_spec 3 (b - a + 1)); [|destruct (Z.eqb_spec (b - a + 1) 2)].
  - change (lit "-") with [45%N]. rewrite <- !app_assoc. cbn [app].
    destruct (findall_range pv (str_of_int a) (str_of_int b) t)
      as [pv' ->]; [done..|].
    exists pv'. cbn [fmap list_fmap snd foldM].
    rewrite range_match by (done || lia).
    destruct (Z.leb_spec a b); [|lia].
    unfold Bounded.extend_range.
    by destruct (Z.ltb_spec Bounded.maxsize (b + 1 - a)); [lia|].
  - change (lit ",") with [44%N]. rewrite <- !app_assoc. cbn [app].
    destruct (findall_single pv (str_of_int a) (44%N :: str_of_int b ++ t))
      as [pv1 ->]; [done|done|right; eauto|].
    rewrite findall_other by done.
    destruct (findall_single (Some 44%N) (str_of_int b) t)
      as [pv2 ->]; [done..|].
    exists pv2. cbn [fmap list_fmap snd foldM].
    rewrite single_match by (done || lia). cbn [mbind outcome_bind bind].
    rewrite single_match by (done || lia). cbn [mbind outcome_bind bind].
    rewrite range_incl_cons by lia. replace b with (a + 1) by lia.
    by rewrite range_incl_one, <- app_assoc.
  - destruct (findall_single pv (str_of_int a) t) as [pv1 ->]; [done..|].
    exists pv1. cbn [fmap list_fmap snd foldM].
    rewrite single_match by (done || lia). cbn [mbind outcome_bind bind].
    assert (b = a) as -> by lia. by rewrite range_incl_one.
Qed.

Lemma bounded_parts runs : ∀ pv nums,
  Forall readable runs →
  foldM Bounded.numbers_of_match
    (findall_from NUMBERS pv
       (join (lit ", ") (map (λ r, format_part r.1 r.2) runs))).*2 nums
  = Ok (nums ++ flat_map (λ r, range_incl r.1 r.2) runs).
Proof.
  induction runs as [|[a b] runs IH]; intros pv nums Hruns.
  { cbn [map join flat_map]. by rewrite findall_end, app_nil_r. }
  apply Forall_cons in Hruns as [(Hab & Hpa & Hpb & Hsize) Hruns].
  cbn [fst snd] in *.
  destruct runs as [|r runs].
  - cbn [map join flat_map fst snd]. rewrite app_nil_r.
    destruct (bounded_part a b [] pv nums) as [pv' Hpart];
      [done|done|done|done|by left|].
    rewrite app_nil_r in Hpart. by rewrite Hpart, findall_end.
  - change (map (λ r, format_part r.1 r.2) ((a, b) :: r :: runs))
      with (format_part a b :: map (λ r, format_part r.1 r.2) (r :: runs)).
    rewrite join_cons by done.
    change (lit ", ") with [44%N; 32%N]. cbn [app flat_map fst snd].
    destruct (bounded_part a b
                (44%N :: 32%N :: join [44%N; 32%N]
                   (map (λ r, format_part r.1 r.2) (r :: runs))) pv nums)
      as [pv' Hpart]; [done|done|done|done|right; eauto|].
    rewrite Hpart. rewrite !findall_other by done.
    change [44%N; 32%N] with (lit ", "). rewrite IH by done.
    by rewrite <- app_assoc.
Qed.

Lemma flat_map_length_ge {A B} (f : A → list B) l x :
  x ∈ l → (length (f x) ≤ length (flat_map f l))%nat.
Proof.
  induction l as [|y l IH]; [by intros ?%elem_of_nil|].
  cbn [flat_map]. rewrite length_app.
  intros [->|Hx]%elem_of_cons; [lia|]. specialize (IH Hx). lia.
Qed.

Lemma length_range_incl a b : length (range_incl a b) = Z.to_nat (b + 1 - a).
Proof. unfold range_incl. by rewrite length_map, length_seq. Qed.

(** A run begins and ends in the list and is no longer than the list. *)
Lemma consecutive_runs_within ids :
  Forall (λ r : Z * Z, r.1 ∈ ids ∧ r.2 ∈ ids ∧ r.1 ≤ r.2
                       ∧ r.2 + 1 - r.1 ≤ Z.of_nat (length ids))
         (consecutive_runs ids).
Proof.
  destruct (consecutive_runs_expand ids) as [Hbounds Hflat].
  rewrite Forall_forall in Hbounds |- *. intros [a b] Hr.
  specialize (Hbounds _ Hr). cbn [fst snd] in *.
  assert (∀ n, a ≤ n ≤ b → n ∈ ids) as Hin.
  { intros n Hn. rewrite <- Hflat.
    apply list_elem_of_In, in_flat_map. exists (a, b).
    split; [by apply list_elem_of_In|].
    apply list_elem_of_In. by apply elem_of_range_incl. }
  split_and!; [apply Hin; lia|apply Hin; lia|done|].
  pose proof (flat_map_length_ge (λ r : Z * Z, range_incl r.1 r.2) _ _ Hr)
    as Hlen.
  rewrite Hflat in Hlen. cbn [fst snd] in Hlen.
  rewrite length_range_incl in Hlen. lia.
Qed.

Lemma length_sorted_set ids : (length (sorted_set ids) ≤ length ids)%nat.
Proof.
  unfold sorted_set. rewrite merge_sort_Permutation.
  apply submseteq_length, NoDup_submseteq; [apply NoDup_elements|].
  intros n. by rewrite elem_of_elements, elem_of_list_to_set.
Qed.

(** The round trip: what [format_numbers] writes for non-negative
    numbers within the bounds, [get_numbers] reads back. *)
Lemma bounded_read_back ids :
  Forall (λ n, 0 ≤ n) ids → Forall printable ids →
  Z.of_nat (length ids) ≤ Bounded.maxsize →
  Bounded.format_numbers ids = Ok (format_numbers ids)
  ∧ Bounded.get_numbers (format_numbers ids) = Ok (sorted_set ids).
Proof.
  intros Hnonneg Hprintable Hlen. split; [by apply format_numbers_ok|].
  rewrite format_numbers_runs. unfold Bounded.get_numbers, findall.
  rewrite bounded_parts.
  - cbn [app]. f_equal. apply consecutive_runs_expand.
  - pose proof (consecutive_runs_within (sorted_set ids)) as Hruns.
    pose proof (length_sorted_set ids) as Hshort.
    rewrite Forall_forall in Hruns. rewrite Forall_forall in Hnonneg.
    rewrite Forall_forall in Hprintable. apply Forall_forall.
    intros r Hr. destruct (Hruns r Hr) as (H1' & H2' & Hle & Hsize).
    apply (proj1 (elem_of_sorted_set _ _)) in H1'.
    apply (proj1 (elem_of_sorted_set _ _)) in H2'.
    pose proof (Hnonneg _ H1'). pose proof (Hnonneg _ H2').
    split_and!; [lia|done|by apply Hprintable|by apply Hprintable|lia].
Qed.

Lemma exceeds_limit_one : Bounded.exceeds_limit 1 = false.
Proof. unfold Bounded.exceeds_limit. by destruct Bounded.int_max_str_digits. Qed.

(** C3.  [format_numbers] writes the maximal runs of consecutive integers
    of the sorted, duplicate-free input, joined with ", ": a run of three
    or more as "a-b", a run of two as "a,b", a single number as itself; it
    returns whenever the numbers are within the interpreter's limit on
    digits.  In a strictly increasing list the runs cover exactly the
    list and neighbouring runs are not contiguous, so numbers that are not
    consecutive are never merged.  [format_numbers(get_numbers("1, 2, 3,
    5"))] is "1-3, 5".  For every list of ids the program can hold
    (non-negative, within the limit on digits, no longer than
    [sys.maxsize]) [get_numbers(format_numbers(ids))] is
    [sorted(set(ids))]; for a strictly increasing one that is [ids]
    itself. *)
Theorem C3_format_numbers_round_trip :
  (∀ nums t,
     Bounded.format_numbers nums = Ok t →
     t = join (lit ", ") (map (λ r, format_part r.1 r.2)
                              (consecutive_runs (sorted_set nums))))
  ∧ (∀ nums, Forall printable nums → ∃ t, Bounded.format_numbers nums = Ok t)
  ∧ (∀ a b,
       format_part a b =
       if 3 <=? b - a + 1 then str_of_int a ++ lit "-" ++ str_of_int b
       else if b - a + 1 =? 2 then str_of_int a ++ lit "," ++ str_of_int b
       else str_of_int a)
  ∧ (∀ ids,
       StronglySorted Z.lt ids →
       sorted_set ids = ids
       ∧ flat_map (λ r, range_incl r.1 r.2) (consecutive_runs ids) = ids
       ∧ ∀ i a b a' b',
           consecutive_runs ids !! i = Some (a, b) →
           consecutive_runs ids !! S i = Some (a', b') →
           b + 1 < a')
  ∧ (∃ nums,
       Bounded.get_numbers (lit "1, 2, 3, 5") = Ok nums
       ∧ Bounded.format_numbers nums = Ok (lit "1-3, 5"))
  ∧ (∀ ids,
       Forall (λ n, 0 ≤ n) ids → Forall printable ids →
       Z.of_nat (length ids) ≤ Bounded.maxsize →
       ∃ t, Bounded.format_numbers ids = Ok t
            ∧ Bounded.get_numbers t = Ok (sorted_set ids))
  ∧ (∀ ids,
       StronglySorted Z.lt ids →
       Forall (λ n, 0 ≤ n) ids → Forall printable ids →
       Z.of_nat (length ids) ≤ Bounded.maxsize →
       ∃ t, Bounded.format_numbers ids = Ok t
            ∧ Bounded.get_numbers t = Ok ids).
Proof.
  assert (∀ n, 0 ≤ n < 10 → printable n) as Hsmall.
  { intros n Hn. unfold printable.
    assert (n = 0 ∨ n = 1 ∨ n = 2 ∨ n = 3 ∨ n = 4 ∨ n = 5 ∨ n = 6 ∨ n = 7
            ∨ n = 8 ∨ n = 9) as Hcases by lia.
    destruct_or!; subst n; apply exceeds_limit_one. }
  split_and!.
  - intros nums t ->%format_numbers_inv. apply format_numbers_runs.
  - intros nums Hnums. eexists. by apply format_numbers_ok.
  - done.
  - intros ids Hids. split_and!.
    + by apply sorted_set_increasing.
    + apply consecutive_runs_expand.
    + by apply consecutive_runs_separated.
  - exists [1; 2; 3; 5]. split.
    + unfold Bounded.get_numbers, findall.
      change (lit "1, 2, 3, 5")
        with (join (lit ", ") (map (λ r : Z * Z, format_part r.1 r.2)
                                   [(1, 1); (2, 2); (3, 3); (5, 5)])).
      rewrite bounded_parts; [done|].
      repeat constructor; cbn [fst snd]; try lia; apply Hsmall; lia.
    + rewrite format_numbers_ok.
      * by vm_compute.
      * repeat constructor; apply Hsmall; lia.
  - intros ids Hnonneg Hprintable Hlen. eexists.
    by apply bounded_read_back.
  - intros ids Hsorted Hnonneg Hprintable Hlen.
    destruct (bounded_read_back ids Hnonneg Hprintable Hlen) as [Hf Hg].
    rewrite (sorted_set_increasing ids Hsorted) in Hg. eauto.
Qed.

(** ** Documents without a bibliography *)


(** ** Discovery *)


Lemma flush_group_wf current_group st st' :
  wf st → Bounded.flush_group current_group st = Ok st' → wf st'.
Proof.
  intros Hwf. unfold Bounded.flush_group.
  destruct (Bounded.get_numbers _) as [nums|] eqn:Enums; [|done].
  intros [= <-]. by apply record_numbers_wf.
Qed.


Lemma caret_loop_wf matches st st' :
  wf st →
  foldM (λ st (m : str * list (nat * str)),
           nums ← Bounded.get_numbers (group 1 m.2);
           Ok (record_numbers nums st)) matches st = Ok st' →
  wf st'.
Proof.
  apply (foldM_preserves wf). intros st1 m st2 Hwf.
  destruct (Bounded.get_numbers _) as [nums|] eqn:Enums; [|done].
  intros [= <-]. by apply record_numbers_wf.
Qed.


Lemma scan_run_bounded_wf acc r acc' :
  wf acc.1 → Bounded.scan_run acc r = Ok acc' → wf acc'.1.
Proof.
  destruct acc as [st current_group]. unfold Bounded.scan_run. cbn [fst].
  intros Hwf. destruct (is_citation_run r); [by intros [= <-]|].
  destruct (match current_group with
            | [] => Ok st
            | _ => Bounded.flush_group current_group st
            end) as [st1|e1] eqn:Eflush; cbn [mbind outcome_bind bind];
    [|done].
  assert (wf st1) as Hwf1.
  { destruct current_group; [by injection Eflush as <-|].
    by eapply flush_group_wf. }
  destruct (foldM _ (findall CARET_CITATION (r_text r)) st1)
    as [st2|e2] eqn:Eloop; cbn [mbind outcome_bind bind]; [|done].
  intros [= <-]. cbn [fst]. by eapply caret_loop_wf.
Qed.


Lemma scan_paragraph_bounded_wf st para st' :
  wf st → Bounded.scan_paragraph st para = Ok st' → wf st'.
Proof.
  intros Hwf. unfold Bounded.scan_paragraph.
  destruct (foldM Bounded.scan_run (p_runs para) (st, []))
    as [[st1 current_group]|e1] eqn:Eruns; cbn [mbind outcome_bind bind];
    [|done].
  assert (wf st1) as Hwf1.
  { change st1 with (st1, current_group).1.
    apply (foldM_preserves (λ acc, wf acc.1) Bounded.scan_run
             (p_runs para) scan_run_bounded_wf (st, [])); [exact Hwf|].
    exact Eruns. }
  destruct current_group; [by intros [= <-]|]. by apply flush_group_wf.
Qed.


Lemma discover_bounded_wf doc st : Bounded.discover doc = Ok st → wf st.
Proof.
  unfold Bounded.discover. apply (foldM_preserves wf).
  - intros st1 para st2. apply scan_paragraph_bounded_wf.
  - split; [done|]. cbn. set_solver.
Qed.

(** ** Validation *)

(** What a validation pass that returns has computed. *)
Lemma bounded_stats_inv doc st :
  Bounded.get_validation_stats doc = Ok st →
  ∃ bib_refs ref_objects cited duplicates,
    Bounded.get_references_in_bibliography doc = Ok (bib_refs, ref_objects)
    ∧ Bounded.discover doc = Ok cited
    ∧ find_duplicates ref_objects = Ok duplicates
    ∧ st = Stats (size bib_refs) (length (all_cited_ids cited))
             (merge_sort Z.le
                (elements ((list_to_set (all_cited_ids cited) : gset Z)
                           ∖ bib_refs)))
             (merge_sort Z.le
                (elements (bib_refs
                           ∖ (list_to_set (all_cited_ids cited) : gset Z))))
             duplicates (sequence_walk (all_cited_ids cited))
             (is_empty
                (merge_sort Z.le
                   (elements ((list_to_set (all_cited_ids cited) : gset Z)
                              ∖ bib_refs)))
              && is_empty
                   (merge_sort Z.le
                      (elements
                         (bib_refs
                          ∖ (list_to_set (all_cited_ids cited) : gset Z))))
              && is_empty (sequence_walk (all_cited_ids cited))
              && is_empty duplicates).
Proof.
  unfold Bounded.get_validation_stats, Bounded.get_citations_in_text.
  destruct (Bounded.get_references_in_bibliography doc)
    as [[bib_refs ref_objects]|] eqn:Ebib; [|done].
  cbn [mbind outcome_bind bind].
  destruct (Bounded.discover doc) as [cited|] eqn:Ecited; [|done].
  cbn [mbind outcome_bind bind].
  destruct (find_duplicates ref_objects) as [duplicates|] eqn:Edup; [|done].
  cbn [mbind outcome_bind bind]. intros [= <-].
  by exists bib_refs, ref_objects, cited, duplicates.
Qed.


End Facts.
End BoundedFacts.

(** ** Closed instances of the properties above *)

Module NumericExamples.
Import Py Docx Numeric Spec Examples NumericFacts.

#[local] Existing Instances basic_latin exact_difflib no_rounding.

Lemma C1_unused_witness :
  ∃ st, unused_references st = [7]
        ∧ process_document with_unused =
            Ok (with_unused, st, st, ∅,
                lit "Aborted: Document validation failed due to unused references.").
Proof.
  eexists. split; cycle 1.
  - apply (C1_unused_references_abort with_unused).
    + vm_compute. reflexivity.
    + vm_compute. discriminate.
  - vm_compute. reflexivity.
Defined.


End NumericExamples.

Module BoundedExamples.
Import Py Docx Numeric Spec Examples BoundedFacts.

#[local] Existing Instances basic_latin exact_difflib no_rounding cpython.

Lemma C3_round_trip_witness :
  ∃ t, Bounded.format_numbers [2; 3; 4; 7; 9; 10] = Ok t
       ∧ Bounded.get_numbers t = Ok [2; 3; 4; 7; 9; 10].
Proof.
  apply (proj2 (proj2 (proj2 (proj2 (proj2 (proj2
           (C3_format_numbers_round_trip (H:=basic_latin) (H2:=cpython)))))))).
  - repeat constructor.
  - repeat constructor; lia.
  - repeat first [apply Forall_nil_2 | apply Forall_cons_2; [by vm_compute|]].
  - by vm_compute.
Defined.

(** C9.  The document "See ^1-99999999999999999999^." has no bibliography
    paragraph, and [process_document] raises on it: the two numbers
    convert, the first is the smaller, and [nums.extend(range(s, e + 1))]
    raises OverflowError, which [except ValueError] does not catch and
    nothing above [get_numbers] handles. *)
Theorem C9_wide_range_raises :
  Forall (λ p, style_is (p_style p) "REF-N" = false) (paragraphs wide_range)
  ∧ Bounded.get_numbers (lit "1-99999999999999999999") = Raise OverflowError
  ∧ Bounded.get_validation_stats wide_range = Raise OverflowError
  ∧ Bounded.process_document wide_range = Raise OverflowError.
Proof. split_and!; [repeat constructor|by vm_compute..]. Qed.

End BoundedExamples.

(* ===================================================================== *)
(** * Duplicate detection, in both files                                  *)
(* ===================================================================== *)

Module DuplicateFacts.
Import Py Docx Spec PyFacts.

Section Facts.
Context `{Unicode} `{Difflib} `{Rounding}.

Lemma similar_spec text_a text_b :
  similar text_a text_b = true ↔
  text_a ≠ [] ∧ text_b ≠ []
  ∧ (float_of_len (length text_a `min` length text_b)
     / float_of_len (length text_a `max` length text_b) <? 0.6)%float = false
  ∧ (0.85 <? ratio text_a text_b)%float = true.
Proof.
  unfold similar. rewrite !andb_true_iff, negb_true_iff.
  destruct text_a, text_b; simpl; naive_solver.
Qed.

Lemma length_zero {A} (l : list A) : (length l =? 0)%nat = is_empty l.
Proof. by destruct l. Qed.

(** ** The name-year file *)

Lemma apa_compare_pair ref_a ref_b :
  APA.compare_pair ref_a ref_b = Ok (apa_report ref_a ref_b).
Proof.
  unfold APA.compare_pair, apa_report, similar, score, nonempty.
  rewrite !length_zero.
  destruct (is_empty ref_a.2) eqn:Ha; [done|].
  destruct (is_empty ref_b.2) eqn:Hb; [done|].
  rewrite truediv_max by (by destruct ref_b.2). simpl.
  destruct (_ <? 0.6)%float; [done|]. simpl.
  by destruct (0.85 <? _)%float.
Qed.

Lemma apa_compare_all refs :
  APA.compare_all refs = Ok (omap (λ ab, apa_report ab.1 ab.2) (pairs refs)).
Proof.
  induction refs as [|ref_a later IH]; [done|].
  cbn [APA.compare_all pairs].
  rewrite (mapM_pure _ (apa_report ref_a)) by apply apa_compare_pair.
  rewrite IH, omap_app, omap_map. cbn. by rewrite omap_map.
Qed.

(** ** The numeral file *)

Lemma unguarded_compare_pair ref_a ref_b :
  Numeric.pr_text ref_a ≠ [] →
  compare_pair_unguarded ref_a ref_b = Ok (numeric_report ref_a ref_b).
Proof.
  intros Ha.
  unfold compare_pair_unguarded, numeric_report, similar, score, nonempty.
  rewrite !length_zero.
  destruct (is_empty (Numeric.pr_text ref_a)) eqn:Ha';
    [by destruct (Numeric.pr_text ref_a)|].
  destruct (is_empty (Numeric.pr_text ref_b)) eqn:Hb; [done|].
  rewrite truediv_max by (by destruct (Numeric.pr_text ref_b)). simpl.
  destruct (_ <? 0.6)%float; [done|]. simpl.
  by destruct (0.85 <? _)%float.
Qed.

Lemma numeric_compare_all body refs :
  (∀ ref_a ref_b, Numeric.pr_text ref_a ≠ [] →
                  body ref_a ref_b = Ok (numeric_report ref_a ref_b)) →
  Numeric.compare_all_with body refs
  = Ok (omap (λ ab, numeric_report ab.1 ab.2) (pairs refs)).
Proof.
  intros Hbody. induction refs as [|ref_a later IH]; [done|].
  cbn [Numeric.compare_all_with pairs].
  rewrite IH, length_zero, omap_app, omap_map.
  destruct (is_empty (Numeric.pr_text ref_a)) eqn:Ha.
  - rewrite (omap_none _ later); [done|]. intros b. cbn [fst snd].
    unfold numeric_report, similar, nonempty. by rewrite Ha.
  - rewrite (mapM_pure _ (numeric_report ref_a)).
    2:{ intros b. apply Hbody. by destruct (Numeric.pr_text ref_a). }
    cbn. by rewrite omap_map.
Qed.

(** With both quick ratios upper bounds of the ratio, the guarded body
    agrees with the unguarded one. *)
Lemma guarded_compare_pair ref_a ref_b :
  (∀ a b, (ratio a b <=? quick_ratio a b)%float = true) →
  (∀ a b, (ratio a b <=? real_quick_ratio a b)%float = true) →
  Numeric.compare_pair ref_a ref_b = compare_pair_unguarded ref_a ref_b.
Proof.
  intros Hquick Hreal. unfold Numeric.compare_pair, compare_pair_unguarded.
  destruct (length (Numeric.pr_text ref_b) =? 0)%nat; [done|].
  destruct (truediv _ _) as [q|e]; [|done]. simpl.
  destruct (q <? 0.6)%float; [done|].
  destruct (real_quick_ratio _ _ <? 0.85)%float eqn:Hr.
  { by rewrite (below_upper_bound _ _ _ Hr (Hreal _ _)). }
  destruct (quick_ratio _ _ <? 0.85)%float eqn:Hq.
  { by rewrite (below_upper_bound _ _ _ Hq (Hquick _ _)). }
  done.
Qed.

Lemma compare_all_with_ext body1 body2 refs :
  (∀ a b, body1 a b = body2 a b) →
  Numeric.compare_all_with body1 refs = Numeric.compare_all_with body2 refs.
Proof.
  intros Hext. induction refs as [|ref_a later IH]; [done|].
  cbn [Numeric.compare_all_with]. rewrite IH.
  by rewrite (mapM_ext _ _ later (Hext ref_a)).
Qed.

Lemma elem_of_reports {A D} (report : A → A → option D) (refs : list A) d :
  d ∈ omap (λ ab, report ab.1 ab.2) (pairs refs) ↔
  ∃ i j a b, (i < j)%nat ∧ refs !! i = Some a ∧ refs !! j = Some b
             ∧ report a b = Some d.
Proof.
  rewrite list_elem_of_omap. split.
  - intros ([a b] & Hab & Hd). apply elem_of_pairs in Hab as (i & j & ?).
    exists i, j, a, b. naive_solver.
  - intros (i & j & a & b & Hij & Hi & Hj & Hd).
    exists (a, b). split; [|done]. apply elem_of_pairs. eauto.
Qed.

Lemma apa_report_spec ref_a ref_b d :
  apa_report ref_a ref_b = Some d ↔
  ref_a.2 ≠ [] ∧ ref_b.2 ≠ []
  ∧ (float_of_len (length ref_a.2 `min` length ref_b.2)
     / float_of_len (length ref_a.2 `max` length ref_b.2) <? 0.6)%float = false
  ∧ (0.85 <? ratio ref_a.2 ref_b.2)%float = true
  ∧ d = APA.Duplicate ref_b.1 (take 100 ref_b.2) ref_a.1
          (round1 (ratio ref_a.2 ref_b.2 * 100)%float).
Proof.
  unfold apa_report, score. pose proof (similar_spec ref_a.2 ref_b.2) as Hs.
  destruct (similar ref_a.2 ref_b.2); naive_solver.
Qed.

Lemma numeric_report_spec ref_a ref_b d :
  numeric_report ref_a ref_b = Some d ↔
  Numeric.pr_text ref_a ≠ [] ∧ Numeric.pr_text ref_b ≠ []
  ∧ (float_of_len (length (Numeric.pr_text ref_a) `min` length (Numeric.pr_text ref_b))
     / float_of_len (length (Numeric.pr_text ref_a) `max` length (Numeric.pr_text ref_b))
     <? 0.6)%float = false
  ∧ (0.85 <? ratio (Numeric.pr_text ref_a) (Numeric.pr_text ref_b))%float = true
  ∧ d = Numeric.Duplicate (Numeric.pr_id ref_b)
          (take 100 (Numeric.pr_text ref_b) ++ lit "...")
          (Numeric.pr_id ref_a)
          (round1 (ratio (Numeric.pr_text ref_a) (Numeric.pr_text ref_b) * 100)%float).
Proof.
  unfold numeric_report, score.
  pose proof (similar_spec (Numeric.pr_text ref_a) (Numeric.pr_text ref_b)) as Hs.
  destruct (similar _ _); naive_solver.
Qed.

(** [find_duplicates] of the name-year file.  The text of an entry is
    the text that [reference_details] holds for its key, or its display
    string when it holds none.  Every pair of entries is visited once,
    the earlier-indexed first.  A pair is skipped when either text is
    empty or when min(len)/max(len) < 0.6; otherwise the later entry is
    reported as a duplicate of the earlier one exactly when the
    similarity ratio of the two texts exceeds 0.85, with the first 100
    characters of its text and round(ratio*100, 1) as its score. *)
Theorem name_year_duplicates references reference_details :
  ∃ ds,
    APA.find_duplicates references reference_details = Ok ds
    ∧ ∀ d, d ∈ ds ↔
        ∃ i j key_a data_a key_b data_b text_a text_b,
          (i < j)%nat
          ∧ references !! i = Some (key_a, data_a)
          ∧ references !! j = Some (key_b, data_b)
          ∧ text_a = default (APA.rf_display data_a)
                       (APA.rd_text <$> dict_get key_a reference_details)
          ∧ text_b = default (APA.rf_display data_b)
                       (APA.rd_text <$> dict_get key_b reference_details)
          ∧ text_a ≠ [] ∧ text_b ≠ []
          ∧ (float_of_len (length text_a `min` length text_b)
             / float_of_len (length text_a `max` length text_b)
             <? 0.6)%float = false
          ∧ (0.85 <? ratio text_a text_b)%float = true
          ∧ d = APA.Duplicate key_b (take 100 text_b) key_a
                  (round1 (ratio text_a text_b * 100)%float).
Proof.
  eexists. split; [apply apa_compare_all|].
  intros d. rewrite elem_of_reports. setoid_rewrite apa_report_spec.
  assert (∀ kd : str * APA.reference,
            APA.entry_text reference_details kd
            = (kd.1, default (APA.rf_display kd.2)
                       (APA.rd_text <$> dict_get kd.1 reference_details)))
    as Htext.
  { intros kd. unfold APA.entry_text.
    by destruct (dict_get kd.1 reference_details). }
  split.
  - intros (i & j & ref_a & ref_b & Hij & Hi & Hj & Hrest).
    rewrite list_lookup_fmap in Hi, Hj.
    destruct (references !! i) as [[key_a data_a]|] eqn:Ei; [|done].
    destruct (references !! j) as [[key_b data_b]|] eqn:Ej; [|done].
    cbn in Hi, Hj. rewrite Htext in Hi, Hj.
    injection Hi as <-. injection Hj as <-. cbn [fst snd] in Hrest.
    destruct Hrest as (Ha & Hb & Hq & Hr & ->).
    eexists i, j, key_a, data_a, key_b, data_b, _, _.
    split_and!;
      [done|done|done|reflexivity|reflexivity
      |exact Ha|exact Hb|exact Hq|exact Hr|reflexivity].
  - intros (i & j & key_a & data_a & key_b & data_b & text_a & text_b
            & Hij & Hi & Hj & -> & -> & Hrest).
    destruct Hrest as (Ha & Hb & Hq & Hr & ->).
    eexists i, j, (key_a, _), (key_b, _). cbn [fst snd].
    split_and!;
      [done
      |rewrite list_lookup_fmap, Hi; cbn; by rewrite Htext
      |rewrite list_lookup_fmap, Hj; cbn; by rewrite Htext
      |exact Ha|exact Hb|exact Hq|exact Hr|reflexivity].
Qed.

(** [ReferenceProcessor.find_duplicates] of the numeral file, when
    difflib's two quick ratios are upper bounds of its ratio.  The text
    of an entry is the text of its paragraph, stripped, with the leading
    number removed.  Every pair of entries is visited once, the
    earlier-indexed first.  A pair is skipped when either text is empty
    or when min(len)/max(len) < 0.6; otherwise the later entry is reported
    as a duplicate of the earlier one exactly when the similarity ratio of
    the two texts exceeds 0.85, with the first 100 characters of its text
    followed by "..." and round(ratio*100, 1) as its score. *)
Theorem numeral_duplicates ref_objects :
  (∀ a b, (ratio a b <=? quick_ratio a b)%float = true) →
  (∀ a b, (ratio a b <=? real_quick_ratio a b)%float = true) →
  ∃ ds,
    Numeric.find_duplicates ref_objects = Ok ds
    ∧ ∀ d, d ∈ ds ↔
        ∃ i j obj_a obj_b text_a text_b,
          (i < j)%nat
          ∧ ref_objects !! i = Some obj_a ∧ ref_objects !! j = Some obj_b
          ∧ text_a = sub Numeric.LEADING_NUMBERING []
                         (strip (p_text (Numeric.ro_para obj_a)))
          ∧ text_b = sub Numeric.LEADING_NUMBERING []
                         (strip (p_text (Numeric.ro_para obj_b)))
          ∧ text_a ≠ [] ∧ text_b ≠ []
          ∧ (float_of_len (length text_a `min` length text_b)
             / float_of_len (length text_a `max` length text_b)
             <? 0.6)%float = false
          ∧ (0.85 <? ratio text_a text_b)%float = true
          ∧ d = Numeric.Duplicate (Numeric.ro_id obj_b)
                  (take 100 text_b ++ lit "...") (Numeric.ro_id obj_a)
                  (round1 (ratio text_a text_b * 100)%float).
Proof.
  intros Hquick Hreal. eexists. split.
  { apply numeric_compare_all. intros ref_a ref_b Ha.
    rewrite guarded_compare_pair by done.
    by apply unguarded_compare_pair. }
  intros d. rewrite elem_of_reports. setoid_rewrite numeric_report_spec.
  split.
  - intros (i & j & ref_a & ref_b & Hij & Hi & Hj & Hrest).
    rewrite list_lookup_fmap in Hi, Hj.
    destruct (ref_objects !! i) as [obj_a|] eqn:Ei; [|done].
    destruct (ref_objects !! j) as [obj_b|] eqn:Ej; [|done].
    cbn in Hi, Hj. injection Hi as <-. injection Hj as <-.
    unfold Numeric.preprocess in Hrest.
    cbn [Numeric.pr_text Numeric.pr_id] in Hrest.
    destruct Hrest as (Ha & Hb & Hq & Hr & ->).
    eexists i, j, obj_a, obj_b, _, _.
    split_and!;
      [done|done|done|reflexivity|reflexivity
      |exact Ha|exact Hb|exact Hq|exact Hr|reflexivity].
  - intros (i & j & obj_a & obj_b & text_a & text_b
            & Hij & Hi & Hj & -> & -> & Hrest).
    destruct Hrest as (Ha & Hb & Hq & Hr & ->).
    exists i, j, (Numeric.preprocess obj_a), (Numeric.preprocess obj_b).
    unfold Numeric.preprocess. cbn [Numeric.pr_text Numeric.pr_id].
    split_and!;
      [done
      |by rewrite list_lookup_fmap, Hi
      |by rewrite list_lookup_fmap, Hj
      |exact Ha|exact Hb|exact Hq|exact Hr|reflexivity].
Qed.

(** C10.  When difflib's [quick_ratio] and [real_quick_ratio] are upper
    bounds of its [ratio], the two short-circuit guards of
    [ReferenceProcessor.find_duplicates] change nothing: the function
    returns what it returns with the guards removed, that is, a report for
    exactly the pairs (past the length checks) whose ratio exceeds 0.85. *)
Theorem C10_guards_do_not_change_result :
  (∀ a b, (ratio a b <=? quick_ratio a b)%float = true) →
  (∀ a b, (ratio a b <=? real_quick_ratio a b)%float = true) →
  ∀ ref_objects,
    Numeric.find_duplicates ref_objects = find_duplicates_unguarded ref_objects
    ∧ find_duplicates_unguarded ref_objects
      = Ok (omap (λ ab, if similar (Numeric.pr_text ab.1) (Numeric.pr_text ab.2)
                        then Some (Numeric.Duplicate (Numeric.pr_id ab.2)
                                     (take 100 (Numeric.pr_text ab.2) ++ lit "...")
                                     (Numeric.pr_id ab.1)
                                     (score (Numeric.pr_text ab.1)
                                            (Numeric.pr_text ab.2)))
                        else None)
                 (pairs (Numeric.preprocess <$> ref_objects)))
    ∧ (∀ text_a text_b,
         similar text_a text_b = true ↔
         text_a ≠ [] ∧ text_b ≠ []
         ∧ (float_of_len (length text_a `min` length text_b)
            / float_of_len (length text_a `max` length text_b)
            <? 0.6)%float = false
         ∧ (0.85 <? ratio text_a text_b)%float = true).
Proof.
  intros Hquick Hreal ref_objects. split_and!.
  - apply compare_all_with_ext. intros a b. by apply guarded_compare_pair.
  - apply numeric_compare_all. intros a b. apply unguarded_compare_pair.
  - apply similar_spec.
Qed.

End Facts.
End DuplicateFacts.

Module DuplicateExamples.
Import Py Docx Spec Examples DuplicateFacts.

#[local] Existing Instances basic_latin exact_difflib no_rounding.

Lemma same_text_bound a b : (same_text a b <=? same_text a b)%float = true.
Proof. unfold same_text. by destruct (str_eqb a b). Defined.

(** Two entries with the same text but for the number, and a third. *)
Lemma numeral_duplicates_witness :
  ∃ ds, Numeric.find_duplicates three_entries = Ok ds ∧ length ds = 1%nat.
Proof.
  destruct (numeral_duplicates (H0:=exact_difflib) three_entries
              same_text_bound same_text_bound) as (ds & Hds & _).
  exists ds. split; [done|].
  vm_compute in Hds. by injection Hds as <-.
Defined.

(** Two entries whose stored texts are the same. *)
Lemma name_year_duplicates_witness :
  let b := APA.find_references_in_bibliography (H2:=year_parser) same_start in
  ∃ ds, APA.find_duplicates (APA.references b) (APA.reference_details b)
        = Ok ds
        ∧ length ds = 1%nat.
Proof.
  cbn zeta.
  destruct (name_year_duplicates (H0:=exact_difflib)
              (APA.references
                 (APA.find_references_in_bibliography (H2:=year_parser)
                    same_start))
              (APA.reference_details
                 (APA.find_references_in_bibliography (H2:=year_parser)
                    same_start))) as (ds & Hds & _).
  exists ds. split; [done|].
  vm_compute in Hds. by injection Hds as <-.
Defined.

(** C6.  Two entries of a reference list that begin with the same
    fourteen authors and differ in all that follows.  The texts stored
    for them, cut at 150 characters, are equal, so the validation reports
    the second as a duplicate of the first with the score of equal texts,
    100.0; the similarity here is 1 for equal texts and 0 otherwise, so
    the ratio of the full texts is 0. *)
Theorem C6_long_entries_compared_cut :
  sea_currents ≠ printing_press
  ∧ take 150 sea_currents = take 150 printing_press
  ∧ ratio sea_currents printing_press = 0%float
  ∧ ∃ v d,
      APA.validate_document (H2:=year_parser) same_start = Ok v
      ∧ APA.rd_text <$> (APA.reference_details (APA.v_bibliography v)).*2
        = [take 150 sea_currents ++ lit "...";
           take 150 printing_press ++ lit "..."]
      ∧ APA.v_duplicates v = [d]
      ∧ APA.d_score d = 100%float.
Proof.
  split_and!.
  - apply (bool_decide_eq_false (sea_currents = printing_press)).
    by vm_compute.
  - by vm_compute.
  - by vm_compute.
  - destruct (APA.validate_document (H2:=year_parser) same_start)
      as [v|e] eqn:Hv; [|by vm_compute in Hv].
    vm_compute in Hv. injection Hv as <-.
    eexists _, _. split_and!; [reflexivity|by vm_compute|reflexivity|].
    by vm_compute.
Qed.

Lemma C10_guards_witness :
  Numeric.find_duplicates three_entries
  = find_duplicates_unguarded three_entries.
Proof.
  apply (C10_guards_do_not_change_result (H0:=exact_difflib)
           same_text_bound same_text_bound).
Defined.

End DuplicateExamples.

(* ===================================================================== *)
(** * Properties of ReferenceAPAValidation.py                             *)
(* ===================================================================== *)

Module APAFacts.
Import Py APA Spec Examples PyFacts.

Section Facts.
Context `{Unicode} `{Difflib} `{Rounding} `{Parser}.

(** ** Et al. *)

Lemma contains_char c s : contains [c] s = true ↔ c ∈ s.
Proof.
  induction s as [|d s IH]; simpl.
  - split; [done|by intros ?%elem_of_nil].
  - rewrite orb_true_iff, IH, andb_true_r, N.eqb_eq, elem_of_cons. done.
Qed.

(** [s.split(c)[0]] is the text before the first [c]. *)
Lemma split_on_head c s :
  let first := hd [] (split_on c s) in
  c ∉ first ∧ (s = first ∨ ∃ t, s = first ++ c :: t).
Proof.
  induction s as [|d s [IH1 IH2]]; simpl.
  { split; [by intros ?%elem_of_nil|by left]. }
  destruct (N.eqb_spec d c) as [->|Hne]; simpl.
  { split; [by intros ?%elem_of_nil|right; by exists s]. }
  destruct (split_on c s) as [|f fs] eqn:Hsplit; simpl in *.
  - split; [set_solver|]. destruct IH2 as [->|[t ->]]; [by left|right; eauto].
  - split; [set_solver|].
    destruct IH2 as [->|[t ->]]; [by left|right; by exists t].
Qed.

(** What [^[A-Z]\.?$] accepts. *)
Lemma initial_spec s :
  is_Some (re_match INITIAL s) ↔
  ∃ c, is_upper_az c = true
       ∧ (s = [c] ∨ s = [c; 46%N] ∨ s = [c; 10%N] ∨ s = [c; 46%N; 10%N]).
Proof.
  unfold re_match, exec, INITIAL, Opt, Chr. cbn [rx prev rest caps].
  destruct s as [|c s].
  { split; [by intros [? [=]]|].
    by intros (c & _ & [?|[?|[?|?]]]). }
  destruct (is_upper_az c) eqn:Hc.
  2:{ split; [by intros [? [=]]|].
      intros (c' & Hc' & [?|[?|[?|?]]]); simplify_eq; congruence. }
  change (chr ".") with 46%N.
  destruct s as [|d [|e [|f s]]]; cbn -[N.eqb];
    repeat match goal with
           | |- context [(?a =? ?b)%N] => destruct (N.eqb_spec a b)
           end.
  all: split.
  all: try (intros [? ?]; simplify_eq; exists c; split; [done|]; by eauto 10).
  all: try (intros (c' & Hc' & [?|[?|[?|?]]]); simplify_eq; by eauto).
  all: by intros [? [=]].
Qed.

Lemma author_count_spec full :
  author_count full =
  if bool_decide (38%N ∈ full) then
    S (length (filter (λ p, strip p ≠ [] ∧ re_match INITIAL (strip p) = None)
                      (split_on 44 (hd [] (split_on 38 full)))))
  else 1%nat.
Proof.
  unfold author_count. change (lit "&") with [38%N].
  rewrite (bool_decide_ext _ _ (symmetry (contains_char 38 full))).
  destruct (contains [38%N] full); simpl; [|done].
  rewrite Nat.add_1_r. f_equal. f_equal.
  apply list_filter_iff. intros p. unfold nonempty.
  destruct (strip p); cbn; naive_solver.
Qed.

(** C5.  For a matched pair, the author count of the reference is 1 when
    its full author string has no "&", and otherwise one more than the
    number of comma-separated segments before the first "&" that are
    neither blank nor a bare initial ([split_on_head], [initial_spec]).  A
    citation with "et al" and a count of at most 2 gives an error naming
    the reference's author; a citation without "et al" and a count of at
    least 3 gives a warning suggesting "<first surname> et al."; anything
    else gives nothing, so at most one of the two fires.  The four cases of
    the specification evaluate as stated. *)
Theorem C5_et_al_misuse :
  (∀ cite_data ref_data,
     let has_et_al := contains (lit "et al") (lower (strip (c_author cite_data))) in
     let count := author_count (rf_full_author ref_data) in
     let plural := if (1 <? count)%nat then lit "s" else [] in
     let suggestion :=
       extract_first_surname (rf_full_author ref_data) ++ lit " et al." in
     count =
       (if bool_decide (38%N ∈ rf_full_author ref_data) then
          S (length (filter
                       (λ p, strip p ≠ [] ∧ re_match INITIAL (strip p) = None)
                       (split_on 44 (hd [] (split_on 38 (rf_full_author ref_data))))))
        else 1%nat)
     ∧ check_et_al_misuse cite_data ref_data =
       if has_et_al && (count <=? 2)%nat then
         Some (EtAlCheck
                 (lit "Change author per reference - use '" ++ rf_author ref_data
                  ++ lit "', not 'et al.' (reference has only "
                  ++ str_of_int (Z.of_nat count) ++ lit " author" ++ plural
                  ++ lit ")")
                 count (rf_author ref_data) None)
       else if negb has_et_al && (3 <=? count)%nat then
         Some (EtAlCheck
                 (lit "Consider using 'et al.' - reference has "
                  ++ str_of_int (Z.of_nat count)
                  ++ lit " authors, APA allows '" ++ suggestion ++ lit "'")
                 count suggestion (Some (lit "warning")))
       else None)
  ∧ (∀ cite_data ref_data chk,
       check_et_al_misuse cite_data ref_data = Some chk →
       let has_et_al := contains (lit "et al") (lower (strip (c_author cite_data))) in
       ea_author_count chk = author_count (rf_full_author ref_data)
       ∧ (ea_severity chk = None ↔
          has_et_al = true ∧ (ea_author_count chk ≤ 2)%nat)
       ∧ (ea_severity chk = Some (lit "warning") ↔
          has_et_al = false ∧ (3 ≤ ea_author_count chk)%nat))
  ∧ check_et_al_misuse (cited "Smith et al.") (listed "Smith" "Smith, J.")
    = Some (EtAlCheck
              (lit "Change author per reference - use 'Smith', not 'et al.' (reference has only 1 author)")
              1 (lit "Smith") None)
  ∧ check_et_al_misuse (cited "Smith et al.")
      (listed "Smith & Jones" "Smith, J., & Jones, M.")
    = Some (EtAlCheck
              (lit "Change author per reference - use 'Smith & Jones', not 'et al.' (reference has only 2 authors)")
              2 (lit "Smith & Jones") None)
  ∧ check_et_al_misuse (cited "Smith")
      (listed "Smith et al." "Smith, J., Jones, M., & Brown, K.")
    = Some (EtAlCheck
              (lit "Consider using 'et al.' - reference has 3 authors, APA allows 'Smith et al.'")
              3 (lit "Smith et al.") (Some (lit "warning")))
  ∧ check_et_al_misuse (cited "Smith et al.")
      (listed "Smith et al." "Smith, J., Jones, M., & Brown, K.")
    = None.
Proof.
  split_and!; [| |by vm_compute..].
  - intros cite_data ref_data. cbn zeta. split; [apply author_count_spec|done].
  - intros cite_data ref_data chk. unfold check_et_al_misuse. cbn zeta.
    destruct (contains (lit "et al") (lower (strip (c_author cite_data))));
      cbn [andb negb];
      destruct (Nat.leb_spec (author_count (rf_full_author ref_data)) 2);
      try destruct (Nat.leb_spec 3 (author_count (rf_full_author ref_data)));
      intros [= <-]; cbn; split_and!; try done; try (split; [done|lia]);
      try (split; [by intros []|]); try lia; naive_solver lia.
Qed.

(** ** The word-subset rule of the smart match *)

Lemma split_ws_go_nil cur s :
  split_ws_go cur s = [] → cur = [] ∧ Forall (λ c, isspace c = true) s.
Proof.
  revert cur. induction s as [|c s IH]; intros cur; simpl.
  - case_bool_decide; [done|]. by intros.
  - destruct (isspace c) eqn:Hc.
    + case_bool_decide; [|done]. intros [_ ?]%IH. by split; [|constructor].
    + by intros [? _]%IH.
Qed.

Lemma split_ws_nil s : split_ws s = [] → Forall (λ c, isspace c = true) s.
Proof. by intros [_ ?]%split_ws_go_nil. Qed.

Lemma space_not_lower c : isspace c = true → is_lower_az c = false.
Proof.
  unfold isspace, is_lower_az, in_range.
  rewrite !orb_true_iff, !andb_true_iff, andb_false_iff,
    !N.leb_le, !N.eqb_eq, !N.leb_gt. lia.
Qed.

Lemma exec_word_stops pv t : stops is_lower_az t → exec WORD pv t = None.
Proof.
  intros Ht. unfold exec, WORD. rewrite rx_seq, rx_wordb.
  destruct (xorb _ _); [|done]. rewrite rx_seq.
  by apply (cls_stops is_lower_az).
Qed.

Lemma findall_word_spaces s : ∀ pv,
  Forall (λ c, isspace c = true) s → findall_from WORD pv s = [].
Proof.
  unfold findall_from.
  induction s as [|c s IH]; intros pv Hs.
  - cbn [scan]. by rewrite exec_word_stops.
  - apply Forall_cons in Hs as [Hc Hs].
    rewrite scan_unmatched by (apply exec_word_stops; by apply space_not_lower).
    cbn. by apply IH.
Qed.

(** A text with a word has a token. *)
Lemma words_split_ws s w : w ∈ words s → split_ws s ≠ [].
Proof.
  intros Hw Hnil. apply split_ws_nil in Hnil.
  unfold words, findall in Hw. rewrite findall_word_spaces in Hw by done.
  set_solver.
Qed.

(** C7 (as amended).  For a candidate that passes the year test: when the
    citation's set of significant words (lowercase words of two letters or
    more, without and, the, et, al) has at least two elements and is a
    subset of the candidate's word set, rule (d) holds and the candidate is
    accepted; it is the reference returned unless an earlier candidate is
    accepted (or fails) first.  With fewer than two significant words rule
    (d) never holds. *)
Theorem C7_word_subset_rule :
  (∀ sc ref_data,
     let ref_norm := normalize_text_for_comparison (rf_full_author ref_data) in
     year_ok sc ref_data = true →
     (1 < size (cite_words sc))%nat →
     cite_words sc ⊆ words ref_norm →
     rule_d sc ref_norm = true
     ∧ candidate_matches sc ref_data = Ok true
     ∧ ∀ earlier ref_key later,
         Forall (λ kd, candidate_matches sc kd.2 = Ok false) earlier →
         first_match sc (earlier ++ (ref_key, ref_data) :: later)
         = Ok (Some ref_key))
  ∧ (∀ sc ref_norm,
       (size (cite_words sc) ≤ 1)%nat → rule_d sc ref_norm = false).
Proof.
  split.
  - intros sc ref_data ref_norm Hyear Hsize Hsub.
    assert (rule_d sc ref_norm = true) as Hd.
    { unfold rule_d. destruct (Nat.ltb_spec 1 (size (cite_words sc))); [|lia].
      by apply bool_decide_eq_true_2. }
    assert (candidate_matches sc ref_data = Ok true) as Hmatch.
    { unfold candidate_matches. rewrite Hyear. cbn [negb]. fold ref_norm.
      destruct (rule_a sc ref_norm); [done|].
      destruct (rule_b sc ref_norm); [done|].
      unfold rule_c. destruct (sc_is_etal sc); [|cbn; by rewrite Hd].
      destruct (size_pos_elem_of (cite_words sc)) as [w Hw]; [lia|].
      pose proof (words_split_ws ref_norm w (Hsub w Hw)) as Hsplit.
      destruct (split_ws ref_norm) as [|first rest]; [done|].
      cbn. destruct (str_eqb _ _); [done|]. by rewrite Hd. }
    split_and!; [done..|].
    intros earlier ref_key later Hearlier.
    induction Hearlier as [|[k d] earlier Hk _ IH]; cbn.
    + by rewrite Hmatch.
    + cbn in Hk. by rewrite Hk.
  - intros sc ref_norm Hsize. unfold rule_d.
    by destruct (Nat.ltb_spec 1 (size (cite_words sc))); [lia|].
Qed.

(** ** The diagnosis of an unresolved citation *)

(** The author part of a key holds no "|", so the text before the first
    "|" of a key is its author part. *)
Lemma author_part_no_bar a :
  124%N ∉ sub SPACES (lit " ") (strip (sub PUNCTUATION [] a)).
Proof.
  intros [Hin|Hin]%sub_elem_of.
  - apply strip_elem_of in Hin. unfold PUNCTUATION in Hin.
    rewrite sub_class in Hin. by apply list_elem_of_filter in Hin as [Hp _].
  - by apply list_elem_of_singleton in Hin.
Qed.

Lemma normalize_citation_key_spec a y :
  normalize_citation_key a y = author_key a ++ lit "|" ++ y.
Proof.
  unfold author_key, normalize_citation_key. cbn zeta.
  change (lit "|" ++ lit "0000") with (124%N :: lit "0000").
  by rewrite split_on_app by apply author_part_no_bar.
Qed.

Lemma author_key_strip a : author_key (strip a) = author_key a.
Proof.
  unfold author_key, normalize_citation_key. cbn zeta.
  change (lit "|" ++ lit "0000") with (124%N :: lit "0000").
  rewrite !split_on_app by apply author_part_no_bar.
  unfold PUNCTUATION. rewrite !sub_class. f_equal. apply strip_filter.
  intros c Hc. by rewrite Hc, orb_true_r.
Qed.

Lemma key_nonempty a y : nonempty (normalize_citation_key a y) = true.
Proof.
  rewrite normalize_citation_key_spec. by destruct (author_key a).
Qed.

(** Both dictionaries are keyed, and the references have distinct keys. *)
Lemma add_citation_keyed i acc cite :
  keyed c_author c_year acc.1 →
  keyed c_author c_year (add_citation i acc cite).1.
Proof.
  destruct acc as [cits locs]. unfold add_citation, keyed. cbn [fst].
  rewrite !Forall_forall. intros Hk kv Hin.
  destruct (dict_get _ cits) as [c|] eqn:Hget;
    apply dict_set_elem_of in Hin as [->|Hin]; try by apply Hk.
  - apply dict_get_Some in Hget. by apply Hk in Hget.
  - done.
Qed.

Lemma find_citations_keyed paragraphs :
  keyed c_author c_year (find_citations_in_text paragraphs).1.
Proof.
  unfold find_citations_in_text.
  assert (keyed c_author c_year (([], []) : dict citation * dict (list nat)).1)
    as Hacc by constructor.
  revert Hacc. generalize (([], []) : dict citation * dict (list nat)).
  generalize 0%nat.
  induction paragraphs as [|para paragraphs IH]; intros i acc Hacc; [done|].
  cbn [find_citations_from]. destruct (contains _ para); [done|].
  apply IH. clear IH. revert acc Hacc.
  induction (parse_citation para) as [|cite cites IH]; intros acc Hacc; [done|].
  cbn [fold_left]. by apply IH, add_citation_keyed.
Qed.

Lemma dict_mem_false {V} k (d : dict V) :
  dict_mem k d = false → dict_get k d = None.
Proof.
  unfold dict_mem. intros Hm%bool_decide_eq_false.
  destruct (dict_get k d); [by destruct Hm|done].
Qed.

Lemma add_reference_keyed i text ref_data b :
  keyed rf_author rf_year (references b) ∧ NoDup (references b).*1 →
  keyed rf_author rf_year (references (add_reference i text ref_data b))
  ∧ NoDup (references (add_reference i text ref_data b)).*1.
Proof.
  intros [Hk Hnd]. unfold add_reference.
  destruct (dict_mem _ (references b)) eqn:Hmem; [done|].
  apply dict_mem_false in Hmem. cbn [references].
  rewrite dict_set_fresh by done. split.
  - apply Forall_app. split; [done|]. by repeat constructor.
  - rewrite fmap_app. apply NoDup_app. split_and!; [done| |apply NoDup_singleton].
    intros k [[k' d] [Hk' Hin]]%list_elem_of_fmap ->%list_elem_of_singleton.
    cbn in Hk'. subst k'. by eapply dict_get_None.
Qed.

Lemma find_references_keyed paragraphs :
  let refs := references (find_references_in_bibliography paragraphs) in
  keyed rf_author rf_year refs ∧ NoDup refs.*1.
Proof.
  unfold find_references_in_bibliography.
  assert (keyed rf_author rf_year (references (Bibliography [] [] []))
          ∧ NoDup (references (Bibliography [] [] [])).*1) as Hb.
  { split; constructor. }
  revert Hb. generalize (Bibliography [] [] []), false, 0%nat.
  induction paragraphs as [|para paragraphs IH]; intros b sec i Hb; [done|].
  cbn [find_references_from]. cbn zeta.
  repeat match goal with
         | |- context [if ?c then _ else _] => destruct c
         | |- context [match parse_reference ?t with _ => _ end] =>
             destruct (parse_reference t)
         end; apply IH; try done; by apply add_reference_keyed.
Qed.

(** A citation the matcher leaves unresolved has no reference under its
    own key. *)
Lemma match_citation_none refs abbr k c :
  match_citation refs abbr k c = Ok None →
  nonempty k = true → dict_get k refs = None.
Proof.
  unfold match_citation. intros Hm Hk.
  destruct (dict_mem k refs) eqn:Hmem; [|by apply dict_mem_false].
  cbn in Hm. by rewrite Hk in Hm.
Qed.

Lemma matches_grow refs abbr cits : ∀ m0 m,
  foldM (λ (m : matches) (kc : str * citation),
           r ← match_citation refs abbr kc.1 kc.2;
           Ok (match r with
               | Some matched_ref_key =>
                   Matches ({[kc.1]} ∪ matched_citations m)
                           ({[matched_ref_key]} ∪ matched_references m)
                           (dict_set kc.1 matched_ref_key (matched_pairs m))
               | None => m
               end))
        cits m0 = Ok m →
  matched_citations m0 ⊆ matched_citations m
  ∧ ∀ kc, kc ∈ cits → kc.1 ∉ matched_citations m →
          match_citation refs abbr kc.1 kc.2 = Ok None.
Proof.
  induction cits as [|kc cits IH]; intros m0 m; cbn [foldM].
  - intros [= ->]. split; [done|]. by intros ? ?%elem_of_nil.
  - destruct (match_citation refs abbr kc.1 kc.2) as [r|e] eqn:Hr; [|done].
    cbn. intros [Hsub Hall]%IH. split.
    + destruct r; cbn in Hsub; set_solver.
    + intros kc' [->|Hin]%elem_of_cons Hnot; [|by apply Hall].
      rewrite Hr. destruct r as [rk|]; [|done].
      destruct Hnot. apply Hsub. cbn. set_solver.
Qed.

Lemma unresolved_no_reference cits refs abbr m k c :
  keyed c_author c_year cits →
  get_citation_matches cits refs abbr = Ok m →
  (k, c) ∈ unresolved m cits →
  dict_get (normalize_citation_key (strip (c_author c)) (c_year c)) refs = None.
Proof.
  intros Hk Hm [Hnot Hin]%list_elem_of_filter.
  apply matches_grow in Hm as [_ Hm]. specialize (Hm _ Hin Hnot).
  unfold keyed in Hk. rewrite Forall_forall in Hk.
  specialize (Hk _ Hin). cbn in Hk, Hm.
  rewrite normalize_citation_key_spec, author_key_strip,
    <- normalize_citation_key_spec, <- Hk.
  eapply match_citation_none; [done|]. rewrite Hk. apply key_nonempty.
Qed.

Lemma find_year_match_spec a refs :
  match find_year_match a refs with
  | Some (ref_key, ref_data) =>
      ∃ earlier later,
        refs = earlier ++ (ref_key, ref_data) :: later
        ∧ Forall (λ kd, ¬ same_author a kd.2) earlier
        ∧ same_author a ref_data
  | None => Forall (λ kd, ¬ same_author a kd.2) refs
  end.
Proof.
  unfold find_year_match, same_author.
  induction refs as [|[k d] refs IH]; cbn [find]; [constructor|].
  unfold str_eqb at 1. cbn [snd]. case_bool_decide as Hsame.
  - by exists [], refs.
  - destruct (find _ refs) as [[rk rd]|].
    + destruct IH as (earlier & later & -> & He & Hs).
      exists ((k, d) :: earlier), later. split_and!; [done| |done].
      by constructor.
    + by constructor.
Qed.

(** The loop of [check_spelling_mismatch] keeps the first reference of
    the largest ratio above 0.8. *)
Lemma check_spelling_mismatch_spec a refs :
  match check_spelling_mismatch a refs with
  | Some ref_key =>
      ∃ ref_data,
        (ref_key, ref_data) ∈ refs
        ∧ (0.8 <? similarity a ref_data)%float = true
        ∧ Forall (λ kd, (similarity a ref_data <? similarity a kd.2)%float
                        = false) refs
  | None => Forall (λ kd, (0.8 <? similarity a kd.2)%float = false) refs
  end.
Proof.
  unfold check_spelling_mismatch. cbn zeta.
  set (step := λ (acc : option str * float) (kd : str * reference), _).
  set (inv := λ (seen : dict reference) (acc : option str * float),
         match acc.1 with
         | Some ref_key =>
             ∃ ref_data,
               (ref_key, ref_data) ∈ seen
               ∧ acc.2 = similarity a ref_data
               ∧ (0.8 <? acc.2)%float = true
               ∧ Forall (λ kd, (acc.2 <? similarity a kd.2)%float = false) seen
         | None =>
             acc.2 = 0%float
             ∧ Forall (λ kd, (0.8 <? similarity a kd.2)%float = false) seen
         end).
  assert (∀ later seen acc,
            inv seen acc → inv (seen ++ later) (fold_left step later acc))
    as Hloop.
  { induction later as [|[k d] later IH]; intros seen acc Hacc.
    { by rewrite app_nil_r. }
    cbn [fold_left]. rewrite (cons_middle _ seen), app_assoc. apply IH.
    clear IH. subst step. cbn beta. cbn [fst snd].
    fold (similarity a d).
    destruct acc as [[rk|] mx]; unfold inv in *; cbn [fst snd] in *.
    - destruct Hacc as (rd & Hin & -> & Hrd & Hall).
      destruct (0.8 <? similarity a d)%float eqn:Hd.
      + destruct (similarity a rd <? similarity a d)%float eqn:Hlt;
          cbn [fst snd].
        * exists d. split_and!; [set_solver|done..|].
          apply Forall_app. split; [|repeat constructor; apply ltb_irrefl].
          eapply Forall_impl; [exact Hall|]. intros kd Hkd. cbn in *.
          destruct (similarity a d <? similarity a kd.2)%float eqn:Hkd';
            [|done].
          by rewrite (ltb_trans _ _ _ Hlt Hkd') in Hkd.
        * exists rd. split_and!; [set_solver|done..|].
          apply Forall_app. split; [done|]. by repeat constructor.
      + cbn [fst snd]. exists rd. split_and!; [set_solver|done..|].
        apply Forall_app. split; [done|]. repeat constructor. cbn.
        destruct (similarity a rd <? similarity a d)%float eqn:Hlt; [|done].
        by rewrite (ltb_trans _ _ _ Hrd Hlt) in Hd.
    - destruct Hacc as [-> Hall].
      destruct (0.8 <? similarity a d)%float eqn:Hd.
      + assert ((0 <? similarity a d)%float = true) as ->.
        { by apply (ltb_trans _ 0.8%float). }
        cbn [fst snd]. exists d. split_and!; [set_solver|done..|].
        apply Forall_app. split; [|repeat constructor; apply ltb_irrefl].
        eapply Forall_impl; [exact Hall|]. intros kd Hkd. cbn in *.
        destruct (similarity a d <? similarity a kd.2)%float eqn:Hkd'; [|done].
        by rewrite (ltb_trans _ _ _ Hd Hkd') in Hkd.
      + cbn [fst snd]. split; [done|].
        apply Forall_app. split; [done|]. by repeat constructor. }
  specialize (Hloop refs [] (None, 0%float)). rewrite app_nil_l in Hloop.
  unfold inv in Hloop at 2.
  destruct (fold_left step refs (None, 0%float)) as [[rk|] mx];
    cbn [fst snd] in *.
  - destruct Hloop as (rd & Hin & -> & Hrd & Hall); [by split|]. by exists rd.
  - by destruct Hloop as [_ Hall]; [by split|].
Qed.

(** The cascade, for a citation that has no reference under its own
    key. *)
Lemma diagnose_spec a y refs :
  keyed rf_author rf_year refs → NoDup refs.*1 →
  dict_get (normalize_citation_key a y) refs = None →
  diagnosed a y refs (diagnose a refs).
Proof.
  intros Hk Hnd Hnone. unfold diagnose, keyed in *.
  rewrite Forall_forall in Hk.
  pose proof (find_year_match_spec a refs) as Hyear.
  destruct (find_year_match a refs) as [[rk rd]|].
  { destruct Hyear as (earlier & later & -> & He & Hs).
    exists earlier, later. split_and!; [done..|]. intros Hy.
    apply (dict_get_None _ _ rd) in Hnone. destruct Hnone.
    unfold same_author in Hs.
    rewrite normalize_citation_key_spec, <- Hs, <- Hy,
      <- normalize_citation_key_spec.
    assert ((rk, rd) ∈ earlier ++ (rk, rd) :: later) as Hin by set_solver.
    apply Hk in Hin as Hrk. cbn in Hrk. by rewrite <- Hrk. }
  pose proof (check_spelling_mismatch_spec a refs) as Hspell.
  destruct (check_spelling_mismatch a refs) as [rk|]; [|done].
  destruct Hspell as (rd & Hin & Hrd & Hall).
  apply Hk in Hin as Hrk. cbn in Hrk.
  rewrite Hrk at 1. rewrite key_nonempty.
  split; [done|]. exists rd. split_and!; [|done..].
  by apply dict_get_NoDup.
Qed.

(** The main loop adds, for each unresolved citation, the entry of its
    diagnosis to one of the three lists, and nothing else to them. *)
Lemma diagnose_loop m refs locs cits : ∀ dg0 dg,
  foldM (diagnose_citation m refs locs) cits dg0 = Ok dg →
  year_mismatches dg
  = year_mismatches dg0 ++ omap (year_entry locs refs) (unresolved m cits)
  ∧ spelling_mismatches dg
    = spelling_mismatches dg0
      ++ omap (spelling_entry locs refs) (unresolved m cits)
  ∧ missing_refs dg
    = missing_refs dg0 ++ omap (missing_entry locs refs) (unresolved m cits).
Proof.
  induction cits as [|[k c] cits IH]; intros dg0 dg; cbn [foldM].
  { intros [= ->]. unfold unresolved. cbn. by rewrite !app_nil_r. }
  destruct (diagnose_citation m refs locs dg0 (k, c)) as [dg1|e] eqn:Hstep;
    [|done].
  cbn [mbind outcome_bind]. intros (Hy & Hs & Hm)%IH. clear IH.
  unfold unresolved in *. rewrite (filter_cons _ (k, c)). cbn [fst].
  unfold diagnose_citation in Hstep. cbn zeta in Hstep.
  case_bool_decide as Hk.
  - rewrite decide_False by (by intros []).
    destruct (dict_lookup k (matched_pairs m)) as [rk|]; [|done].
    cbn in Hstep. destruct (dict_lookup rk refs) as [rd|]; [|done].
    cbn in Hstep. by injection Hstep as <-.
  - rewrite decide_True by done. rewrite !omap_cons.
    remember (year_entry locs refs (k, c)) as ye eqn:Hye.
    remember (spelling_entry locs refs (k, c)) as se eqn:Hse.
    remember (missing_entry locs refs (k, c)) as me eqn:Hme.
    unfold year_entry in Hye. unfold spelling_entry in Hse.
    unfold missing_entry in Hme. cbn [fst snd] in Hye, Hse, Hme.
    rewrite Hy, Hs, Hm. clear Hy Hs Hm.
    destruct (diagnose (strip (c_author c)) refs) as [rk rd|rk|].
    + injection Hstep as <-. subst. cbn. by rewrite <- app_assoc.
    + unfold dict_lookup in Hstep.
      destruct (dict_get rk refs) as [rd|]; [|done].
      cbn in Hstep. injection Hstep as <-. subst. cbn.
      by rewrite <- app_assoc.
    + injection Hstep as <-. subst. cbn. by rewrite <- app_assoc.
Qed.

Lemma one_entry_each locs refs todo :
  Forall (λ kc, diagnosed (strip (c_author kc.2)) (c_year kc.2) refs
                  (diagnose (strip (c_author kc.2)) refs)) todo →
  (length (omap (year_entry locs refs) todo)
   + length (omap (spelling_entry locs refs) todo)
   + length (omap (missing_entry locs refs) todo) = length todo)%nat.
Proof.
  induction 1 as [|kc todo Hkc _ IH]; [done|].
  rewrite !omap_cons, !length_app. cbn [length]. rewrite <- IH. clear IH.
  remember (year_entry locs refs kc) as ye eqn:Hye.
  remember (spelling_entry locs refs kc) as se eqn:Hse.
  remember (missing_entry locs refs kc) as me eqn:Hme.
  unfold year_entry in Hye. unfold spelling_entry in Hse.
  unfold missing_entry in Hme.
  destruct (diagnose (strip (c_author kc.2)) refs) as [rk rd|rk|].
  - subst. cbn. lia.
  - destruct Hkc as (_ & rd & Hrd & _). rewrite Hrd in Hse. subst. cbn. lia.
  - subst. cbn. lia.
Qed.

(** C4.  When [validate_document] returns, the year mismatches, the
    spelling mismatches and the missing references it reports are the
    entries of the citations the matcher left unresolved, each citation
    giving one entry to exactly one of the three lists, as its diagnosis
    says.  The diagnosis is a year mismatch, with the first such reference,
    when some reference has the citation's normalized author, and then that
    reference's year differs from the citation's; else it is a spelling
    mismatch when some reference's similarity ratio exceeds 0.8, the
    suggestion being a reference of the largest ratio; else the reference
    is missing. *)
Theorem C4_diagnosis_cascade paragraphs v :
  validate_document paragraphs = Ok v →
  let refs := references (v_bibliography v) in
  let locs := v_citation_locations v in
  let todo := unresolved (v_matches v) (v_citations v) in
  let dg := v_diagnostics v in
  year_mismatches dg = omap (year_entry locs refs) todo
  ∧ spelling_mismatches dg = omap (spelling_entry locs refs) todo
  ∧ missing_refs dg = omap (missing_entry locs refs) todo
  ∧ (length (year_mismatches dg) + length (spelling_mismatches dg)
     + length (missing_refs dg) = length todo)%nat
  ∧ ∀ k c, (k, c) ∈ todo →
      diagnosed (strip (c_author c)) (c_year c) refs
                (diagnose (strip (c_author c)) refs).
Proof.
  unfold validate_document.
  pose proof (find_citations_keyed paragraphs) as Hcits.
  pose proof (find_references_keyed paragraphs) as [Hrefs Hnd].
  destruct (find_citations_in_text paragraphs) as [cits locs].
  cbn [fst] in Hcits.
  set (b := find_references_in_bibliography paragraphs) in *.
  destruct (get_citation_matches cits (references b) (abbreviation_map b))
    as [m|] eqn:Hm; [|done].
  cbn [mbind outcome_bind bind].
  destruct (foldM (diagnose_citation m (references b) locs) cits
              (Diagnostics [] [] [] [] [] []))
    as [dg|] eqn:Hdg; [|done].
  cbn [mbind outcome_bind bind].
  destruct (find_duplicates _ _) as [dups|]; [|done].
  intros [= <-]. cbn.
  apply diagnose_loop in Hdg as (Hy & Hs & Hmiss). cbn in Hy, Hs, Hmiss.
  assert (∀ k c, (k, c) ∈ unresolved m cits →
            diagnosed (strip (c_author c)) (c_year c) (references b)
              (diagnose (strip (c_author c)) (references b))) as Hall.
  { intros k c Hin. apply diagnose_spec; [done..|].
    by eapply unresolved_no_reference. }
  split_and!; [done..| |done].
  rewrite Hy, Hs, Hmiss. apply one_entry_each.
  apply Forall_forall. intros [k c]. apply Hall.
Qed.

End Facts.
End APAFacts.

Module APAExamples.
Import Py APA Spec Examples APAFacts.

#[local] Existing Instances basic_latin exact_difflib no_rounding silent_parser.

(** C7, as first stated, fails for a citation with one significant word:
    "Smith" is a word of the reference "Jones, A., & Smith, B." of the same
    year, and the smart match finds nothing. *)
Lemma C7_single_word_not_matched :
  ∃ sc, smart_citation_of (cited "Smith") = Ok sc
        ∧ year_ok sc (listed "Jones & Smith" "Jones, A., & Smith, B.") = true
        ∧ cite_words sc = {[ lit "smith" ]}
        ∧ cite_words sc
          ⊆ words (normalize_text_for_comparison (lit "Jones, A., & Smith, B."))
        ∧ rule_d sc (normalize_text_for_comparison (lit "Jones, A., & Smith, B."))
          = false
        ∧ check_smart_match (cited "Smith")
            [(lit "Jones & Smith|2020",
              listed "Jones & Smith" "Jones, A., & Smith, B.")]
          = Ok None.
Proof.
  eexists. split; [vm_compute; reflexivity|].
  split_and!; try (by vm_compute).
  by apply (bool_decide_unpack _); vm_compute.
Qed.

Lemma C7_two_words_witness :
  check_smart_match (cited "Smith and Jones")
    [(lit "Brown|2020", listed "Brown" "Brown, K.");
     (lit "Jones & Smith|2020", listed "Jones & Smith" "Jones, A., & Smith, B.")]
  = Ok (Some (lit "Jones & Smith|2020")).
Proof.
  assert (smart_citation_of (cited "Smith and Jones")
          = Ok (SmartCitation (lit "2020") (lit "smith & jones") None false
                              (lit "smith"))) as Hsc by (by vm_compute).
  unfold check_smart_match. rewrite Hsc. cbn [mbind outcome_bind bind].
  apply (proj1 C7_word_subset_rule _
           (listed "Jones & Smith" "Jones, A., & Smith, B."))
    with (earlier := [(lit "Brown|2020", listed "Brown" "Brown, K.")]).
  - by vm_compute.
  - vm_compute. lia.
  - by apply (bool_decide_unpack _); vm_compute.
  - repeat constructor.
Defined.

Lemma C4_three_diagnoses_witness :
  ∃ v, validate_document (H2:=field_parser) three_diagnoses = Ok v
       ∧ ym_ref_key <$> year_mismatches (v_diagnostics v)
         = [lit "Smith|2021"]
       ∧ sm_ref_key <$> spelling_mismatches (v_diagnostics v)
         = [lit "Smith & Jones|2019"]
       ∧ mr_reference <$> missing_refs (v_diagnostics v)
         = [lit "Brown (2001)"]
       ∧ ∀ k c, (k, c) ∈ unresolved (v_matches v) (v_citations v) →
           diagnosed (strip (c_author c)) (c_year c)
             (references (v_bibliography v))
             (diagnose (strip (c_author c)) (references (v_bibliography v))).
Proof.
  destruct (validate_document (H2:=field_parser) three_diagnoses)
    as [v|e] eqn:Hv; [|by vm_compute in Hv].
  exists v. split; [done|].
  pose proof (C4_diagnosis_cascade (H2:=field_parser) _ _ Hv)
    as (_ & _ & _ & _ & Hall).
  vm_compute in Hv. injection Hv as <-.
  split_and!; [by vm_compute..|exact Hall].
Defined.

End APAExamples.

(* ===================================================================== *)
(** * Further properties of the two programs                              *)
(* ===================================================================== *)

Module PyProperties.
Import Py Spec PyFacts.

(** ** Stripping *)

Lemma lstrip_spec s :
  ∃ ws, s = ws ++ lstrip s
        ∧ Forall (λ c, isspace c = true) ws ∧ stops isspace (lstrip s).
Proof.
  induction s as [|c s (ws & Hs & Hws & Hstop)]; [by exists []|].
  cbn [lstrip]. destruct (isspace c) eqn:Hc.
  - exists (c :: ws). split_and!; [by rewrite Hs at 1|by constructor|done].
  - by exists [].
Qed.

Lemma rstrip_spec s :
  ∃ ws, s = rstrip s ++ ws ∧ Forall (λ c, isspace c = true) ws.
Proof.
  induction s as [|c s (ws & Hs & Hws)]; [by exists []|].
  cbn [rstrip]. destruct (rstrip s) as [|d r].
  - destruct (isspace c) eqn:Hc.
    + exists (c :: ws). cbn in *. split; [by rewrite Hs at 1|by constructor].
    + exists ws. cbn in *. by rewrite Hs at 1.
  - exists ws. split; [|done]. cbn in *. by rewrite Hs at 1.
Qed.

Lemma rstrip_nil s : rstrip s = [] → Forall (λ c, isspace c = true) s.
Proof.
  induction s as [|c s IH]; [done|]. cbn [rstrip].
  destruct (rstrip s) as [|d r]; [|done].
  destruct (isspace c) eqn:Hc; [|done]. intros _. constructor; auto.
Qed.

Lemma strip_spec s :
  ∃ ws1 ws2, s = ws1 ++ strip s ++ ws2
             ∧ Forall (λ c, isspace c = true) ws1
             ∧ Forall (λ c, isspace c = true) ws2.
Proof.
  destruct (lstrip_spec s) as (ws1 & Hs & Hws1 & _).
  destruct (rstrip_spec (lstrip s)) as (ws2 & Hl & Hws2).
  exists ws1, ws2. unfold strip. by rewrite <- Hl.
Qed.

Lemma strip_nil s : strip s = [] ↔ Forall (λ c, isspace c = true) s.
Proof.
  split.
  - intros Hs. destruct (strip_spec s) as (ws1 & ws2 & Heq & H1 & H2).
    rewrite Hs in Heq. rewrite Heq. by apply Forall_app.
  - intros Hs. unfold strip.
    assert (lstrip s = []) as ->; [|done].
    induction Hs as [|c s Hc _ IH]; [done|]. cbn. by rewrite Hc.
Qed.

(** A prefix of characters of a class, as long as can be. *)
Lemma span_class (p : N → bool) s :
  ∃ w v, s = w ++ v ∧ Forall (λ c, p c = true) w ∧ stops p v.
Proof.
  induction s as [|c s (w & v & -> & Hw & Hv)]; [by exists [], []|].
  destruct (p c) eqn:Hc.
  - exists (c :: w), v. split_and!; [done|by constructor|done].
  - by exists [], (c :: w ++ v).
Qed.

End PyProperties.

Module NumericProperties.
Import Py Docx Numeric Spec PyFacts NumericFacts PyProperties.

Section Properties.
Context `{Unicode} `{Difflib} `{Rounding}.

(** ** The numbers read from a text *)

Lemma int_of_digits_nonneg s : 0 ≤ int_of_digits s.
Proof. unfold int_of_digits. lia. Qed.

Lemma numbers_of_match_nonneg g : Forall (λ n, 0 ≤ n) (numbers_of_match g).
Proof.
  unfold numbers_of_match. cbn zeta.
  destruct (nonempty (group 1 g) && nonempty (group 2 g)).
  - destruct (_ <=? _); [|constructor].
    apply Forall_forall. intros n Hn%elem_of_range_incl.
    pose proof (int_of_digits_nonneg (group 1 g)). lia.
  - destruct (nonempty (group 3 g)); repeat constructor.
    apply int_of_digits_nonneg.
Qed.

Lemma get_numbers_nonneg text : Forall (λ n, 0 ≤ n) (get_numbers text).
Proof.
  unfold get_numbers. apply Forall_forall. intros n.
  rewrite list_elem_of_In, in_flat_map. intros (m & _ & Hn).
  apply list_elem_of_In in Hn.
  by eapply (proj1 (Forall_forall _ _)) in Hn; [|apply numbers_of_match_nonneg].
Qed.

Lemma record_numbers_nonneg text st :
  nonneg_state st → nonneg_state (record_numbers (get_numbers text) st).
Proof.
  intros [Hwf Hst].
  destruct (record_numbers_wf (get_numbers text) st Hwf) as [Hwf' Hids].
  split; [done|]. rewrite Hids. apply Forall_app. split; [done|apply get_numbers_nonneg].
Qed.

Lemma scan_run_nonneg acc r :
  nonneg_state acc.1 → nonneg_state (scan_run acc r).1.
Proof.
  destruct acc as [st current_group]. unfold scan_run. cbn [fst].
  intros Hst. destruct (is_citation_run r); [done|]. cbn [fst].
  apply fold_left_preserves.
  - intros st' m. apply record_numbers_nonneg.
  - destruct current_group; [done|]. by apply record_numbers_nonneg.
Qed.

Lemma scan_paragraph_nonneg st para :
  nonneg_state st → nonneg_state (scan_paragraph st para).
Proof.
  intros Hst. unfold scan_paragraph.
  pose proof (fold_left_preserves (λ acc, nonneg_state acc.1) scan_run
                (p_runs para) (st, []) scan_run_nonneg Hst) as Hfold.
  destruct (fold_left scan_run (p_runs para) (st, [])) as [st' current_group].
  destruct current_group; [done|]. by apply record_numbers_nonneg.
Qed.

Lemma find_bib_run_nonneg runs : ∀ i n j,
  find_bib_run i runs = Some (n, j) → 0 ≤ n.
Proof.
  induction runs as [|r runs IH]; intros i n j; cbn [find_bib_run]; [done|].
  destruct (style_is (r_style r) "bib_number"); [|apply IH].
  pose proof (get_numbers_nonneg (r_text r)) as Hr.
  destruct (get_numbers (r_text r)) as [|m ms]; [apply IH|].
  intros [= <- _]. by apply Forall_cons in Hr as [? _].
Qed.

Lemma bib_entry_nonneg ip obj : bib_entry ip = Some obj → 0 ≤ ro_id obj.
Proof.
  destruct ip as [i para]. unfold bib_entry.
  destruct (style_is (p_style para) "REF-N"); [|done].
  destruct (find_bib_run 0 (p_runs para)) as [[n j]|] eqn:Hrun.
  - intros [= <-]. by eapply find_bib_run_nonneg.
  - destruct (re_match LEADING_INT _); [|done].
    intros [= <-]. apply int_of_digits_nonneg.
Qed.

(** Ids are never negative: neither a cited one nor one of the
    bibliography. *)
Theorem ids_nonnegative doc :
  (∀ text, Forall (λ n, 0 ≤ n) (get_numbers text))
  ∧ Forall (λ n, 0 ≤ n) (get_citations_in_text doc).1
  ∧ Forall (λ n, 0 ≤ n) (get_citations_in_text doc).2
  ∧ (∀ n, n ∈ (get_references_in_bibliography doc).1 → 0 ≤ n)
  ∧ Forall (λ obj, 0 ≤ ro_id obj) (get_references_in_bibliography doc).2.
Proof.
  assert (Forall (λ n, 0 ≤ n) (get_citations_in_text doc).1) as Hcited.
  { unfold get_citations_in_text, discover. cbn [fst].
    apply (fold_left_preserves nonneg_state scan_paragraph).
    - intros st para. apply scan_paragraph_nonneg.
    - split; [|constructor]. split; [done|]. cbn. set_solver. }
  assert (Forall (λ obj, 0 ≤ ro_id obj) (get_references_in_bibliography doc).2)
    as Hobjs.
  { unfold get_references_in_bibliography. cbn [snd].
    apply Forall_forall. intros obj (ip & _ & Hip)%list_elem_of_omap.
    by eapply bib_entry_nonneg. }
  split_and!; [apply get_numbers_nonneg|done| | |done].
  - rewrite appearance_order_spec. apply Forall_forall. intros n Hn.
    apply (proj1 (elem_of_first_appearances _ _)) in Hn.
    rewrite Forall_forall in Hcited. by apply Hcited.
  - unfold get_references_in_bibliography in *. cbn [fst snd] in *.
    intros n (obj & -> & Hobj)%elem_of_list_to_set%list_elem_of_fmap.
    rewrite Forall_forall in Hobjs. by apply Hobjs.
Qed.

Lemma read_back ids :
  Forall (λ n, 0 ≤ n) ids →
  get_numbers (format_numbers ids) = sorted_set ids.
Proof.
  intros Hids. rewrite format_numbers_runs.
  unfold get_numbers, findall. rewrite get_numbers_parts.
  - apply consecutive_runs_expand.
  - apply consecutive_runs_bounds. unfold sorted_set.
    rewrite Forall_forall in Hids |- *. intros n.
    rewrite merge_sort_Permutation, elem_of_elements, elem_of_list_to_set.
    apply Hids.
Qed.

Lemma remap_nonneg (mapping : gmap Z Z) nums :
  (∀ old new, mapping !! old = Some new → 0 ≤ new) →
  Forall (λ n, 0 ≤ n) nums →
  Forall (λ n, 0 ≤ n) (remap mapping nums).
Proof.
  intros Hm Hnums. unfold remap. apply Forall_fmap.
  eapply Forall_impl; [exact Hnums|]. intros n Hn. cbn.
  destruct (mapping !! n) as [new|] eqn:Hnew; [by eapply Hm|done].
Qed.

(** The text that [renumber] writes for a citation reads back as the new
    numbers, sorted and without repeats. *)
Theorem renumbered_citation_reads_back doc text :
  let mapping := (renumber doc).2 in
  let new_nums := remap mapping (get_numbers text) in
  get_numbers (format_numbers new_nums) = sorted_set new_nums
  ∧ (∀ n, n ∈ sorted_set new_nums ↔
          ∃ old, old ∈ get_numbers text ∧ n = default old (mapping !! old)).
Proof.
  cbn zeta. split.
  - apply read_back, remap_nonneg; [|apply get_numbers_nonneg].
    intros old new. rewrite renumber_mapping, appearance_order_spec.
    rewrite build_mapping_lookup by apply NoDup_first_appearances.
    intros (i & _ & ->). lia.
  - intros n. unfold sorted_set, remap.
    rewrite merge_sort_Permutation, elem_of_elements, elem_of_list_to_set,
      list_elem_of_fmap. naive_solver.
Qed.

(** ** Citation runs *)

(** What [^[\d,\-–—\s]+$] accepts. *)
Lemma number_like_spec s :
  is_Some (re_match NUMBER_LIKE s)
  ↔ s ≠ [] ∧ Forall (λ c, is_cite_char c = true) s.
Proof.
  unfold re_match, exec, NUMBER_LIKE. rewrite !rx_seq. cbn [rx prev].
  destruct (span_class is_cite_char s) as (w & v & -> & Hw & Hv).
  destruct v as [|c v].
  - rewrite app_nil_r. destruct w as [|d w].
    + split; [|by intros [[] _]].
      rewrite (plus_cls_rejects _ _ [] []); [by intros [? [=]]|done..|].
      by intros [] ? [=] ?.
    + split; [done|]. intros _.
      rewrite <- (app_nil_r (d :: w)).
      erewrite plus_cls_accepts; [done..|]. reflexivity.
  - cbn in Hv. split.
    + rewrite plus_cls_rejects; [by intros [? [=]]|done..|].
      intros u1 u2 -> Hu1. cbn [rx rest].
      destruct u2 as [|e [|f u2]]; cbn; [|done..].
      destruct v; [|done].
      destruct (N.eqb_spec c 10) as [->|]; [|done]. by vm_compute in Hv.
    + intros [_ [_ [Hc _]%Forall_cons]%Forall_app]. congruence.
Qed.

Lemma space_is_cite_char c : isspace c = true → is_cite_char c = true.
Proof. unfold is_cite_char. intros ->. by rewrite !orb_true_r. Qed.

Lemma number_like_text text :
  (if nonempty (strip text)
   then bool_decide (is_Some (re_match NUMBER_LIKE (strip text)))
   else false) = true
  ↔ Forall (λ c, is_cite_char c = true) text
    ∧ ¬ Forall (λ c, isspace c = true) text.
Proof.
  rewrite <- strip_nil.
  destruct (strip_spec text) as (ws1 & ws2 & Htext & Hws1 & Hws2).
  assert (Forall (λ c, is_cite_char c = true) text
          ↔ Forall (λ c, is_cite_char c = true) (strip text)) as ->.
  { rewrite Htext at 1. rewrite !Forall_app. split; [naive_solver|].
    intros Hs. split_and!; [|done|].
    - eapply Forall_impl; [exact Hws1|]. apply space_is_cite_char.
    - eapply Forall_impl; [exact Hws2|]. apply space_is_cite_char. }
  destruct (strip text) as [|c s] eqn:Hs; cbn [nonempty is_empty negb].
  - naive_solver.
  - rewrite bool_decide_eq_true, number_like_spec. naive_solver.
Qed.

(** A run is a citation run when it has the style cite_bib, or is a
    superscript whose text consists of digits, commas, dashes and
    whitespace and is not blank. *)
Theorem is_citation_run_spec (r : run) :
  is_citation_run r = true
  ↔ r_style r = Some (lit "cite_bib")
    ∨ (r_superscript r = Some true
       ∧ Forall (λ c, is_cite_char c = true) (r_text r)
       ∧ ¬ Forall (λ c, isspace c = true) (r_text r)).
Proof.
  unfold is_citation_run. cbn zeta.
  assert (style_is (r_style r) "cite_bib" = true
          ↔ r_style r = Some (lit "cite_bib")) as Hstyle.
  { unfold style_is, str_eqb. destruct (r_style r); [|done].
    rewrite bool_decide_eq_true. naive_solver. }
  destruct (style_is (r_style r) "cite_bib"); [naive_solver|].
  destruct (r_superscript r) as [[]|]; cbn [truthy default id].
  - rewrite number_like_text. naive_solver.
  - naive_solver.
  - naive_solver.
Qed.

(** ** Sequence issues and the renumbering message *)

Lemma sequence_gaps_nil order :
  sequence_gaps order = []
  ↔ ∀ i n, order !! i = Some n → n = Z.of_nat (i + 1).
Proof.
  induction order as [|n order IH] using rev_ind.
  { split; [by intros _ i n ?|done]. }
  rewrite sequence_gaps_snoc. split.
  - intros [Hgaps Hlast]%app_eq_nil i m Hi.
    apply lookup_app_Some in Hi as [Hi|[Hlen Hi]].
    + by apply IH.
    + apply list_lookup_singleton_Some in Hi as [Hi <-].
      case_bool_decide as Hn; [done|].
      rewrite Hn. f_equal. lia.
  - intros Hall. rewrite (proj2 IH), bool_decide_eq_false_2; [done| |].
    + intros Hn. apply Hn. apply (Hall (length order)).
      by rewrite lookup_app_r, Nat.sub_diag by lia.
    + intros i m Hi. apply Hall. by apply lookup_app_l_Some.
Qed.

Lemma changes_made_gaps order :
  NoDup order →
  changes_made (build_mapping order) = negb (is_empty (sequence_gaps order)).
Proof.
  intros Hnd. unfold changes_made.
  destruct (existsb _ _) eqn:Hex; symmetry.
  - apply existsb_exists in Hex as ([old new] & Hin & Hne).
    apply list_elem_of_In, elem_of_map_to_list in Hin.
    apply build_mapping_lookup in Hin as (i & Hi & ->); [|done].
    apply negb_true_iff, not_true_iff_false. rewrite is_empty_true.
    intros Hall. eapply sequence_gaps_nil in Hall; [|exact Hi].
    cbn in Hne. destruct (Z.eqb_spec old (Z.of_nat i + 1)); [done|lia].
  - apply negb_false_iff, is_empty_true, sequence_gaps_nil. intros i n Hi.
    destruct (decide (n = Z.of_nat (i + 1))) as [|Hne]; [done|].
    apply not_true_iff_false in Hex. destruct Hex. apply existsb_exists.
    exists (n, Z.of_nat i + 1). split.
    + apply list_elem_of_In, elem_of_map_to_list.
      apply build_mapping_lookup; [done|]. by exists i.
    + cbn. destruct (Z.eqb_spec n (Z.of_nat i + 1)); [lia|done].
Qed.

(** ** The text written for a set of numbers *)

(** Order and repetition do not matter to [format_numbers], and no number
    gives the empty text. *)
Theorem format_numbers_of_set nums nums' :
  (∀ n, n ∈ nums ↔ n ∈ nums') →
  format_numbers nums = format_numbers nums'
  ∧ (format_numbers nums = [] ↔ nums = []).
Proof.
  intros Hsame.
  assert (sorted_set nums = sorted_set nums') as Hset.
  { unfold sorted_set. f_equal. f_equal. apply set_eq. intros n.
    by rewrite !elem_of_list_to_set. }
  split; [unfold format_numbers; by rewrite Hset|].
  split; [|by intros ->].
  intros Hnil. destruct nums as [|n nums]; [done|]. exfalso.
  rewrite format_numbers_runs in Hnil.
  assert (n ∈ sorted_set (n :: nums)) as Hn.
  { unfold sorted_set.
    rewrite merge_sort_Permutation, elem_of_elements, elem_of_list_to_set.
    left. }
  destruct (sorted_set (n :: nums)) as [|a rest]; [by apply elem_of_nil in Hn|].
  destruct (consecutive_runs_head a rest) as (b & runs & Hruns).
  rewrite Hruns in Hnil. cbn [map fst snd] in Hnil.
  assert (∃ c t, format_part a b = c :: t) as (c & t & Hpart).
  { assert (∃ c t, str_of_int a = c :: t) as (c & t & Ha).
    { unfold str_of_int. destruct (a <? 0); [by eauto|].
      destruct (digits_spec (Z.to_N a)) as (Hne & _).
      destruct (digits (Z.to_N a)); [done|by eauto]. }
    unfold format_part. cbn zeta. rewrite Ha.
    destruct (3 <=? b - a + 1); [cbn; by eauto|].
    destruct (b - a + 1 =? 2); cbn; by eauto. }
  rewrite Hpart in Hnil. by destruct (map _ runs).
Qed.

(** ** Runs that renumbering leaves alone *)

(** A bracketed citation starts with "^", "[" or "(". *)
Lemma exec_bracketed_stops pv s :
  stops (λ c, (c =? 94)%N || (c =? 91)%N || (c =? 40)%N) s →
  exec BRACKETED_CITATION pv s = None.
Proof.
  intros Hs. unfold exec, BRACKETED_CITATION, Chr.
  rewrite rx_seq, rx_grp, !rx_alt.
  destruct s as [|c s]; [done|]. cbn in Hs.
  apply orb_false_iff in Hs as [[H94 H91]%orb_false_iff H40].
  cbn [rx rest]. change (chr "^") with 94%N. change (chr "[") with 91%N.
  change (chr "(") with 40%N.
  by rewrite (N.eqb_sym 94), (N.eqb_sym 91), (N.eqb_sym 40), H94, H91, H40.
Qed.

Lemma search_bracketed_none s : ∀ pv before,
  Forall (λ c, (c =? 94)%N || (c =? 91)%N || (c =? 40)%N = false) s →
  search_go BRACKETED_CITATION pv before s = None.
Proof.
  induction s as [|c s IH]; intros pv before Hs; cbn [search_go].
  - by rewrite exec_bracketed_stops.
  - apply Forall_cons in Hs as [Hc Hs].
    rewrite exec_bracketed_stops by done. by apply IH.
Qed.

(** ** The bibliography after renumbering *)

Lemma insert_all {A} (moved : list A) : ∀ l a,
  (a ≤ length l)%nat →
  (fold_left (λ acc x, (insert_at acc.2 x acc.1, S acc.2)) moved (l, a)).1
  = take a l ++ moved ++ drop a l.
Proof.
  induction moved as [|x moved IH]; intros l a Ha; cbn [fold_left fst snd].
  { by rewrite app_nil_l, take_drop. }
  rewrite IH; unfold insert_at.
  - rewrite (take_app_ge (take a l)), (drop_app_ge (take a l))
      by (rewrite length_take; lia).
    rewrite length_take, Nat.min_l by lia.
    replace (S a - a)%nat with 1%nat by lia. cbn.
    rewrite drop_0, take_0. by rewrite <- app_assoc.
  - rewrite length_app, length_take. cbn. rewrite length_drop. lia.
Qed.

Lemma seq_sorted n : ∀ a, StronglySorted lt (seq a n).
Proof.
  induction n as [|n IH]; intros a; cbn; constructor; [done|].
  apply Forall_forall. intros j Hj%list_elem_of_In%in_seq. lia.
Qed.

Lemma imap_pair_fst {A} (l : list A) :
  (imap (λ i b, (i, b)) l).*1 = seq 0 (length l).
Proof.
  apply list_eq. intros i.
  rewrite list_lookup_fmap, list_lookup_imap.
  destruct (l !! i) as [b|] eqn:Hi; cbn.
  - symmetry. apply lookup_seq. split; [done|]. by eapply lookup_lt_Some.
  - symmetry. apply lookup_seq_ge. by apply lookup_ge_None.
Qed.

Lemma imap_pair_snd {A} (l : list A) : (imap (λ i b, (i, b)) l).*2 = l.
Proof.
  apply list_eq. intros i. rewrite list_lookup_fmap, list_lookup_imap.
  by destruct (l !! i).
Qed.

Lemma omap_sorted_keys {A B} (key : A → nat) (key' : B → nat)
    (f : A → option B) l :
  (∀ a b, f a = Some b → key' b = key a) →
  StronglySorted lt (key <$> l) → StronglySorted lt (key' <$> omap f l).
Proof.
  intros Hkey. induction l as [|a l IH]; [done|].
  rewrite fmap_cons. intros [Hl Ha]%StronglySorted_inv.
  rewrite omap_cons. destruct (f a) as [b|] eqn:Hb; cbn; [|by apply IH].
  constructor; [by apply IH|].
  apply Forall_forall. intros j (b' & -> & (a' & Ha' & Hb')%list_elem_of_omap)%list_elem_of_fmap.
  rewrite (Hkey _ _ Hb), (Hkey _ _ Hb'). rewrite Forall_forall in Ha.
  apply Ha. apply list_elem_of_fmap. by exists a'.
Qed.

Lemma bib_entry_index ip obj :
  bib_entry ip = Some obj → ro_index obj = ip.1 ∧ ro_para obj = ip.2.
Proof.
  destruct ip as [i para]. unfold bib_entry.
  destruct (style_is _ _); [|done].
  destruct (find_bib_run _ _) as [[? ?]|]; [by intros [= <-]|].
  destruct (re_match _ _); [|done]. by intros [= <-].
Qed.

(** The entries of the bibliography are listed from top to bottom, each
    a paragraph of the body at the position it records. *)
Lemma ref_objects_in_order doc :
  let objs := (get_references_in_bibliography doc).2 in
  StronglySorted lt (ro_index <$> objs)
  ∧ Forall (λ obj, body doc !! ro_index obj = Some (BPara (ro_para obj))) objs.
Proof.
  cbn zeta. unfold get_references_in_bibliography. cbn [snd].
  unfold indexed_paragraphs. split.
  - apply (omap_sorted_keys fst ro_index).
    { intros ip obj Hobj. by apply bib_entry_index in Hobj as [-> _]. }
    apply (omap_sorted_keys fst fst).
    { intros [i b] [j q]. cbn. destruct b; [|done..]. by intros [= -> _]. }
    rewrite imap_pair_fst. apply seq_sorted.
  - apply Forall_forall.
    intros obj ([i para] & ([j b] & Hjb & Hb)%list_elem_of_omap & Hobj)%list_elem_of_omap.
    apply bib_entry_index in Hobj as [-> ->]. cbn in *.
    destruct b as [q| |]; [|done..]. injection Hb as -> ->.
    apply list_elem_of_lookup in Hjb as [n Hn].
    rewrite list_lookup_imap in Hn.
    destruct (body doc !! n) as [b|] eqn:Hbn; [|done].
    cbn in Hn. by injection Hn as -> ->.
Qed.

Lemma filter_ext_Forall {A} (P Q : A → Prop) `{∀ x, Decision (P x)}
    `{∀ x, Decision (Q x)} (l : list A) :
  Forall (λ x, P x ↔ Q x) l → filter P l = filter Q l.
Proof.
  induction 1 as [|x l Hx _ IH]; [done|]. rewrite !filter_cons, IH.
  destruct (decide (P x)), (decide (Q x)); tauto.
Qed.

(** Positions listed in increasing order, all of them positions of the
    list: as many elements sit at them as there are positions. *)
Lemma count_positions {B} (l : list (nat * B)) : ∀ a n idx,
  l.*1 = seq a n →
  StronglySorted lt idx →
  Forall (λ j, (a ≤ j < a + n)%nat) idx →
  length (filter (λ e : nat * B, e.1 ∈ idx) l) = length idx.
Proof.
  induction l as [|e l IH]; intros a n idx Hl Hsorted Hidx.
  { destruct n; [|done]. destruct Hidx as [|j idx Hj _]; [done|lia]. }
  destruct n as [|n]; [done|]. cbn in Hl. injection Hl as He Hl.
  rewrite filter_cons.
  destruct idx as [|j idx]; [|destruct (decide (j = a)) as [->|Hja]].
  - rewrite decide_False by (by intros ?%elem_of_nil).
    apply (IH (S a) n []); [done|constructor..].
  - apply StronglySorted_inv in Hsorted as [Hsorted Hmin].
    apply Forall_cons in Hidx as [_ Hidx].
    rewrite decide_True by (rewrite He; left). cbn [length]. f_equal.
    rewrite <- (IH (S a) n idx Hl Hsorted).
    + f_equal. apply filter_ext_Forall. apply Forall_forall. intros e' He'.
      assert (e'.1 ∈ seq (S a) n) as Hin.
      { rewrite <- Hl. apply list_elem_of_fmap. by exists e'. }
      apply list_elem_of_In, in_seq in Hin. rewrite elem_of_cons. split.
      * intros [?|?]; [lia|done].
      * by right.
    + rewrite Forall_forall in Hmin, Hidx |- *. intros j Hj.
      specialize (Hmin j Hj). specialize (Hidx j Hj). lia.
  - apply Forall_cons in Hidx as Hidx'. destruct Hidx' as [Hj Hidx'].
    apply StronglySorted_inv in Hsorted as Hsorted'.
    destruct Hsorted' as [_ Hmin].
    rewrite decide_False.
    + apply (IH (S a) n (j :: idx)); [done..|].
      rewrite Forall_forall in Hmin, Hidx' |- *.
      intros j' [->|Hj']%elem_of_cons; [lia|].
      specialize (Hmin j' Hj'). specialize (Hidx' j' Hj'). lia.
    + rewrite He. intros [?|Ha]%elem_of_cons; [lia|].
      rewrite Forall_forall in Hmin. specialize (Hmin a Ha). lia.
Qed.

Lemma kept_and_removed {B} (idx : list nat) (l : list (nat * B)) :
  (length (omap (λ ib : nat * B,
                   if bool_decide (ib.1 ∈ idx) then None else Some ib.2) l)
   + length (filter (λ e : nat * B, e.1 ∈ idx) l) = length l)%nat.
Proof.
  induction l as [|e l IH]; [done|]. rewrite omap_cons, filter_cons.
  case_bool_decide.
  - rewrite decide_True by done. cbn. lia.
  - rewrite decide_False by done. cbn. lia.
Qed.

Lemma sorted_on_length {A} (f : A → Z) l : length (sorted_on f l) = length l.
Proof.
  unfold sorted_on. induction l as [|x l IH]; [done|]. cbn. rewrite <- IH.
  generalize (foldr (insert_on f) [] l). intros l'.
  induction l' as [|y l' IH']; [done|]. cbn.
  destruct (f x <=? f y); cbn; [done|]. by rewrite IH'.
Qed.

Lemma cited_uncited_length (mapping : gmap Z Z) (objs : list ref_object) :
  (length (omap (λ obj, (λ new_id, (new_id, obj)) <$> mapping !! ro_id obj)
                objs)
   + length (filter (λ obj, mapping !! ro_id obj = None) objs)
   = length objs)%nat.
Proof.
  induction objs as [|obj objs IH]; [done|].
  rewrite omap_cons, filter_cons.
  destruct (mapping !! ro_id obj) as [new_id|] eqn:Hid; cbn.
  - rewrite decide_False by done. cbn. lia.
  - rewrite decide_True by done. cbn. lia.
Qed.

Lemma reorder_structure (mapping : gmap Z Z) (doc : document) :
  let objs := (get_references_in_bibliography doc).2 in
  let cited :=
    sorted_on fst
      (omap (λ obj, (λ new_id, (new_id, obj)) <$> mapping !! ro_id obj) objs) in
  let uncited := filter (λ obj, mapping !! ro_id obj = None) objs in
  let moved :=
    ((λ c : Z * ref_object, BPara (with_new_id c.2 c.1)) <$> cited)
    ++ ((λ obj, BPara (ro_para obj)) <$> uncited) in
  match objs with
  | [] => reorder_bibliography mapping doc = doc
  | first :: _ =>
      ∃ others,
        body (reorder_bibliography mapping doc)
        = take (ro_index first) (body doc) ++ moved ++ others
        ∧ others
          = omap (λ ib : nat * block,
                    if bool_decide (ib.1 ∈ ro_index <$> objs)
                    then None else Some ib.2)
                 (drop (ro_index first) (imap (λ i b, (i, b)) (body doc)))
        ∧ length moved = length objs
        ∧ length (body (reorder_bibliography mapping doc))
          = length (body doc)
        ∧ styles (reorder_bibliography mapping doc) = styles doc
  end.
Proof.
  cbn zeta. destruct (ref_objects_in_order doc) as [Hsorted Hbody].
  unfold reorder_bibliography.
  destruct (get_references_in_bibliography doc) as [found objs] eqn:Hrefs.
  cbn [snd] in *. destruct objs as [|first objs']; [done|].
  set (objs := first :: objs') in *.
  assert (ro_index <$> objs = ro_index first :: (ro_index <$> objs')) as Hidx
    by done.
  rewrite Hidx. rewrite <- Hidx.
  set (p := ro_index first).
  assert (foldr Nat.min p (ro_index <$> objs') = p) as ->.
  { rewrite Hidx in Hsorted. apply StronglySorted_inv in Hsorted as [_ Hmin].
    fold p in Hmin. clear -Hmin.
    induction Hmin as [|j l Hj _ IH]; [done|]. cbn. rewrite IH. lia. }
  set (keep := λ ib : nat * block,
         if bool_decide (ib.1 ∈ ro_index <$> objs) then None else Some ib.2).
  set (ib := imap (λ i b, (i, b)) (body doc)).
  assert (p < length (body doc))%nat as Hp.
  { apply Forall_cons in Hbody as [Hfirst _]. by eapply lookup_lt_Some. }
  assert (omap keep ib = take p (body doc) ++ omap keep (drop p ib)) as Hremoved.
  { rewrite <- (take_drop p ib) at 1. rewrite omap_app. f_equal.
    rewrite <- (imap_pair_snd (body doc)). fold ib. rewrite <- fmap_take.
    assert (Forall (λ e : nat * block, (e.1 < p)%nat) (take p ib)) as Hbefore.
    { apply Forall_forall. intros [j b] [n Hn]%list_elem_of_lookup.
      apply lookup_take_Some in Hn as [Hn Hlt]. unfold ib in Hn.
      rewrite list_lookup_imap in Hn.
      destruct (body doc !! n); [|done]. cbn in Hn. injection Hn as <- <-.
      done. }
    induction Hbefore as [|e l He _ IH]; [done|].
    rewrite omap_cons, fmap_cons, IH. unfold keep at 1.
    rewrite bool_decide_eq_false_2; [done|].
    rewrite Hidx. intros [Heq|(j & Hj)%list_elem_of_lookup]%elem_of_cons.
    - fold p in Heq. lia.
    - rewrite Hidx in Hsorted.
      apply StronglySorted_inv in Hsorted as [_ Hmin]. fold p in Hmin.
      rewrite Forall_forall in Hmin.
      assert (p < e.1)%nat; [|lia]. apply Hmin.
      by eapply list_elem_of_lookup_2. }
  exists (omap keep (drop p ib)). cbn [body styles].
  rewrite insert_all.
  2:{ rewrite Hremoved, length_app, length_take. lia. }
  rewrite Hremoved.
  rewrite take_app_length', drop_app_length' by (rewrite length_take; lia).
  assert (length (((λ c : Z * ref_object, BPara (with_new_id c.2 c.1))
                     <$> sorted_on fst
                           (omap (λ obj, (λ new_id, (new_id, obj))
                                           <$> mapping !! ro_id obj) objs))
                  ++ ((λ obj, BPara (ro_para obj))
                        <$> filter (λ obj, mapping !! ro_id obj = None) objs))
          = length objs) as Hmoved.
  { rewrite length_app, !length_fmap, sorted_on_length.
    apply cited_uncited_length. }
  split_and!; [done..| |done].
  rewrite 2!length_app, Hmoved, length_take, Nat.min_l by lia.
  pose proof (kept_and_removed (ro_index <$> objs) ib) as Hcount.
  fold keep in Hcount.
  assert (length ib = length (body doc)) as Hib by apply length_imap.
  assert (length (omap keep ib) = p + length (omap keep (drop p ib)))%nat
    as Hkept.
  { rewrite Hremoved, length_app, length_take. lia. }
  rewrite (count_positions ib 0 (length (body doc))) in Hcount.
  - rewrite length_fmap in Hcount. lia.
  - apply imap_pair_fst.
  - done.
  - apply Forall_forall. intros j (obj & -> & Hobj)%list_elem_of_fmap.
    rewrite Forall_forall in Hbody. apply Hbody, lookup_lt_Some in Hobj.
    lia.
Qed.

(** Reordering moves the entries of the bibliography to one block at the
    place of the first: the cited ones by new number, then the uncited
    ones in their order.  What stands before the first entry stays, the
    other blocks follow in their order, and no block is lost or added;
    without an entry the document is returned as it is.  So [renumber]
    keeps the number of blocks of the body. *)
Theorem reorder_bibliography_structure (mapping : gmap Z Z) (doc : document) :
  let objs := (get_references_in_bibliography doc).2 in
  let cited :=
    sorted_on fst
      (omap (λ obj, (λ new_id, (new_id, obj)) <$> mapping !! ro_id obj) objs) in
  let uncited := filter (λ obj, mapping !! ro_id obj = None) objs in
  let moved :=
    ((λ c : Z * ref_object, BPara (with_new_id c.2 c.1)) <$> cited)
    ++ ((λ obj, BPara (ro_para obj)) <$> uncited) in
  match objs with
  | [] => reorder_bibliography mapping doc = doc
  | first :: _ =>
      ∃ others,
        body (reorder_bibliography mapping doc)
        = take (ro_index first) (body doc) ++ moved ++ others
        ∧ others
          = omap (λ ib : nat * block,
                    if bool_decide (ib.1 ∈ ro_index <$> objs)
                    then None else Some ib.2)
                 (drop (ro_index first) (imap (λ i b, (i, b)) (body doc)))
        ∧ length moved = length objs
        ∧ length (body (reorder_bibliography mapping doc))
          = length (body doc)
        ∧ styles (reorder_bibliography mapping doc) = styles doc
  end
  ∧ length (body (renumber doc).1) = length (body doc).
Proof.
  cbn zeta. split; [apply reorder_structure|].
  unfold renumber. destruct (get_citations_in_text doc) as [all order].
  cbn [fst].
  set (doc' := Document _ _).
  pose proof (reorder_structure (build_mapping order) doc') as Hdoc'.
  cbn zeta in Hdoc'.
  assert (length (body doc') = length (body doc)) as <-
    by apply length_fmap.
  destruct (get_references_in_bibliography doc').2; [by rewrite Hdoc'|].
  by destruct Hdoc' as (others & _ & _ & _ & Hlen & _).
Qed.

(** ** The loop that splits a run *)

(** The matcher only moves forward: where it continues, a suffix of the
    text is left. *)
Lemma rx_forward r : ∀ {A} (k : mstate → option A) st x,
  rx r k st = Some x →
  ∃ st', k st' = Some x ∧ rest st' `suffix_of` rest st.
Proof.
  induction r as [|p|r1 IH1 r2 IH2|r1 IH1 r2 IH2|greedy r1 IH1|i r1 IH1| | |w];
    intros A k st x; cbn [rx].
  - intros Hk. by exists st.
  - destruct (rest st) as [|c t] eqn:Hrest; [done|].
    destruct (p c); [|done]. intros Hk. eexists. split; [exact Hk|].
    cbn. by apply suffix_cons_r.
  - intros (st1 & (st2 & Hk & Hf2)%IH2 & Hf1)%IH1. exists st2.
    split; [done|]. by etrans.
  - destruct (rx r1 k st) eqn:Hr1.
    + intros [= ->]. by apply IH1 in Hr1.
    + apply IH2.
  - generalize (length (rest st)) at 1. intros n. revert st.
    induction n as [|n IHn]; intros st; cbn [star_loop].
    { intros Hk. by exists st. }
    assert (rx r1 (λ st1,
                     if (length (rest st1) <? length (rest st))%nat
                     then star_loop (rx r1) greedy k n st1 else None) st
            = Some x →
            ∃ st', k st' = Some x ∧ rest st' `suffix_of` rest st) as Hstep.
    { intros (st1 & Hagain & Hf1)%IH1.
      destruct (_ <? _)%nat; [|done].
      apply IHn in Hagain as (st' & Hk & Hlen). exists st'.
      split; [done|]. by etrans. }
    destruct greedy.
    + destruct (rx r1 _ st) eqn:Hr1.
      * intros [= ->]. by apply Hstep.
      * intros Hk. by exists st.
    + destruct (k st) eqn:Hk.
      * intros [= ->]. by exists st.
      * apply Hstep.
  - intros (st1 & Hk & Hf1)%IH1. eexists. split; [exact Hk|]. done.
  - destruct (prev st); [done|]. intros Hk. by exists st.
  - destruct (rest st) as [|c [|d t]] eqn:Hrest; [| |done].
    + intros Hk. exists st. by rewrite Hrest.
    + destruct (c =? 10)%N; [|done]. intros Hk. exists st. by rewrite Hrest.
  - destruct (xorb _ _); [|done]. intros Hk. by exists st.
Qed.

Lemma exec_suffix r pv s st :
  exec r pv s = Some st → rest st `suffix_of` s.
Proof. by intros (st' & [= <-] & Hs)%rx_forward. Qed.

Lemma rx_cls {A} p (k : mstate → option A) st :
  rx (Cls p) k st =
  match rest st with
  | c :: t => if p c then k (MState (Some c) t (caps st)) else None
  | [] => None
  end.
Proof. done. Qed.

(** A bracketed citation takes at least its opening character. *)
Lemma exec_bracketed_shorter pv s st :
  exec BRACKETED_CITATION pv s = Some st →
  (length (rest st) < length s)%nat.
Proof.
  unfold exec, BRACKETED_CITATION, Chr. rewrite rx_seq, rx_grp, !rx_alt.
  destruct s as [|c s]; [done|]. rewrite !rx_cls. cbn [rest caps].
  match goal with
  | |- context [rx ?R Some ?st1] =>
      destruct (rx R Some st1) as [x|] eqn:Hx
  end.
  - apply rx_forward in Hx as (st2 & [= <-] & Hlen%suffix_length).
    cbn [rest] in Hlen.
    destruct (chr "^" =? c)%N; [intros [= <-]; cbn; lia|].
    destruct (chr "[" =? c)%N; [intros [= <-]; cbn; lia|].
    destruct (chr "(" =? c)%N; [intros [= <-]; cbn; lia|done].
  - by repeat destruct (_ =? c)%N.
Qed.

Lemma search_go_parts r s : ∀ pv before pre matched st,
  search_go r pv before s = Some (pre, matched, st) →
  rev before ++ s = pre ++ matched ++ rest st
  ∧ ∃ pv', exec r pv' (matched ++ rest st) = Some st.
Proof.
  induction s as [|c s IH]; intros pv before pre matched st;
    cbn [search_go]; destruct (exec r pv _) as [st'|] eqn:Hexec.
  - intros [= <- <- <-]. pose proof (exec_suffix _ _ _ _ Hexec) as Hsuf.
    apply suffix_nil_inv in Hsuf. rewrite Hsuf in *. cbn.
    split; [done|]. by exists pv.
  - done.
  - intros [= <- <- <-]. pose proof (exec_suffix _ _ _ _ Hexec) as [k Hk].
    assert (take (S (length s) - length (rest st')) (c :: s) = k) as ->.
    { change (S (length s)) with (length (c :: s)). rewrite Hk.
      rewrite length_app, Nat.add_sub. by rewrite take_app_length. }
    rewrite <- Hk. split; [done|]. by exists pv.
  - intros (Heq & Hpv)%IH. split; [|done]. rewrite <- Heq. cbn.
    by rewrite <- app_assoc.
Qed.

(** The loop that splits a run at its bracketed citations ends: the text
    is the text before the citation, the citation and the text after it,
    and the citation is not empty, so each further visit is to a shorter
    text; the bound that the model puts on the number of visits is never
    reached. *)
Theorem rewrite_run_terminates (mapping : gmap Z Z) (r : run) :
  (∀ pre matched st,
     re_search BRACKETED_CITATION (r_text r) = Some (pre, matched, st) →
     r_text r = pre ++ matched ++ rest st
     ∧ (length (rest st) < length (r_text r))%nat)
  ∧ ∀ fuel,
      (length (r_text r) < fuel)%nat →
      rewrite_run fuel mapping r
      = rewrite_run (S (length (r_text r))) mapping r.
Proof.
  assert (∀ text pre matched st,
            re_search BRACKETED_CITATION text = Some (pre, matched, st) →
            text = pre ++ matched ++ rest st
            ∧ (length (rest st) < length text)%nat) as Hsearch.
  { intros text pre matched st (Heq & pv & Hexec)%search_go_parts.
    cbn in Heq. split; [done|].
    apply exec_bracketed_shorter in Hexec.
    rewrite Heq, !length_app. rewrite length_app in Hexec. lia. }
  split; [apply Hsearch|].
  assert (∀ fuel1 fuel2 r',
            (length (r_text r') < fuel1)%nat →
            (length (r_text r') < fuel2)%nat →
            rewrite_run fuel1 mapping r' = rewrite_run fuel2 mapping r')
    as Hfuel.
  { induction fuel1 as [|fuel1 IH]; intros [|fuel2] r' Hf1 Hf2; [lia..|].
    cbn [rewrite_run].
    destruct (re_search BRACKETED_CITATION (r_text r'))
      as [[[pre matched] st]|] eqn:Hre; [|done].
    apply Hsearch in Hre as [_ Hlen].
    destruct (nonempty (rest st)); [|done].
    do 2 f_equal. apply IH; cbn; lia. }
  intros fuel Hfuel'. apply Hfuel; lia.
Qed.

End Properties.
End NumericProperties.

Module NumericPropertiesExamples.
Import Py Docx Numeric Spec Examples NumericFacts NumericProperties.

#[local] Existing Instances basic_latin exact_difflib no_rounding.

Lemma format_numbers_of_set_witness :
  format_numbers [3; 1; 2; 1] = format_numbers [1; 2; 3].
Proof.
  apply (format_numbers_of_set [3; 1; 2; 1] [1; 2; 3]).
  intros n. rewrite !elem_of_cons. naive_solver.
Defined.

End NumericPropertiesExamples.

Module APAProperties.
Import Py APA Spec Examples PyFacts APAFacts PyProperties.

Section Properties.
Context `{Unicode} `{Difflib} `{Rounding} `{Parser}.

(** ** Keys *)

Lemma author_key_no_bar a : 124%N ∉ author_key a.
Proof.
  unfold author_key, normalize_citation_key. cbn zeta.
  change (lit "|" ++ lit "0000") with (124%N :: lit "0000").
  rewrite split_on_app by apply author_part_no_bar.
  apply author_part_no_bar.
Qed.

(** A key determines its author part and its year; the author part is
    not changed by blanks around the author. *)
Theorem normalize_citation_key_injective a y a' y' :
  (normalize_citation_key a y = normalize_citation_key a' y'
   ↔ author_key a = author_key a' ∧ y = y')
  ∧ normalize_citation_key (strip a) y = normalize_citation_key a y
  ∧ hd [] (split_on 124 (normalize_citation_key a y)) = author_key a.
Proof.
  rewrite !normalize_citation_key_spec, author_key_strip.
  change (lit "|" ++ ?t) with (124%N :: t).
  split_and!; [|done|by rewrite split_on_app by apply author_key_no_bar].
  split; [|by intros [-> ->]].
  intros Heq.
  assert (author_key a = author_key a') as Ha.
  { rewrite <- (split_on_app 124 (author_key a) y),
      <- (split_on_app 124 (author_key a') y') by apply author_key_no_bar.
    by rewrite Heq. }
  split; [done|]. rewrite Ha in Heq. by simplify_list_eq.
Qed.

(** ** The two dictionaries of the text *)

Lemma dict_set_keys {V} k v (d : dict V) :
  (dict_set k v d).*1 = if dict_mem k d then d.*1 else d.*1 ++ [k].
Proof.
  unfold dict_mem. induction d as [|[k' v'] d IH]; [done|].
  cbn [dict_set dict_get]. unfold str_eqb.
  destruct (decide (k = k')) as [->|Hk].
  - rewrite !bool_decide_eq_true_2 by done. done.
  - rewrite !(bool_decide_eq_false_2 (k = k')) by done.
    rewrite !fmap_cons, IH. by destruct (bool_decide _).
Qed.

Lemma dict_mem_keys {V W} k (d : dict V) (d' : dict W) :
  d.*1 = d'.*1 → dict_mem k d = dict_mem k d'.
Proof.
  unfold dict_mem. revert d'.
  induction d as [|[k1 v1] d IH]; intros [|[k2 v2] d'] [=]; [done|].
  subst. cbn. destruct (str_eqb k k2); [|by apply IH].
  by rewrite !bool_decide_eq_true_2 by done.
Qed.

Lemma dict_mem_true {V} k (d : dict V) : dict_mem k d = true ↔ k ∈ d.*1.
Proof.
  unfold dict_mem. rewrite bool_decide_eq_true. split.
  - intros [v Hv%dict_get_Some]. apply list_elem_of_fmap. by exists (k, v).
  - intros ([k' v] & Hk & Hin)%list_elem_of_fmap. cbn in Hk. subst k'.
    destruct (dict_get k d) eqn:Hget; [by eauto|].
    by eapply dict_get_None in Hget.
Qed.

Lemma dict_set_NoDup {V} k v (d : dict V) :
  NoDup d.*1 → NoDup (dict_set k v d).*1.
Proof.
  intros Hd. rewrite dict_set_keys.
  destruct (dict_mem k d) eqn:Hm; [done|].
  apply NoDup_app. split_and!; [done| |apply NoDup_singleton].
  intros k' Hk' ->%list_elem_of_singleton.
  apply dict_mem_true in Hk'. congruence.
Qed.

Lemma dict_get_set {V} k v (d : dict V) k' :
  dict_get k' (dict_set k v d) = if str_eqb k' k then Some v else dict_get k' d.
Proof.
  unfold str_eqb.
  induction d as [|[k1 v1] d IH]; cbn [dict_set dict_get]; [done|].
  unfold str_eqb.
  destruct (decide (k = k1)) as [->|Hk].
  - rewrite (bool_decide_eq_true_2 (k1 = k1)) by done.
    cbn [dict_get]. unfold str_eqb. by destruct (bool_decide (k' = k1)).
  - rewrite (bool_decide_eq_false_2 (k = k1)) by done.
    cbn [dict_get]. unfold str_eqb. rewrite IH.
    destruct (decide (k' = k1)) as [->|Hk'].
    + rewrite (bool_decide_eq_true_2 (k1 = k1)) by done.
      by rewrite (bool_decide_eq_false_2 (k1 = k)) by done.
    + by rewrite (bool_decide_eq_false_2 (k' = k1)) by done.
Qed.

Lemma located_mono i j acc : (i ≤ j)%nat → located i acc → located j acc.
Proof.
  intros Hij (Hk & Hnd & Hl). split_and!; [done..|].
  eapply Forall_impl; [exact Hl|]. intros kl [Hne Hn]. split; [done|].
  eapply Forall_impl; [exact Hn|]. cbn. lia.
Qed.

Lemma add_citation_located i acc cite :
  located (S i) acc → located (S i) (add_citation i acc cite).
Proof.
  destruct acc as [cits locs]. intros (Hk & Hnd & Hl).
  unfold add_citation, located in *. cbn [fst snd] in *.
  set (key := normalize_citation_key (pc_author cite) (pc_year cite)).
  split_and!.
  - rewrite (dict_set_keys key _ locs), <- (dict_mem_keys key cits locs Hk).
    destruct (dict_get key cits) eqn:Hget; by rewrite dict_set_keys, Hk.
  - destruct (dict_get key cits); by apply dict_set_NoDup.
  - apply Forall_forall. intros kl [->|Hin]%dict_set_elem_of.
    + cbn. split; [by destruct (default _ _)|].
      apply Forall_app. split; [|apply Forall_singleton; lia].
      destruct (dict_get key locs) as [l|] eqn:Hget; [|constructor].
      apply dict_get_Some in Hget. rewrite Forall_forall in Hl.
      by apply Hl in Hget as [_ ?].
    + rewrite Forall_forall in Hl. by apply Hl.
Qed.

Lemma find_citations_located paragraphs : ∀ i acc,
  located i acc →
  located (i + length paragraphs) (find_citations_from i paragraphs acc).
Proof.
  induction paragraphs as [|para paragraphs IH]; intros i acc Hacc.
  { by rewrite Nat.add_0_r. }
  cbn [find_citations_from length].
  destruct (contains _ para).
  { eapply located_mono; [|done]. lia. }
  replace (i + S (length paragraphs))%nat with (S i + length paragraphs)%nat
    by lia.
  apply IH. apply (located_mono i (S i)) in Hacc; [|lia].
  revert acc Hacc.
  induction (parse_citation para) as [|cite cites IHc]; intros acc Hacc;
    [done|].
  cbn [fold_left]. by apply IHc, add_citation_located.
Qed.

(** The citations and their locations have the same keys in the same
    order, each key once; every citation has a location, and a location is
    the number of a paragraph of the text. *)
Theorem citations_and_locations paragraphs :
  let '(citations, citation_locations) := find_citations_in_text paragraphs in
  citations.*1 = citation_locations.*1
  ∧ NoDup citations.*1
  ∧ keyed c_author c_year citations
  ∧ ∀ k c, (k, c) ∈ citations →
      ∃ locations, dict_get k citation_locations = Some locations
                   ∧ locations ≠ []
                   ∧ Forall (λ n, (1 ≤ n ≤ length paragraphs)%nat) locations.
Proof.
  pose proof (find_citations_keyed paragraphs) as Hkeyed.
  pose proof (find_citations_located paragraphs 0 ([], [])) as Hloc.
  unfold find_citations_in_text in *.
  destruct (find_citations_from 0 paragraphs ([], [])) as [cits locs].
  destruct Hloc as (Hk & Hnd & Hl); [by split_and!; constructor|].
  cbn [fst snd] in *. split_and!; [done..|].
  intros k c Hin.
  assert (dict_mem k locs = true) as Hmem.
  { rewrite <- (dict_mem_keys k cits locs Hk). apply dict_mem_true.
    apply list_elem_of_fmap. by exists (k, c). }
  apply bool_decide_eq_true in Hmem as [l Hget]. exists l.
  split; [done|]. apply dict_get_Some in Hget.
  rewrite Forall_forall in Hl. by apply Hl in Hget.
Qed.

(** The scan for citations ends at the first paragraph that holds the
    opening tag of the reference list: nothing from there on is read. *)
Theorem citations_stop_at_references before para after :
  contains (lit "<ref-open>") para = true →
  find_citations_in_text (before ++ para :: after)
  = find_citations_in_text before.
Proof.
  intros Hpara. unfold find_citations_in_text.
  generalize (([], []) : dict citation * dict (list nat)). generalize 0%nat.
  induction before as [|p before IH]; intros i acc; cbn [find_citations_from app].
  - by rewrite Hpara.
  - destruct (contains _ p); [done|]. apply IH.
Qed.

(** ** The reference list *)

Lemma abbreviations_values (m : dict str) abbrs year ref_key kv :
  kv ∈ fold_left (λ m abbr, dict_set (abbr ++ lit "|" ++ year) ref_key m)
                 abbrs m →
  kv ∈ m ∨ kv.2 = ref_key.
Proof.
  revert m. induction abbrs as [|abbr abbrs IH]; intros m; cbn [fold_left].
  { by left. }
  intros [[->|Hin]%dict_set_elem_of|Hkv]%IH; auto.
Qed.

Lemma add_reference_listed i text ref_data b :
  (references b).*1 = (reference_details b).*1
  ∧ Forall (λ kv : str * str, kv.2 ∈ (references b).*1) (abbreviation_map b) →
  let b' := add_reference i text ref_data b in
  (references b').*1 = (reference_details b').*1
  ∧ Forall (λ kv : str * str, kv.2 ∈ (references b').*1) (abbreviation_map b').
Proof.
  intros [Hkeys Habbr]. unfold add_reference. cbn zeta.
  set (key := normalize_citation_key (pf_author ref_data) (pf_year ref_data)).
  destruct (dict_mem key (references b)) eqn:Hmem; [done|].
  cbn [references reference_details abbreviation_map].
  rewrite !dict_set_keys, <- (dict_mem_keys key _ _ Hkeys), Hmem, Hkeys.
  split; [done|].
  apply Forall_forall. intros kv [Hin| ->]%abbreviations_values.
  - rewrite Forall_forall in Habbr. apply Habbr in Hin.
    rewrite <- Hkeys. set_solver.
  - set_solver.
Qed.

Lemma find_references_listed paragraphs : ∀ i sec b,
  (references b).*1 = (reference_details b).*1
  ∧ Forall (λ kv : str * str, kv.2 ∈ (references b).*1) (abbreviation_map b) →
  let b' := find_references_from i paragraphs sec b in
  (references b').*1 = (reference_details b').*1
  ∧ Forall (λ kv : str * str, kv.2 ∈ (references b').*1) (abbreviation_map b').
Proof.
  induction paragraphs as [|para paragraphs IH]; intros i sec b Hb; [done|].
  cbn [find_references_from]. cbn zeta.
  repeat match goal with
         | |- context [if ?c then _ else _] => destruct c
         | |- context [match parse_reference ?t with _ => _ end] =>
             destruct (parse_reference t)
         end; apply IH; try done; by apply add_reference_listed.
Qed.

(** The references and their details have the same keys in the same
    order, each key once and each the normalized key of its entry; an
    abbreviation always leads to a key of the references. *)
Theorem bibliography_well_formed paragraphs :
  let b := find_references_in_bibliography paragraphs in
  (references b).*1 = (reference_details b).*1
  ∧ NoDup (references b).*1
  ∧ keyed rf_author rf_year (references b)
  ∧ ∀ abbr_key ref_key,
      dict_get abbr_key (abbreviation_map b) = Some ref_key →
      is_Some (dict_get ref_key (references b)).
Proof.
  cbn zeta.
  destruct (find_references_keyed paragraphs) as [Hkeyed Hnd].
  destruct (find_references_listed paragraphs 0 false (Bibliography [] [] []))
    as [Hkeys Habbr]; [by split|].
  fold (find_references_in_bibliography paragraphs) in Hkeys, Habbr.
  split_and!; [done..|].
  intros abbr_key ref_key Hget%dict_get_Some.
  rewrite Forall_forall in Habbr. apply Habbr in Hget. cbn in Hget.
  apply dict_mem_true in Hget. by apply bool_decide_eq_true in Hget.
Qed.

(** Without an opening tag there is no reference list: nothing is read
    as a reference. *)
Theorem no_opening_tag_no_references paragraphs :
  Forall (λ para, contains (lit "<ref-open>") (strip para) = false)
         paragraphs →
  find_references_in_bibliography paragraphs = Bibliography [] [] [].
Proof.
  intros Hall. unfold find_references_in_bibliography. generalize 0%nat.
  induction Hall as [|para paragraphs Hpara _ IH]; intros i; [done|].
  cbn [find_references_from]. cbn zeta. rewrite Hpara. cbn [andb].
  destruct (contains (lit "<ref-close>") (strip para)); apply IH.
Qed.

(** ** The smart match *)

Lemma first_match_sound sc refs k :
  first_match sc refs = Ok (Some k) →
  ∃ earlier rd later,
    refs = earlier ++ (k, rd) :: later
    ∧ candidate_matches sc rd = Ok true
    ∧ Forall (λ kd, candidate_matches sc kd.2 = Ok false) earlier.
Proof.
  induction refs as [|[k' rd] refs IH]; cbn [first_match]; [done|].
  destruct (candidate_matches sc rd) as [[]|] eqn:Hc; cbn; [| |done].
  - intros [= ->]. by exists [], rd, refs.
  - intros (earlier & rd' & later & -> & Hrd' & He)%IH.
    exists ((k', rd) :: earlier), rd', later. split_and!; [done..|].
    by constructor.
Qed.

Lemma candidate_matches_year sc rd :
  candidate_matches sc rd = Ok true →
  sc_year sc = [] ∨ rf_year rd = sc_year sc.
Proof.
  unfold candidate_matches, year_ok, nonempty, str_eqb.
  destruct (sc_year sc) as [|c y]; [by left|]. cbn [is_empty negb andb].
  case_bool_decide; [by right|done].
Qed.

Lemma smart_citation_year c sc :
  smart_citation_of c = Ok sc → sc_year sc = c_year c.
Proof.
  unfold smart_citation_of. cbn zeta.
  destruct (if nonempty _ then _ else _); [|done]. cbn. by intros [= <-].
Qed.

(** A smart match is an entry of the references, the first that passes
    one of the four rules; when the citation has a year, the entry has the
    same year. *)
Theorem smart_match_sound c refs k :
  check_smart_match c refs = Ok (Some k) →
  ∃ earlier rd later,
    refs = earlier ++ (k, rd) :: later
    ∧ (c_year c = [] ∨ rf_year rd = c_year c)
    ∧ ∃ sc, smart_citation_of c = Ok sc
            ∧ candidate_matches sc rd = Ok true
            ∧ Forall (λ kd, candidate_matches sc kd.2 = Ok false) earlier.
Proof.
  unfold check_smart_match.
  destruct (smart_citation_of c) as [sc|] eqn:Hsc; [|done].
  cbn [mbind outcome_bind bind].
  intros (earlier & rd & later & -> & Hrd & He)%first_match_sound.
  exists earlier, rd, later. split_and!; [done| |by exists sc].
  rewrite <- (smart_citation_year c sc Hsc). by apply candidate_matches_year.
Qed.

(** ** What can fail *)

Lemma head_exn_raise {A} (l : list A) e :
  head_exn l = Raise e → e = IndexError ∧ l = [].
Proof. destruct l; [by intros [= <-]|done]. Qed.

Lemma candidate_matches_raise sc rd e :
  candidate_matches sc rd = Raise e →
  e = IndexError ∧ blank_author (rf_full_author rd).
Proof.
  unfold candidate_matches, rule_c.
  destruct (negb _); [done|]. destruct (rule_a _ _); [done|].
  destruct (rule_b _ _); [done|]. destruct (sc_is_etal sc); [|cbn; by destruct (rule_d _ _)].
  destruct (head_exn _) as [first|e'] eqn:Hhead; cbn.
  - by destruct (str_eqb _ _).
  - intros [= <-]. by apply head_exn_raise in Hhead.
Qed.

Lemma first_match_raise sc refs e :
  first_match sc refs = Raise e →
  e = IndexError ∧ ∃ k rd, (k, rd) ∈ refs ∧ blank_author (rf_full_author rd).
Proof.
  induction refs as [|[k rd] refs IH]; cbn [first_match]; [done|].
  destruct (candidate_matches sc rd) as [[]|e'] eqn:Hc; cbn; [done| |].
  - intros [-> (k' & rd' & Hin & Hb)]%IH. split; [done|].
    exists k', rd'. split; [by right|done].
  - intros [= <-]. apply candidate_matches_raise in Hc as [-> Hb].
    split; [done|]. exists k, rd. split; [by left|done].
Qed.

Lemma check_smart_match_raise c refs e :
  check_smart_match c refs = Raise e →
  e = IndexError
  ∧ (blank_author (c_author c)
     ∨ ∃ k rd, (k, rd) ∈ refs ∧ blank_author (rf_full_author rd)).
Proof.
  unfold check_smart_match, smart_citation_of. cbn zeta.
  destruct (nonempty (normalize_text_for_comparison (c_author c))).
  - destruct (head_exn _) as [first|e'] eqn:Hhead; cbn.
    + intros [-> ?]%first_match_raise. by split; [|right].
    + intros [= <-]. apply head_exn_raise in Hhead as [-> ?].
      by split; [|left].
  - cbn. intros [-> ?]%first_match_raise. by split; [|right].
Qed.

Lemma match_citation_raise refs abbr k c e :
  match_citation refs abbr k c = Raise e →
  e = IndexError
  ∧ (blank_author (c_author c)
     ∨ ∃ k rd, (k, rd) ∈ refs ∧ blank_author (rf_full_author rd)).
Proof.
  unfold match_citation. cbn zeta.
  destruct (dict_mem k refs); [done|].
  destruct (dict_get _ abbr); [done|].
  destruct (check_smart_match c refs) as [r|e'] eqn:Hsmart; [done|].
  cbn. intros [= <-]. by apply check_smart_match_raise in Hsmart.
Qed.

(** The matcher fails only with IndexError, at [split()[0]] of a
    normalized author that has no word: the author of a citation, or the
    full author of a reference. *)
Theorem matcher_fails_only_on_blank_author cits refs abbr e :
  get_citation_matches cits refs abbr = Raise e →
  e = IndexError
  ∧ ((∃ k c, (k, c) ∈ cits ∧ blank_author (c_author c))
     ∨ ∃ k rd, (k, rd) ∈ refs ∧ blank_author (rf_full_author rd)).
Proof.
  unfold get_citation_matches. generalize (Matches ∅ ∅ []).
  induction cits as [|kc cits IH]; intros m; cbn [foldM]; [done|].
  destruct (match_citation refs abbr kc.1 kc.2) as [r|e'] eqn:Hm; cbn.
  - intros [-> [(k' & c' & Hin & Hb)|?]]%IH; (split; [done|]); [left|by right].
    exists k', c'. split; [by right|done].
  - intros [= <-]. apply match_citation_raise in Hm as [-> [Hb|?]];
      (split; [done|]); [left|by right].
    exists kc.1, kc.2. split; [destruct kc; by left|done].
Qed.

(** What the matcher's result promises to the main loop. *)
Lemma match_citation_key refs abbr k c rk :
  (∀ abbr_key ref_key,
     dict_get abbr_key abbr = Some ref_key → is_Some (dict_get ref_key refs)) →
  match_citation refs abbr k c = Ok (Some rk) →
  is_Some (dict_get rk refs).
Proof.
  intros Habbr. unfold match_citation. cbn zeta.
  destruct (dict_mem k refs) eqn:Hmem.
  { cbn. destruct (nonempty k); [|done]. intros [= <-].
    by apply bool_decide_eq_true in Hmem. }
  destruct (dict_get _ abbr) as [ref_key|] eqn:Hget.
  { cbn. destruct (nonempty ref_key); [|done]. intros [= <-]. by eapply Habbr. }
  destruct (check_smart_match c refs) as [[k'|]|] eqn:Hsmart; [| |done]; cbn.
  - destruct (nonempty k') eqn:Hk'; [|done]. cbn. rewrite Hk'. intros [= <-].
    apply smart_match_sound in Hsmart as (earlier & rd & later & -> & _).
    apply (proj1 (bool_decide_eq_true _)), dict_mem_true.
    rewrite fmap_app, fmap_cons. set_solver.
  - done.
Qed.

Lemma matches_paired refs abbr cits :
  (∀ abbr_key ref_key,
     dict_get abbr_key abbr = Some ref_key → is_Some (dict_get ref_key refs)) →
  ∀ m0 m,
    (∀ k, k ∈ matched_citations m0 → is_Some (dict_get k (matched_pairs m0))) →
    (∀ k rk, dict_get k (matched_pairs m0) = Some rk →
             is_Some (dict_get rk refs)) →
    foldM (λ (m : matches) (kc : str * citation),
             r ← match_citation refs abbr kc.1 kc.2;
             Ok (match r with
                 | Some matched_ref_key =>
                     Matches ({[kc.1]} ∪ matched_citations m)
                             ({[matched_ref_key]} ∪ matched_references m)
                             (dict_set kc.1 matched_ref_key (matched_pairs m))
                 | None => m
                 end))
          cits m0 = Ok m →
    (∀ k, k ∈ matched_citations m → is_Some (dict_get k (matched_pairs m)))
    ∧ (∀ k rk, dict_get k (matched_pairs m) = Some rk →
               is_Some (dict_get rk refs)).
Proof.
  intros Habbr.
  induction cits as [|kc cits IH]; intros m0 m Hp1 Hp2; cbn [foldM].
  { by intros [= <-]. }
  destruct (match_citation refs abbr kc.1 kc.2) as [r|] eqn:Hr; [|done].
  cbn. apply IH; destruct r as [rk|]; try done; cbn.
  - intros k. rewrite dict_get_set, elem_of_union, elem_of_singleton.
    unfold str_eqb. case_bool_decide; [intros _; by eexists|].
    intros [?|?]; [done|by apply Hp1].
  - intros k rk'. rewrite dict_get_set. unfold str_eqb.
    case_bool_decide; [|by apply Hp2].
    intros [= <-]. exact (match_citation_key _ _ _ _ _ Habbr Hr).
Qed.

Lemma main_loop m refs locs cits :
  (∀ k, k ∈ matched_citations m → is_Some (dict_get k (matched_pairs m))) →
  (∀ k rk, dict_get k (matched_pairs m) = Some rk →
           is_Some (dict_get rk refs)) →
  ∀ dg0, ∃ dg,
    foldM (diagnose_citation m refs locs) cits dg0 = Ok dg
    ∧ valid_citations dg
      = valid_citations dg0
        ++ ((λ kc, c_display kc.2)
              <$> filter (λ kc, kc.1 ∈ matched_citations m) cits)
    ∧ format_errors dg = format_errors dg0 ++ omap (format_entry locs) cits
    ∧ (length (et_al_errors dg) ≤ length (et_al_errors dg0)
         + length (filter (λ kc, kc.1 ∈ matched_citations m) cits))%nat.
Proof.
  intros Hp1 Hp2.
  induction cits as [|[k c] cits IH]; intros dg0; cbn [foldM].
  { exists dg0. rewrite filter_nil. cbn. rewrite !app_nil_r.
    split_and!; [done..|lia]. }
  assert (∃ dg1,
            diagnose_citation m refs locs dg0 (k, c) = Ok dg1
            ∧ valid_citations dg1
              = valid_citations dg0
                ++ (if bool_decide (k ∈ matched_citations m)
                    then [c_display c] else [])
            ∧ format_errors dg1
              = format_errors dg0 ++ option_list (format_entry locs (k, c))
            ∧ (length (et_al_errors dg1) ≤ length (et_al_errors dg0)
                 + (if bool_decide (k ∈ matched_citations m) then 1 else 0))%nat)
    as (dg1 & Hstep & Hv1 & Hf1 & He1).
  { unfold diagnose_citation, format_entry. cbn zeta. cbn [fst snd].
    assert (∀ fe, (if is_empty (c_warnings c) then fe
                   else fe ++ [FormatError (c_display c) (c_warnings c)
                                 (default [] (dict_get k locs))])
                  = fe ++ option_list
                            (if is_empty (c_warnings c) then None
                             else Some (FormatError (c_display c) (c_warnings c)
                                          (default [] (dict_get k locs)))))
      as Hfe.
    { intros fe. destruct (is_empty _); cbn; by rewrite ?app_nil_r. }
    case_bool_decide as Hk.
    - destruct (Hp1 k Hk) as [rk Hrk]. destruct (Hp2 k rk Hrk) as [rd Hrd].
      unfold dict_lookup. rewrite Hrk. cbn [mbind outcome_bind bind].
      rewrite Hrd. cbn [mbind outcome_bind bind].
      eexists. split; [done|]. cbn. split_and!; [done|apply Hfe|].
      destruct (check_et_al_misuse c rd); rewrite ?length_app; cbn; lia.
    - destruct (diagnose (strip (c_author c)) refs) as [rk rd|rk|] eqn:Hd.
      + eexists. split; [done|]. cbn. rewrite app_nil_r.
        split_and!; [done|apply Hfe|lia].
      + assert (is_Some (dict_get rk refs)) as [rd Hrd].
        { unfold diagnose in Hd.
          destruct (find_year_match _ _) as [[? ?]|]; [done|].
          pose proof (check_spelling_mismatch_spec (strip (c_author c)) refs)
            as Hspec.
          destruct (check_spelling_mismatch _ _) as [rk'|]; [|done].
          destruct (nonempty rk'); [|done]. injection Hd as ->.
          destruct Hspec as (rd & Hin & _).
          apply (proj1 (bool_decide_eq_true _)), dict_mem_true.
          apply list_elem_of_fmap. by exists (rk, rd). }
        unfold dict_lookup. rewrite Hrd. cbn [mbind outcome_bind bind].
        eexists. split; [done|]. cbn. rewrite app_nil_r.
        split_and!; [done|apply Hfe|lia].
      + eexists. split; [done|]. cbn. rewrite app_nil_r.
        split_and!; [done|apply Hfe|lia]. }
  rewrite Hstep. cbn [mbind outcome_bind bind].
  destruct (IH dg1) as (dg & Hdg & Hv & Hf & He). exists dg.
  split; [done|]. rewrite Hv, Hf, Hv1, Hf1, omap_cons, (filter_cons _ (k, c)).
  cbn [fst]. rewrite <- !app_assoc.
  split_and!; [|done|].
  - f_equal. case_bool_decide.
    + by rewrite decide_True by done.
    + by rewrite decide_False by done.
  - case_bool_decide.
    + rewrite decide_True by done. cbn [length]. lia.
    + rewrite decide_False by done. lia.
Qed.

(** The three lists of the unresolved citations, and their sizes. *)
Lemma unresolved_lists paragraphs v :
  validate_document paragraphs = Ok v →
  let refs := references (v_bibliography v) in
  let locs := v_citation_locations v in
  let todo := unresolved (v_matches v) (v_citations v) in
  let dg := v_diagnostics v in
  year_mismatches dg = omap (year_entry locs refs) todo
  ∧ spelling_mismatches dg = omap (spelling_entry locs refs) todo
  ∧ missing_refs dg = omap (missing_entry locs refs) todo
  ∧ (length (year_mismatches dg) + length (spelling_mismatches dg)
     + length (missing_refs dg) = length todo)%nat.
Proof.
  unfold validate_document.
  pose proof (find_citations_keyed paragraphs) as Hcits.
  pose proof (find_references_keyed paragraphs) as [Hrefs Hnd].
  destruct (find_citations_in_text paragraphs) as [cits locs].
  cbn [fst] in Hcits.
  set (b := find_references_in_bibliography paragraphs) in *.
  destruct (get_citation_matches cits (references b) (abbreviation_map b))
    as [m|] eqn:Hm; [|done].
  cbn [mbind outcome_bind bind].
  destruct (foldM (diagnose_citation m (references b) locs) cits
              (Diagnostics [] [] [] [] [] []))
    as [dg|] eqn:Hdg; [|done].
  cbn [mbind outcome_bind bind].
  destruct (find_duplicates _ _) as [dups|]; [|done].
  intros [= <-]. cbn.
  apply diagnose_loop in Hdg as (Hy & Hs & Hmiss). cbn in Hy, Hs, Hmiss.
  split_and!; [done..|].
  rewrite Hy, Hs, Hmiss. apply one_entry_each.
  apply Forall_forall. intros [k c] Hin. apply diagnose_spec; [done..|].
  by eapply unresolved_no_reference.
Qed.

Lemma validate_document_eq paragraphs :
  let citations := (find_citations_in_text paragraphs).1 in
  let locations := (find_citations_in_text paragraphs).2 in
  let b := find_references_in_bibliography paragraphs in
  match get_citation_matches citations (references b) (abbreviation_map b) with
  | Ok m =>
      ∃ dg duplicates,
        foldM (diagnose_citation m (references b) locations) citations
              (Diagnostics [] [] [] [] [] []) = Ok dg
        ∧ valid_citations dg
          = (λ kc, c_display kc.2)
              <$> filter (λ kc, kc.1 ∈ matched_citations m) citations
        ∧ format_errors dg = omap (format_entry locations) citations
        ∧ (length (et_al_errors dg) ≤ length (valid_citations dg))%nat
        ∧ validate_document paragraphs =
            Ok (Validation citations locations b m
                  (Diagnostics
                     (merge_sort (λ a b, Is_true (str_leb a b))
                                 (valid_citations dg))
                     (et_al_errors dg) (year_mismatches dg)
                     (spelling_mismatches dg) (missing_refs dg)
                     (format_errors dg))
                  (omap (unused_of m dg (reference_details b)) (references b))
                  duplicates)
  | Raise e => validate_document paragraphs = Raise e ∧ e = IndexError
  end.
Proof.
  cbn zeta. unfold validate_document.
  destruct (bibliography_well_formed paragraphs) as (_ & _ & _ & Habbr).
  destruct (find_citations_in_text paragraphs) as [cits locs]. cbn [fst snd].
  set (b := find_references_in_bibliography paragraphs) in *.
  destruct (get_citation_matches cits (references b) (abbreviation_map b))
    as [m|e] eqn:Hm; cbn [mbind outcome_bind bind].
  - apply (matches_paired _ _ _ Habbr) in Hm as [Hp1 Hp2];
      [|set_solver|done].
    destruct (main_loop m (references b) locs cits Hp1 Hp2
                (Diagnostics [] [] [] [] [] []))
      as (dg & Hdg & Hv & Hf & He).
    cbn in Hv, Hf, He. unfold find_duplicates. rewrite DuplicateFacts.apa_compare_all.
    exists dg. eexists. rewrite Hdg. cbn [mbind outcome_bind bind].
    split_and!; [done..| |done].
    rewrite Hv, length_fmap. lia.
  - split; [done|].
    by apply matcher_fails_only_on_blank_author in Hm as [-> _].
Qed.

(** Once the citations are matched nothing else fails: the validation
    returns whenever the matcher does (no key is looked up that is not
    there, nothing is divided by zero), and fails as the matcher does
    otherwise, with IndexError. *)
Theorem validation_fails_only_in_matching paragraphs :
  let citations := (find_citations_in_text paragraphs).1 in
  let b := find_references_in_bibliography paragraphs in
  match get_citation_matches citations (references b) (abbreviation_map b) with
  | Ok m => ∃ v, validate_document paragraphs = Ok v ∧ v_matches v = m
  | Raise e => validate_document paragraphs = Raise e ∧ e = IndexError
  end.
Proof.
  cbn zeta. pose proof (validate_document_eq paragraphs) as Heq.
  cbn zeta in Heq.
  destruct (get_citation_matches _ _ _) as [m|e]; [|done].
  destruct Heq as (dg & dups & _ & _ & _ & _ & ->). by eexists.
Qed.

Lemma filter_complement {A} (P : A → Prop) `{∀ x, Decision (P x)} (l : list A) :
  (length (filter P l) + length (filter (λ x, ¬ P x) l) = length l)%nat.
Proof.
  induction l as [|x l IH]; [done|]. rewrite !filter_cons.
  destruct (decide (P x)).
  - rewrite decide_False by tauto. cbn. lia.
  - rewrite decide_True by done. cbn. lia.
Qed.

(** Every citation is counted once: as valid, as a year mismatch, as a
    spelling mismatch or as missing its reference.  The valid citations
    are the matched ones, and an et al. error is reported for a matched
    citation only. *)
Theorem every_citation_classified paragraphs v :
  validate_document paragraphs = Ok v →
  let dg := v_diagnostics v in
  (length (valid_citations dg) + length (year_mismatches dg)
   + length (spelling_mismatches dg) + length (missing_refs dg)
   = length (v_citations v))%nat
  ∧ valid_citations dg
    ≡ₚ (λ kc, c_display kc.2)
         <$> filter (λ kc, kc.1 ∈ matched_citations (v_matches v))
                    (v_citations v)
  ∧ (length (et_al_errors dg) ≤ length (valid_citations dg))%nat.
Proof.
  intros Hv. cbn zeta.
  destruct (unresolved_lists paragraphs v Hv) as (Hy & Hs & Hm & Hone).
  pose proof (validate_document_eq paragraphs) as Heq. cbn zeta in Heq.
  destruct (get_citation_matches _ _ _) as [m|e];
    [|destruct Heq as [Heq _]; congruence].
  destruct Heq as (dg & dups & _ & Hvalid & _ & Het & Heq).
  rewrite Heq in Hv. injection Hv as <-. cbn in *.
  rewrite merge_sort_Permutation, Hvalid. split_and!; [|done|].
  - rewrite length_fmap, <- Nat.add_assoc, <- Nat.add_assoc.
    rewrite (Nat.add_assoc (length (year_mismatches dg))), Hone.
    apply (filter_complement (λ kc : str * citation,
                                kc.1 ∈ matched_citations m)).
  - by rewrite Hvalid in Het.
Qed.

(** A citation with warnings is reported as a format error exactly once,
    whatever its diagnosis; a citation without warnings never is. *)
Theorem format_errors_once paragraphs v :
  validate_document paragraphs = Ok v →
  format_errors (v_diagnostics v)
  = omap (format_entry (v_citation_locations v)) (v_citations v).
Proof.
  intros Hv.
  pose proof (validate_document_eq paragraphs) as Heq. cbn zeta in Heq.
  destruct (get_citation_matches _ _ _) as [m|e];
    [|destruct Heq as [Heq _]; congruence].
  destruct Heq as (dg & dups & _ & _ & Hf & _ & Heq).
  rewrite Heq in Hv. by injection Hv as <-.
Qed.

(** ** File names *)

Lemma rpartition_spec sep s :
  match rpartition sep s with
  | (Some first, last) => s = first ++ sep :: last ∧ sep ∉ last
  | (None, last) => s = last ∧ sep ∉ s
  end.
Proof.
  induction s as [|c s IH]; cbn [rpartition].
  { split; [done|by intros ?%elem_of_nil]. }
  destruct (rpartition sep s) as [[first|] last].
  - destruct IH as [-> Hlast]. by split.
  - destruct IH as [<- Hs]. destruct (N.eqb_spec c sep) as [->|Hne].
    + by split.
    + split; [done|]. set_solver.
Qed.

Lemma last_part_unique {A} (c : A) x : ∀ x' y y',
  x ++ c :: y = x' ++ c :: y' → c ∉ y → c ∉ y' → x = x' ∧ y = y'.
Proof.
  induction x as [|d x IH]; intros [|d' x'] y y'; cbn.
  - by intros [= ->].
  - intros [= <- ->]. set_solver.
  - intros [= -> <-]. set_solver.
  - intros [= <- Heq] Hy Hy'. by destruct (IH _ _ _ Heq Hy Hy') as [-> ->].
Qed.

(** A file name is allowed when the text after its last "." is "docx" in
    any case; a name without "." is not allowed.  The test never
    fails. *)
Theorem allowed_file_spec filename :
  ∃ allowed,
    allowed_file filename = Ok allowed
    ∧ (allowed = true
       ↔ ∃ stem extension,
           filename = stem ++ lit "." ++ extension
           ∧ 46%N ∉ extension
           ∧ lower extension = lit "docx").
Proof.
  unfold allowed_file, ALLOWED_EXTENSIONS. change (lit ".") with [46%N].
  pose proof (contains_char 46 filename) as Hdot.
  pose proof (rpartition_spec 46 filename) as Hparts.
  unfold rsplit1.
  destruct (contains [46%N] filename).
  - destruct (rpartition 46 filename) as [[first|] last].
    + destruct Hparts as [-> Hlast]. cbn. eexists. split; [done|].
      rewrite bool_decide_eq_true, list_elem_of_singleton. split.
      * intros Hlower. by exists first, last.
      * intros (stem & extension & Heq & Hext & Hlower). cbn in Heq.
        by destruct (last_part_unique _ _ _ _ _ Heq Hlast Hext) as [_ ->].
    + destruct Hparts as [_ []]. by apply Hdot.
  - exists false. split; [done|]. split; [done|].
    intros (stem & extension & -> & _). cbn in Hdot.
    assert (false = true) as Hf; [|done]. apply Hdot. set_solver.
Qed.

(** ** The older matcher *)

(** [match_citation_to_reference] returns the first reference that
    passes its test, and that reference has the year of the citation; a
    citation whose author is blank matches the first reference of its
    year. *)
Theorem legacy_match_spec citation refs :
  (∀ k, match_citation_to_reference citation refs = Some k →
        ∃ earlier rd later,
          refs = earlier ++ (k, rd) :: later
          ∧ rf_year rd = c_year citation
          ∧ Forall (λ kd, legacy_candidate (strip (c_author citation))
                            (c_year citation) kd.2 = false) earlier)
  ∧ (strip (c_author citation) = [] →
     match_citation_to_reference citation refs
     = fst <$> List.find (λ kd, str_eqb (c_year citation) (rf_year kd.2)) refs).
Proof.
  unfold match_citation_to_reference. cbn zeta. split.
  - intros k. induction refs as [|[k' rd] refs IH]; cbn [find]; [done|].
    cbn [snd]. destruct (legacy_candidate _ _ rd) eqn:Hrd.
    + intros [= <-]. exists [], rd, refs. split_and!; [done| |done].
      unfold legacy_candidate, str_eqb in Hrd. cbn zeta in Hrd.
      by case_bool_decide.
    + intros (earlier & rd' & later & -> & Hy & He)%IH.
      exists ((k', rd) :: earlier), rd', later. split_and!; [done..|].
      by constructor.
  - intros ->. f_equal. clear.
    induction refs as [|[k rd] refs IH]; [done|]. cbn [find snd].
    rewrite IH.
    assert (legacy_candidate [] (c_year citation) rd
            = str_eqb (c_year citation) (rf_year rd)) as ->; [|done].
    unfold legacy_candidate. cbn zeta.
    destruct (str_eqb (c_year citation) (rf_year rd)); [|done].
    cbn [negb]. by destruct (lower (rf_full_author rd)).
Qed.

(** ** The runs of a citation *)

Lemma startswith_spec p s : startswith p s = true ↔ ∃ v, s = p ++ v.
Proof.
  revert s. induction p as [|a p IH]; intros s; cbn [startswith].
  { split; [by exists s|done]. }
  destruct s as [|b s]; [split; [done|by intros [? [=]]]|].
  rewrite andb_true_iff, N.eqb_eq, IH. split.
  - intros [-> [v ->]]. by exists v.
  - intros [v [= -> ->]]. eauto.
Qed.

Lemma find_from_spec p s : ∀ i j,
  find_from i p s = Some j →
  ∃ u v, s = u ++ p ++ v ∧ j = (i + length u)%nat.
Proof.
  induction s as [|c s IH]; intros i j; cbn [find_from].
  - destruct (startswith p []) eqn:Hp; [|done]. intros [= <-].
    apply startswith_spec in Hp as [v Hv]. exists [], v. split; [done|].
    cbn. lia.
  - destruct (startswith p (c :: s)) eqn:Hp.
    + intros [= <-]. apply startswith_spec in Hp as [v Hv].
      exists [], v. split; [done|]. cbn. lia.
    + intros (u & v & -> & ->)%IH. exists (c :: u), v. split; [done|].
      cbn. lia.
Qed.

Lemma find_from_complete p s : ∀ i,
  contains p s = true → is_Some (find_from i p s).
Proof.
  induction s as [|c s IH]; intros i; cbn [contains find_from].
  - rewrite orb_false_r. by intros ->.
  - destruct (startswith p (c :: s)); [done|]. cbn. apply IH.
Qed.

Lemma contains_middle p u v : contains p (u ++ p ++ v) = true.
Proof.
  induction u as [|c u IH]; cbn [contains app].
  - assert (startswith p (p ++ v) = true) as Hp
      by (apply startswith_spec; by exists v).
    destruct (p ++ v); cbn [contains]; by rewrite Hp.
  - by rewrite IH, orb_true_r.
Qed.

Section Overlap.
Context (start_pos end_pos : nat).

(** The runs that start at or after the end of the match. *)
Lemma runs_past_the_end runs : ∀ o,
  (end_pos ≤ o)%nat → filter (overlaps start_pos end_pos) (run_map o runs) = [].
Proof.
  induction runs as [|r runs IH]; intros o Ho; [done|].
  cbn [run_map]. rewrite filter_cons, decide_False.
  - apply IH. lia.
  - unfold overlaps. cbn. lia.
Qed.

(** The runs after the one in which the match starts. *)
Lemma runs_inside runs : ∀ o,
  (start_pos < o)%nat →
  ∃ mid post,
    runs = mid ++ post
    ∧ (filter (overlaps start_pos end_pos) (run_map o runs)).*2 = mid
    ∧ ((end_pos ≤ o + length (texts mid))%nat ∨ post = []).
Proof.
  induction runs as [|r runs IH]; intros o Ho.
  { exists [], []. by split_and!; [..|right]. }
  cbn [run_map]. rewrite filter_cons.
  destruct (decide (o < end_pos)%nat) as [Hend|Hend].
  - rewrite decide_True by (unfold overlaps; cbn; lia).
    destruct (IH (o + length (Docx.r_text r))%nat) as (mid & post & -> & Hmid & Hcov);
      [lia|].
    exists (r :: mid), post. split_and!; [done|by rewrite fmap_cons, Hmid|].
    destruct Hcov as [Hcov|Hcov]; [left|by right].
    unfold texts in *. cbn [map concat]. rewrite length_app. lia.
  - rewrite decide_False by (unfold overlaps; cbn; lia).
    rewrite runs_past_the_end by lia.
    exists [], (r :: runs). split_and!; [done..|]. left. cbn. lia.
Qed.

Lemma take_drop_prefix {A} (x y : list A) n k :
  (n + k ≤ length x)%nat → take k (drop n (x ++ y)) = take k (drop n x).
Proof.
  intros Hlen. rewrite drop_app_le by lia.
  rewrite take_app_le; [done|]. rewrite length_drop. lia.
Qed.

(** All the runs, from the position [o] of the first. *)
Lemma runs_overlapping runs : ∀ o,
  (o ≤ start_pos < end_pos)%nat →
  (end_pos ≤ o + length (texts runs))%nat →
  ∃ pre mid post a b,
    runs = pre ++ mid ++ post
    ∧ (filter (overlaps start_pos end_pos) (run_map o runs)).*2 = mid
    ∧ texts mid
      = a ++ take (end_pos - start_pos) (drop (start_pos - o) (texts runs))
          ++ b.
Proof.
  induction runs as [|r runs IH]; intros o Ho Hlen.
  { cbn in Hlen. lia. }
  cbn [run_map]. rewrite filter_cons.
  set (len := length (Docx.r_text r)).
  assert (texts (r :: runs) = Docx.r_text r ++ texts runs) as Htexts by done.
  destruct (decide (start_pos < o + len)%nat) as [Hin|Hout].
  - rewrite decide_True by (unfold overlaps; cbn; lia).
    destruct (runs_inside runs (o + len)%nat) as (mid & post & -> & Hmid & Hcov);
      [lia|].
    exists [], (r :: mid), post.
    exists (take (start_pos - o) (texts (r :: mid))),
           (drop (start_pos - o + (end_pos - start_pos)) (texts (r :: mid))).
    split_and!; [done|by rewrite fmap_cons, Hmid|].
    assert (texts (r :: mid ++ post) = texts (r :: mid) ++ texts post) as ->.
    { unfold texts. by rewrite app_comm_cons, map_app, concat_app. }
    assert (start_pos - o + (end_pos - start_pos)
            ≤ length (texts (r :: mid)))%nat as Hfit.
    { destruct Hcov as [Hcov| ->].
      - unfold texts in *. cbn [map concat]. rewrite length_app. fold len. lia.
      - rewrite app_nil_r in Hlen. lia. }
    rewrite take_drop_prefix by done.
    rewrite <- (take_drop (start_pos - o) (texts (r :: mid))) at 1.
    f_equal.
    rewrite <- (take_drop (end_pos - start_pos)
                  (drop (start_pos - o) (texts (r :: mid)))) at 1.
    by rewrite drop_drop.
  - rewrite decide_False by (unfold overlaps; cbn; lia).
    destruct (IH (o + len)%nat) as (pre & mid & post & a & b & -> & Hmid & Hcov).
    { lia. }
    { rewrite Htexts, length_app in Hlen. fold len in Hlen. lia. }
    exists (r :: pre), mid, post, a, b. split_and!; [done..|].
    rewrite Hcov, Htexts. do 2 f_equal.
    rewrite drop_app_ge by (fold len; lia). fold len.
    by replace (start_pos - o - len)%nat with (start_pos - (o + len))%nat
      by lia.
Qed.

End Overlap.

(** When the citation text occurs in the text of the paragraph, the runs
    found are consecutive runs of the paragraph, and the citation text
    occurs in their joint text.  For an empty citation text, and for a
    text that does not occur even when case is ignored, no run is
    found. *)
Theorem find_citation_in_runs_spec para citation_text :
  (citation_text ≠ [] →
   contains citation_text (Docx.p_text para) = true →
   ∃ pre post,
     Docx.p_runs para = pre ++ find_citation_in_runs para citation_text ++ post
     ∧ contains citation_text
         (concat (map Docx.r_text (find_citation_in_runs para citation_text)))
       = true)
  ∧ find_citation_in_runs para [] = []
  ∧ (contains citation_text (Docx.p_text para) = false →
     contains (lower citation_text) (lower (Docx.p_text para)) = false →
     find_citation_in_runs para citation_text = []).
Proof.
  split_and!.
  - intros Hne Hin. unfold find_citation_in_runs.
    assert (is_empty citation_text = false) as ->
      by (by destruct citation_text).
    cbn zeta.
    destruct (find_from_complete _ _ 0 Hin) as [i Hi].
    unfold str_find. rewrite Hi.
    apply find_from_spec in Hi as (u & v & Hfull & ->). cbn [Nat.add].
    destruct (runs_overlapping (length u) (length u + length citation_text)
                (Docx.p_runs para) 0)
      as (pre & mid & post & a & b & Hruns & Hmid & Hcov).
    { split; [lia|]. destruct citation_text; [done|]. cbn. lia. }
    { unfold texts. fold (Docx.p_text para). rewrite Hfull, !length_app. lia. }
    unfold overlaps, texts in Hmid, Hcov.
    rewrite Hmid. exists pre, post. split; [done|].
    rewrite Hcov. fold (Docx.p_text para). rewrite Hfull.
    replace (length u + length citation_text - length u)%nat
      with (length citation_text) by lia.
    rewrite Nat.sub_0_r, drop_app_length, take_app_length.
    apply contains_middle.
  - done.
  - intros Hexact Hlower. unfold find_citation_in_runs, str_find.
    destruct (is_empty citation_text); [done|]. cbn zeta.
    destruct (find_from 0 citation_text (Docx.p_text para)) as [i|] eqn:Hi.
    { apply find_from_spec in Hi as (u & v & Hfull & _).
      by rewrite Hfull, contains_middle in Hexact. }
    destruct (find_from 0 (lower citation_text) (lower (Docx.p_text para)))
      as [i|] eqn:Hi'; [|done].
    apply find_from_spec in Hi' as (u & v & Hfull & _).
    by rewrite Hfull, contains_middle in Hlower.
Qed.

End Properties.
End APAProperties.

Module APAPropertiesExamples.
Import Py APA Spec Examples APAFacts APAProperties.

#[local] Existing Instances basic_latin exact_difflib no_rounding field_parser.

Lemma citations_stop_at_references_witness :
  find_citations_in_text
    ([lit "Smith;2020"] ++ lit "<ref-open>" :: [lit "Brown;2001"])
  = find_citations_in_text [lit "Smith;2020"].
Proof. by apply (citations_stop_at_references (H:=basic_latin)). Defined.

Lemma no_opening_tag_no_references_witness :
  find_references_in_bibliography
    [lit "Smith;2020"; lit "<ref-close>"; lit "Brown;2001"]
  = Bibliography [] [] [].
Proof.
  apply (no_opening_tag_no_references (H:=basic_latin)).
  repeat constructor.
Defined.

Lemma smart_match_sound_witness :
  ∃ earlier rd later,
    [(lit "Brown|2020", listed "Brown" "Brown, K.");
     (lit "Jones & Smith|2020", listed "Jones & Smith" "Jones, A., & Smith, B.")]
    = earlier ++ (lit "Jones & Smith|2020", rd) :: later
    ∧ rf_year rd = lit "2020".
Proof.
  destruct (smart_match_sound (H:=basic_latin) (cited "Smith and Jones")
              [(lit "Brown|2020", listed "Brown" "Brown, K.");
               (lit "Jones & Smith|2020",
                listed "Jones & Smith" "Jones, A., & Smith, B.")]
              (lit "Jones & Smith|2020"))
    as (earlier & rd & later & Heq & [Hy|Hy] & _).
  - by vm_compute.
  - by vm_compute in Hy.
  - by exists earlier, rd, later.
Defined.

Lemma matcher_fails_witness :
  ∃ e, get_citation_matches
         [(lit "Smith et al|2020", cited "Smith et al.")]
         [(lit "|2020", listed "" "")] []
       = Raise e
       ∧ e = IndexError.
Proof.
  destruct (get_citation_matches
              [(lit "Smith et al|2020", cited "Smith et al.")]
              [(lit "|2020", listed "" "")] []) as [m|e] eqn:Hm;
    [by vm_compute in Hm|].
  exists e. split; [done|].
  by apply (matcher_fails_only_on_blank_author (H:=basic_latin)) in Hm as [-> _].
Defined.

Lemma every_citation_classified_witness :
  ∃ v, validate_document three_diagnoses = Ok v
       ∧ length (v_citations v) = 3%nat
       ∧ (length (valid_citations (v_diagnostics v))
          + length (year_mismatches (v_diagnostics v))
          + length (spelling_mismatches (v_diagnostics v))
          + length (missing_refs (v_diagnostics v))
          = length (v_citations v))%nat.
Proof.
  destruct (validate_document three_diagnoses) as [v|e] eqn:Hv;
    [|by vm_compute in Hv].
  exists v. split; [done|].
  pose proof (every_citation_classified (H:=basic_latin) _ _ Hv)
    as (Hcount & _).
  split; [|exact Hcount].
  vm_compute in Hv. by injection Hv as <-.
Defined.

Lemma format_errors_once_witness :
  ∃ v, validate_document three_diagnoses = Ok v
       ∧ format_errors (v_diagnostics v)
         = omap (format_entry (v_citation_locations v)) (v_citations v).
Proof.
  destruct (validate_document three_diagnoses) as [v|e] eqn:Hv;
    [|by vm_compute in Hv].
  exists v. split; [done|].
  exact (format_errors_once (H:=basic_latin) _ _ Hv).
Defined.

End APAPropertiesExamples.

Module BoundedProperties.
Import Py Docx Numeric Spec PyFacts NumericFacts BoundedFacts PyProperties
       NumericProperties.

Lemma mapM_pure_Forall {A B} (f : A → outcome B) (g : A → B) l :
  Forall (λ x, f x = Ok (g x)) l → mapM f l = Ok (map g l).
Proof.
  induction 1 as [|x l Hx _ IH]; [done|]. cbn [mapM map].
  rewrite Hx. cbn [mbind outcome_bind bind]. by rewrite IH.
Qed.

Section Properties.
Context `{Unicode} `{Difflib} `{Rounding} `{Bounded.Interpreter}.

(** ** A range in a text *)


(** ** Paragraphs the rewriting loop passes over *)

Lemma plain_run_untouched (mapping : gmap Z Z) r fuel :
  plain_run r →
  rewrite_run (S fuel) mapping r = [r]
  ∧ Bounded.rewrite_run (S fuel) mapping r = Ok [r].
Proof.
  intros [Htext Hrun]. cbn [rewrite_run Bounded.rewrite_run].
  unfold re_search. rewrite search_bracketed_none by done.
  by rewrite Hrun.
Qed.

(** The loop of [renumber] that rewrites the citations (l.361-467) leaves
    a paragraph as it is, and raises nothing on it, when none of its runs
    holds "^", "[" or "(" and none is a citation run.  (The reordering
    that follows the loop still moves the paragraphs of the
    bibliography.) *)
Theorem plain_paragraph_untouched (mapping : gmap Z Z) (para : paragraph) :
  plain_paragraph para →
  rewrite_paragraph mapping para = para
  ∧ rewrite_block mapping (BPara para) = BPara para
  ∧ Bounded.rewrite_paragraph mapping para = Ok para
  ∧ Bounded.rewrite_block mapping (BPara para) = Ok (BPara para).
Proof.
  intros Hruns. unfold plain_paragraph in Hruns.
  assert (rewrite_paragraph mapping para = para) as Hpara.
  { destruct para as [style runs]. unfold rewrite_paragraph.
    cbn [p_style p_runs] in *. f_equal.
    induction Hruns as [|r runs Hr _ IH]; [done|].
    cbn [flat_map]. rewrite IH.
    by rewrite (proj1 (plain_run_untouched mapping r _ Hr)). }
  assert (Bounded.rewrite_paragraph mapping para = Ok para) as Hbounded.
  { destruct para as [style runs]. unfold Bounded.rewrite_paragraph.
    cbn [p_style p_runs] in *.
    rewrite (mapM_pure_Forall _ (λ r, [r])).
    - cbn [mbind outcome_bind bind]. do 2 f_equal.
      clear. induction runs as [|r runs IH]; [done|]. cbn. by rewrite IH.
    - eapply Forall_impl; [exact Hruns|]. intros r Hr.
      apply (plain_run_untouched mapping r _ Hr). }
  split_and!; [done| |done|].
  - cbn. by rewrite Hpara.
  - cbn. by rewrite Hbounded.
Qed.

(** ** The renumbering and its status *)

Lemma renumber_inv doc doc' mapping :
  Bounded.renumber doc = Ok (doc', mapping) →
  ∃ cited body1,
    Bounded.discover doc = Ok cited
    ∧ mapping = build_mapping (appearance_order cited)
    ∧ mapM (Bounded.rewrite_block mapping) (body doc) = Ok body1
    ∧ Bounded.reorder_bibliography mapping
        (Document body1
           (if bool_decide (lit "cite_bib" ∈ styles doc) then styles doc
            else styles doc ++ [lit "cite_bib"]))
      = Ok doc'.
Proof.
  unfold Bounded.renumber, Bounded.get_citations_in_text.
  destruct (Bounded.discover doc) as [cited|] eqn:Ecited; [|done].
  cbn [mbind outcome_bind bind].
  destruct (mapM _ (body doc)) as [body1|] eqn:Ebody; [|done].
  cbn [mbind outcome_bind bind].
  destruct (Bounded.reorder_bibliography _ _) as [d|] eqn:Ereorder; [|done].
  cbn [mbind outcome_bind bind]. intros [= <- <-]. by exists cited, body1.
Qed.

Lemma dom_build_mapping order n :
  NoDup order → n ∈ dom (build_mapping order) ↔ n ∈ order.
Proof.
  intros Hnd. rewrite elem_of_dom. unfold is_Some.
  setoid_rewrite (build_mapping_lookup _ _ _ Hnd).
  rewrite list_elem_of_lookup. naive_solver.
Qed.

(** When [process_document] returns after a first pass that found
    nothing unused, nothing missing and the document not perfect, it
    returns what [renumber] made of the document, the mapping, and the
    statistics of a second pass over the renumbered document.  Some id
    changes exactly when the first pass found sequence issues, and the
    status says "Renumbering" exactly then; without duplicates that is
    always the case. *)
Theorem renumbering_status doc doc' before after mapping msg :
  Bounded.process_document doc = Ok (doc', before, after, mapping, msg) →
  unused_references before = [] →
  is_perfect before = false →
  missing_references before = [] →
  Bounded.get_validation_stats doc = Ok before
  ∧ Bounded.renumber doc = Ok (doc', mapping)
  ∧ Bounded.get_validation_stats doc' = Ok after
  ∧ (changes_made mapping = true ↔ sequence_issues before ≠ [])
  ∧ (duplicate_references before = [] → sequence_issues before ≠ [])
  ∧ msg = match duplicate_references before with
          | [] => lit "Renumbering completed successfully."
          | ds =>
              (if is_empty (sequence_issues before)
               then lit "Validation" else lit "Renumbering")
              ++ lit " completed with "
              ++ str_of_int (Z.of_nat (length ds)) ++ lit " duplicate"
              ++ (if (1 <? length ds)%nat then lit "s" else [])
              ++ lit "."
          end.
Proof.
  intros Hproc Hunused Hperfect Hmissing.
  unfold Bounded.process_document in Hproc.
  destruct (Bounded.get_validation_stats doc) as [b|] eqn:Ebefore; [|done].
  cbn [mbind outcome_bind bind] in Hproc.
  destruct (negb (is_empty (unused_references b))) eqn:Hu.
  { injection Hproc as _ <- _ _ _. by rewrite Hunused in Hu. }
  destruct (is_perfect b) eqn:Hp.
  { injection Hproc as _ <- _ _ _. by rewrite Hperfect in Hp. }
  destruct (negb (is_empty (missing_references b))) eqn:Hm.
  { injection Hproc as _ <- _ _ _. by rewrite Hmissing in Hm. }
  destruct (Bounded.renumber doc) as [[d m]|] eqn:Eren; [|done].
  cbn [mbind outcome_bind bind] in Hproc.
  destruct (Bounded.get_validation_stats d) as [a|] eqn:Eafter; [|done].
  cbn [mbind outcome_bind bind] in Hproc.
  (* the mapping and the sequence issues *)
  destruct (bounded_stats_inv doc b Ebefore)
    as (bib_refs & ref_objects & cited & ds & _ & Hcited & _ & Hb).
  destruct (renumber_inv doc d m Eren)
    as (cited' & body1 & Hcited' & Hmap & _).
  rewrite Hcited in Hcited'. injection Hcited' as <-.
  destruct (discover_bounded_wf doc cited Hcited) as [Horder _].
  assert (sequence_issues b
          = sequence_gaps (first_appearances (all_cited_ids cited))) as Hseq.
  { rewrite Hb. cbn [sequence_issues]. apply sequence_walk_spec. }
  assert (changes_made m = negb (is_empty (sequence_issues b))) as Hchanged.
  { rewrite Hmap, Horder, Hseq.
    apply changes_made_gaps, NoDup_first_appearances. }
  assert (duplicate_references b = [] → sequence_issues b ≠ []) as Hdups.
  { intros Hd Hs. rewrite Hb in Hp, Hu, Hm, Hd, Hs.
    cbn [is_perfect unused_references missing_references
         duplicate_references sequence_issues] in *.
    rewrite Hd, Hs in Hp.
    apply negb_false_iff in Hu, Hm. by rewrite Hu, Hm in Hp. }
  assert (before = b ∧ doc' = d ∧ after = a ∧ mapping = m
          ∧ msg = match duplicate_references b with
                  | [] => lit "Renumbering completed successfully."
                  | ds =>
                      (if is_empty (sequence_issues b)
                       then lit "Validation" else lit "Renumbering")
                      ++ lit " completed with "
                      ++ str_of_int (Z.of_nat (length ds))
                      ++ lit " duplicate"
                      ++ (if (1 <? length ds)%nat then lit "s" else [])
                      ++ lit "."
                  end) as (-> & -> & -> & -> & ->).
  { rewrite Hchanged in Hproc.
    destruct (duplicate_references b) as [|dup dups] eqn:Hd.
    - cbn [is_empty negb] in Hproc.
      destruct (sequence_issues b); [by destruct Hdups|].
      cbn [is_empty negb] in Hproc. by injection Hproc as <- <- <- <- <-.
    - cbn [is_empty negb] in Hproc.
      destruct (Bounded.py_str _) as [count_text|] eqn:Ecount; [|done].
      apply py_str_inv in Ecount as [-> _].
      cbn [mbind outcome_bind bind] in Hproc.
      injection Hproc as <- <- <- <- <-.
      by destruct (sequence_issues b). }
  split_and!; [done..| |done|done].
  rewrite Hchanged, negb_true_iff, <- not_true_iff_false, is_empty_true.
  done.
Qed.

(** When validation finds nothing unused and nothing missing, the keys of
    the mapping that [renumber] builds are exactly the ids of the
    bibliography, as read from the document it was given. *)
Lemma mapping_covers_bibliography doc before bib_refs ref_objects cited :
  Bounded.get_validation_stats doc = Ok before →
  unused_references before = [] →
  missing_references before = [] →
  Bounded.get_references_in_bibliography doc = Ok (bib_refs, ref_objects) →
  Bounded.discover doc = Ok cited →
  dom (build_mapping (appearance_order cited)) = bib_refs.
Proof.
  intros Hst Hunused Hmissing Hbib Hcited.
  destruct (bounded_stats_inv doc before Hst)
    as (bib' & objs' & cited' & ds & Hbib' & Hcited' & _ & Hb).
  rewrite Hbib in Hbib'. injection Hbib' as <- <-.
  rewrite Hcited in Hcited'. injection Hcited' as <-.
  rewrite Hb in Hunused, Hmissing.
  cbn [unused_references missing_references] in *.
  apply sorted_elements_nil in Hunused, Hmissing.
  destruct (discover_bounded_wf doc cited Hcited) as [Horder _].
  apply set_eq. intros n.
  rewrite Horder, dom_build_mapping by apply NoDup_first_appearances.
  rewrite elem_of_first_appearances.
  split.
  - intros Hn. destruct (decide (n ∈ bib_refs)) as [|Hnot]; [done|].
    exfalso. apply (not_elem_of_empty (C:=gset Z) n). rewrite <- Hmissing.
    apply elem_of_difference. split; [by apply elem_of_list_to_set|done].
  - intros Hn. destruct (decide (n ∈ all_cited_ids cited)) as [|Hnot]; [done|].
    exfalso. apply (not_elem_of_empty (C:=gset Z) n). rewrite <- Hunused.
    apply elem_of_difference. split; [done|].
    by rewrite elem_of_list_to_set.
Qed.

(** ** The bibliography read again after the citations are rewritten *)

Lemma mapM_Forall2 {A B} (f : A → outcome B) l : ∀ l',
  mapM f l = Ok l' → Forall2 (λ x y, f x = Ok y) l l'.
Proof.
  induction l as [|x l IH]; intros l'; cbn [mapM].
  - intros [= <-]. constructor.
  - destruct (f x) as [y|] eqn:Hx; [|done]. cbn [mbind outcome_bind bind].
    destruct (mapM f l) as [ys|] eqn:Hl; [|done].
    cbn [mbind outcome_bind bind]. intros [= <-]. constructor; [done|].
    by apply IH.
Qed.

Lemma rewrite_paragraph_style (mapping : gmap Z Z) para para' :
  Bounded.rewrite_paragraph mapping para = Ok para' →
  p_style para' = p_style para.
Proof.
  unfold Bounded.rewrite_paragraph.
  destruct (mapM _ (p_runs para)) as [runs|]; [|done].
  cbn [mbind outcome_bind bind]. by intros [= <-].
Qed.

Lemma rewrite_block_same_entry (mapping : gmap Z Z) b b1 :
  Bounded.rewrite_block mapping b = Ok b1 → same_entry b b1.
Proof.
  destruct b as [p|rows|]; cbn [Bounded.rewrite_block].
  - destruct (Bounded.rewrite_paragraph mapping p) as [p1|] eqn:Hp; [|done].
    cbn. intros [= <-]. cbn. split; [by eapply rewrite_paragraph_style|].
    intros Hplain.
    destruct (plain_paragraph_untouched mapping p Hplain) as (_ & _ & Hb & _).
    rewrite Hb in Hp. by injection Hp.
  - destruct (mapM _ rows) as [rows1|]; [|done]. cbn. by intros [= <-].
  - by intros [= <-].
Qed.

Lemma reread_entries bs bs1 :
  Forall2 same_entry bs bs1 →
  ∀ g : nat → nat,
    Forall (λ b, match b with
                 | BPara p =>
                     style_is (p_style p) "REF-N" = true → plain_paragraph p
                 | _ => True
                 end) bs →
    mapM Bounded.bib_entry
      (omap (λ ib : nat * block, match ib.2 with
                                 | BPara p => Some (ib.1, p)
                                 | _ => None
                                 end) (imap (λ i b, (g i, b)) bs1))
    = mapM Bounded.bib_entry
        (omap (λ ib : nat * block, match ib.2 with
                                   | BPara p => Some (ib.1, p)
                                   | _ => None
                                   end) (imap (λ i b, (g i, b)) bs)).
Proof.
  induction 1 as [|b b1 bs bs1 Hb _ IH]; intros g Hplain; [done|].
  apply Forall_cons in Hplain as [Hp Hplain].
  cbn [imap]. rewrite !omap_cons. cbn [fst snd].
  specialize (IH (λ i, g (S i)) Hplain).
  destruct b as [p|rows|], b1 as [p1|rows1|]; cbn [fst snd]; try done;
    try (unfold compose; cbn beta in IH |- *; by apply IH).
  destruct Hb as [Hstyle Hsame].
  assert (Bounded.bib_entry (g 0%nat, p1) = Bounded.bib_entry (g 0%nat, p))
    as Hentry.
  { unfold Bounded.bib_entry. rewrite Hstyle.
    destruct (style_is (p_style p) "REF-N") eqn:Href; [|done].
    by rewrite Hsame by (by apply Hp). }
  cbn [option_list option_rect app mapM]. rewrite Hentry.
  destruct (Bounded.bib_entry (g 0%nat, p)) as [entry|e];
    cbn [mbind outcome_bind bind]; [|done].
  unfold compose. cbn beta in IH |- *. by rewrite IH.
Qed.

(** When validation finds nothing unused and nothing missing and
    [renumber] returns, the keys of its mapping are exactly the ids of
    the bibliography of the document it was given.  If no paragraph of
    the bibliography holds a citation, the entries that [renumber] reads
    again after rewriting the citations (l.470) are the same entries, and
    the id of each is a key of the mapping: every entry is put back with
    a new id, none as uncited. *)
Theorem renumber_covers_bibliography doc before doc' mapping :
  Bounded.get_validation_stats doc = Ok before →
  unused_references before = [] →
  missing_references before = [] →
  Bounded.renumber doc = Ok (doc', mapping) →
  ∃ bib_refs ref_objects body1,
    Bounded.get_references_in_bibliography doc = Ok (bib_refs, ref_objects)
    ∧ dom mapping = bib_refs
    ∧ mapM (Bounded.rewrite_block mapping) (body doc) = Ok body1
    ∧ (Forall (λ p, style_is (p_style p) "REF-N" = true → plain_paragraph p)
              (paragraphs doc) →
       (∀ styles1,
          Bounded.get_references_in_bibliography (Document body1 styles1)
          = Ok (bib_refs, ref_objects))
       ∧ Forall (λ obj, is_Some (mapping !! ro_id obj)) ref_objects).
Proof.
  intros Hst Hunused Hmissing Hren.
  destruct (bounded_stats_inv doc before Hst)
    as (bib_refs & ref_objects & cited & ds & Hbib & Hcited & _ & _).
  destruct (renumber_inv doc doc' mapping Hren)
    as (cited' & body1 & Hcited' & -> & Hbody & _).
  rewrite Hcited in Hcited'. injection Hcited' as <-.
  pose proof (mapping_covers_bibliography doc before bib_refs ref_objects
                cited Hst Hunused Hmissing Hbib Hcited) as Hdom.
  exists bib_refs, ref_objects, body1. split_and!; [done..|].
  intros Hplain.
  assert (∀ styles1,
            Bounded.get_references_in_bibliography (Document body1 styles1)
            = Ok (bib_refs, ref_objects)) as Hreread.
  { intros styles1. rewrite <- Hbib.
    unfold Bounded.get_references_in_bibliography, indexed_paragraphs.
    cbn [body]. f_equal.
    apply (reread_entries (body doc) body1).
    - apply mapM_Forall2 in Hbody.
      eapply Forall2_impl; [exact Hbody|]. intros b b1.
      apply rewrite_block_same_entry.
    - unfold paragraphs, indexed_paragraphs in Hplain.
      rewrite Forall_fmap in Hplain.
      apply Forall_forall. intros b Hb. destruct b as [p| |]; [|done..].
      apply list_elem_of_lookup in Hb as [i Hi].
      rewrite Forall_forall in Hplain.
      apply (Hplain (i, p)). apply list_elem_of_omap. exists (i, BPara p).
      split; [|done]. apply list_elem_of_lookup. exists i.
      by rewrite list_lookup_imap, Hi. }
  split; [done|].
  apply Forall_forall. intros obj Hobj. apply elem_of_dom. rewrite Hdom.
  unfold Bounded.get_references_in_bibliography in Hbib.
  destruct (mapM Bounded.bib_entry (indexed_paragraphs doc)) as [entries|];
    [|done].
  cbn [mbind outcome_bind bind] in Hbib. injection Hbib as <- <-.
  apply elem_of_list_to_set, list_elem_of_fmap. by exists obj.
Qed.

End Properties.
End BoundedProperties.

Module BoundedPropertiesExamples.
Import Py Docx Numeric Spec Examples BoundedFacts BoundedProperties.

#[local] Existing Instances basic_latin exact_difflib no_rounding cpython.


Lemma plain_paragraph_untouched_witness :
  Bounded.rewrite_paragraph {[ 5 := 1 ]}
    (Paragraph None [plain "As shown 5."])
  = Ok (Paragraph None [plain "As shown 5."]).
Proof.
  apply (plain_paragraph_untouched (H:=basic_latin) (H2:=cpython)).
  repeat constructor.
Defined.

Lemma renumbering_status_witness :
  ∃ doc' before after mapping,
    Bounded.process_document out_of_order
    = Ok (doc', before, after, mapping,
          lit "Renumbering completed successfully.")
    ∧ changes_made mapping = true.
Proof.
  destruct (Bounded.process_document out_of_order)
    as [[[[[doc' before] after] mapping] msg]|e] eqn:Hproc;
    [|by vm_compute in Hproc].
  assert (unused_references before = [] ∧ is_perfect before = false
          ∧ missing_references before = []
          ∧ duplicate_references before = []) as (Hu & Hp & Hm & Hd).
  { vm_compute in Hproc. injection Hproc as _ <- _ _ _. by vm_compute. }
  destruct (renumbering_status out_of_order doc' before after mapping msg
              Hproc Hu Hp Hm) as (_ & _ & _ & Hchanged & Hdups & ->).
  exists doc', before, after, mapping. rewrite Hd. split; [done|].
  by apply Hchanged, Hdups.
Defined.

Lemma renumber_covers_bibliography_witness :
  ∃ doc' mapping,
    Bounded.renumber out_of_order = Ok (doc', mapping)
    ∧ dom mapping = {[ 2; 5; 9 ]}.
Proof.
  destruct (Bounded.get_validation_stats out_of_order) as [before|e] eqn:Hst;
    [|by vm_compute in Hst].
  assert (unused_references before = [] ∧ missing_references before = [])
    as (Hu & Hm).
  { vm_compute in Hst. injection Hst as <-. by vm_compute. }
  destruct (Bounded.renumber out_of_order) as [[doc' mapping]|e] eqn:Hren;
    [|by vm_compute in Hren].
  destruct (renumber_covers_bibliography out_of_order before doc' mapping
              Hst Hu Hm Hren) as (bib_refs & objs & body1 & Hbib & Hdom & _).
  exists doc', mapping. split; [done|]. rewrite Hdom.
  vm_compute in Hbib. injection Hbib as <- _. by vm_compute.
Defined.

End BoundedPropertiesExamples.
